(** * Avalanche consensus service: the DAG store and the consensus engine

    A shallow embedding of [src/dag/dag.go] and [src/consensus/avalanche.go],
    of the vertex generator of the simulation service, of the start and
    stop of the consensus service, and of the nodes and peers of the
    simulated network.

    Representation.  The Go code links vertices through [*Vertex] pointers
    kept in [map[string]*Vertex].  Here a pointer to a vertex is the key
    under which the vertex is stored in the table [vertices] of the DAG, so
    that an update made through any alias is seen by all of them.  Go maps
    used as sets ([Parents], [Children], [roots], [finalized]) are finite
    sets of keys; [pending] is a finite map to machine integers.  A Go
    [range] over a map visits the keys in an unspecified order; here it
    visits them in the order of [elements] or [map_to_list], and no
    statement below depends on that order.  The payload of a vertex is
    an [interface{}]; the one operation that the engine applies to it is
    the comparison [!=], which panics for two maps or two slices: the
    comparison is a parameter of the engine (class [GoData]) that answers
    or panics, given for strings and for the values decoded from JSON.
    The locks are not modelled:
    every operation is read with its sequential meaning, and the loop of
    [RunConsensus] is a sequence of rounds. *)

From Stdlib Require Import ZArith Lia.
From stdpp Require Import base gmap strings pretty list fin_maps fin_sets.

Local Open Scope Z_scope.

(* [set_solver] clears hypotheses that its own steps have already used;
   no induction scheme is asked for the nested type of the JSON values. *)
#[local] Set Warnings "-clear-no-such-hyp,-register-all".

(** The three error values declared at the end of [dag.go]. *)
Inductive DAGError : Set :=
  | ErrVertexAlreadyExists
  | ErrVertexNotFound
  | ErrWouldCreateCycle.

#[global] Instance DAGError_eq_dec : EqDecision DAGError.
Proof. solve_decision. Defined.

(** ** Package [dag] *)
Module Dag.

Section dag.

(** The payload of a vertex is an [interface{}]; it is kept abstract. *)
Context {Payload : Type}.

Record Vertex : Type := mkVertex {
  ID : string;
  Data : Payload;
  Parents : gset string;
  Children : gset string;
  Preferred : bool;
  Color : Z;
  Finalized : bool
}.

Record DAG : Type := mkDAG {
  vertices : gmap string Vertex;
  roots : gset string
}.

Definition with_Parents (f : gset string → gset string) (v : Vertex) : Vertex :=
  mkVertex (ID v) (Data v) (f (Parents v)) (Children v)
           (Preferred v) (Color v) (Finalized v).

Definition with_Children (f : gset string → gset string) (v : Vertex) : Vertex :=
  mkVertex (ID v) (Data v) (Parents v) (f (Children v))
           (Preferred v) (Color v) (Finalized v).

Definition with_Finalized (b : bool) (v : Vertex) : Vertex :=
  mkVertex (ID v) (Data v) (Parents v) (Children v)
           (Preferred v) (Color v) b.

Definition NewDAG : DAG := mkDAG ∅ ∅.

Definition AddVertex (d : DAG) (id : string) (data : Payload)
  : DAG * (Vertex + DAGError) :=
  match vertices d !! id with
  | Some _ => (d, inr ErrVertexAlreadyExists)
  | None =>
      let v := mkVertex id data ∅ ∅ false 0 false in
      (mkDAG (<[id := v]> (vertices d)) ({[id]} ∪ roots d), inl v)
  end.

(** The loop [for _, p := range v.Parents] of the closure [dfs]: [rec] is
    the recursive call, [name k p] the id under which the loop tests the
    [visited] map for the parent stored under key [k]. *)
Fixpoint dfs_range (vs : gmap string Vertex)
    (name : string → Vertex → string)
    (rec : gset string → string → option (bool * gset string))
    (ps : list string) (visited : gset string)
  : option (bool * gset string) :=
  match ps with
  | [] => Some (false, visited)
  | k :: ps' =>
      match vs !! k with
      | None => dfs_range vs name rec ps' visited
      | Some p =>
          if decide (name k p ∈ visited) then dfs_range vs name rec ps' visited
          else
            match rec visited k with
            | None => None
            | Some (true, visited') => Some (true, visited')
            | Some (false, visited') => dfs_range vs name rec ps' visited'
            end
      end
  end.

(** The recursive closure shared by [wouldCreateCycle] and the closure
    [checkParent] of the engine: a search along [Parents] that stops at the
    vertex whose [ID] is [target].  The recursion of the source is bounded
    here by [fuel]; [None] is "out of fuel" (see [dfs_fuel_enough]). *)
Fixpoint dfs (vs : gmap string Vertex) (name : string → Vertex → string)
    (target : string) (fuel : nat) (visited : gset string) (k : string)
  : option (bool * gset string) :=
  match fuel with
  | O => None
  | S fuel' =>
      match vs !! k with
      | None => Some (false, visited)
      | Some v =>
          if decide (ID v = target) then Some (true, visited)
          else
            dfs_range vs name (dfs vs name target fuel')
                      (elements (Parents v)) ({[ID v]} ∪ visited)
      end
  end.

Definition by_ID (k : string) (p : Vertex) : string := ID p.
Definition by_key (k : string) (p : Vertex) : string := k.

(** [wouldCreateCycle(parent, child)]: the search starts at [child] and
    looks for [parent.ID] among the ancestors of [child]. *)
Definition wouldCreateCycle (d : DAG) (parent child : string) : bool :=
  match vertices d !! parent with
  | None => false
  | Some p =>
      match dfs (vertices d) by_ID (ID p) (S (size (vertices d))) ∅ child with
      | Some (b, _) => b
      | None => false
      end
  end.

Definition AddEdge (d : DAG) (parentID childID : string)
  : DAG * option DAGError :=
  match vertices d !! parentID with
  | None => (d, Some ErrVertexNotFound)
  | Some _ =>
      match vertices d !! childID with
      | None => (d, Some ErrVertexNotFound)
      | Some _ =>
          if wouldCreateCycle d parentID childID
          then (d, Some ErrWouldCreateCycle)
          else
            let vs1 := alter (with_Children (λ c, {[childID]} ∪ c))
                             parentID (vertices d) in
            let vs2 := alter (with_Parents (λ p, {[parentID]} ∪ p))
                             childID vs1 in
            (mkDAG vs2 (roots d ∖ {[childID]}), None)
      end
  end.

Definition GetVertex (d : DAG) (id : string) : Vertex + DAGError :=
  match vertices d !! id with
  | Some v => inl v
  | None => inr ErrVertexNotFound
  end.

(** One turn of [for pid, parent := range v.Parents]. *)
Definition detach_parent (id : string) (vs : gmap string Vertex)
    (pid : string) : gmap string Vertex :=
  alter (with_Children (λ c, c ∖ {[id]})) pid vs.

(** One turn of [for cid, child := range v.Children]. *)
Definition detach_child (id : string)
    (st : gmap string Vertex * gset string) (cid : string)
  : gmap string Vertex * gset string :=
  let vs := alter (with_Parents (λ p, p ∖ {[id]})) cid st.1 in
  match vs !! cid with
  | Some child =>
      if decide (size (Parents child) = 0%nat)
      then (vs, {[cid]} ∪ st.2) else (vs, st.2)
  | None => (vs, st.2)
  end.

Definition RemoveVertex (d : DAG) (id : string) : DAG * option DAGError :=
  match vertices d !! id with
  | None => (d, Some ErrVertexNotFound)
  | Some v =>
      let vs1 := foldl (detach_parent id) (vertices d)
                       (elements (Parents v)) in
      let cs := match vs1 !! id with
                | Some v1 => elements (Children v1)
                | None => []
                end in
      let st2 := foldl (detach_child id) (vs1, roots d) cs in
      (mkDAG (delete id st2.1) (st2.2 ∖ {[id]}), None)
  end.

Definition GetRoots (d : DAG) : list Vertex :=
  omap (λ k, vertices d !! k) (elements (roots d)).

Definition GetVertices (d : DAG) : list Vertex :=
  (map_to_list (vertices d)).*2.

(** *** Properties of a DAG value used by the statements below *)

(** Every vertex is stored under its own [ID]. *)
Definition ids_ok (d : DAG) : Prop :=
  map_Forall (λ k v, ID v = k) (vertices d).

(** Edges and roots name stored vertices only. *)
Definition closed (d : DAG) : Prop :=
  roots d ⊆ dom (vertices d) ∧
  map_Forall (λ _ v, Parents v ⊆ dom (vertices d) ∧
                     Children v ⊆ dom (vertices d)) (vertices d).

#[global] Instance ids_ok_dec d : Decision (ids_ok d).
Proof. unfold ids_ok. apply _. Defined.

#[global] Instance closed_dec d : Decision (closed d).
Proof. unfold closed. apply _. Defined.

(** No vertex is its own parent. *)
Definition no_self_edge (d : DAG) : Prop :=
  map_Forall (λ k v, k ∉ Parents v) (vertices d).

(** What holds of every DAG built by the operations of the store. *)
Definition wf (d : DAG) : Prop := ids_ok d ∧ closed d ∧ no_self_edge d.

#[global] Instance no_self_edge_dec d : Decision (no_self_edge d).
Proof. unfold no_self_edge. apply _. Defined.

#[global] Instance wf_dec d : Decision (wf d).
Proof. unfold wf. apply _. Defined.

(** [ancestor d p k]: [p] is reached from [k] by one or more [Parents]
    steps. *)
Inductive ancestor (d : DAG) : string → string → Prop :=
  | ancestor_parent k v p :
      vertices d !! k = Some v → p ∈ Parents v → ancestor d p k
  | ancestor_step k v p q :
      vertices d !! k = Some v → p ∈ Parents v → ancestor d q p →
      ancestor d q k.

Definition acyclic (d : DAG) : Prop := ∀ k, ¬ ancestor d k k.

(** [linked d id data ps d']: [d'] is [d] with a fresh vertex [id] stored
    and linked below the parents [ps]. *)
Definition linked (d : DAG) (id : string) (data : Payload)
    (ps : gset string) (d' : DAG) : Prop :=
  vertices d' !! id = Some (mkVertex id data ps ∅ false 0 false) ∧
  (∀ k, k ≠ id →
        vertices d' !! k =
        (if decide (k ∈ ps) then with_Children (λ c, {[id]} ∪ c) else λ v, v)
          <$> vertices d !! k) ∧
  roots d' ∖ {[id]} = roots d ∧
  id ∉ ps.

(** [explored d target vis vis']: a search for [target] that started with
    the map [vis] and ended without success with the map [vis'] has not
    met the target, and has visited the stored parents of every vertex it
    has newly visited. *)
Definition explored (d : DAG) (target : string) (vis vis' : gset string)
  : Prop :=
  vis ⊆ vis' ∧
  (target ∈ vis' → target ∈ vis) ∧
  ∀ x v p, x ∈ vis' → x ∉ vis → vertices d !! x = Some v →
           p ∈ Parents v → p ∈ dom (vertices d) → p ∈ vis'.

(** The number of stored keys that a search has not visited yet. *)
Definition unvisited (vs : gmap string Vertex) (visited : gset string) : nat :=
  size (dom vs ∖ visited).

(** The [Finalized] flag of every stored vertex. *)
Definition flags (d : DAG) : gmap string bool := Finalized <$> vertices d.

(** The operations of the store, as values. *)
Inductive op : Type :=
  | OpAddVertex (id : string) (data : Payload)
  | OpAddEdge (parentID childID : string).

Definition exec (d : DAG) (o : op) : DAG :=
  match o with
  | OpAddVertex id data => (AddVertex d id data).1
  | OpAddEdge parentID childID => (AddEdge d parentID childID).1
  end.

(** The vertex stored under [k] once the edge from [parentID] to [childID]
    is added. *)
Definition edge_added (parentID childID k : string) (v : Vertex) : Vertex :=
  with_Parents (λ ps, if decide (k = childID) then {[parentID]} ∪ ps else ps)
    (with_Children (λ cs, if decide (k = parentID) then {[childID]} ∪ cs
                          else cs) v).

(** The vertex stored under [k] once the vertex [id], whose record is [r],
    is removed. *)
Definition neighbour_detached (id : string) (r : Vertex) (k : string)
    (v : Vertex) : Vertex :=
  with_Parents (λ ps, if decide (k ∈ Children r) then ps ∖ {[id]} else ps)
    (with_Children (λ cs, if decide (k ∈ Parents r) then cs ∖ {[id]}
                          else cs) v).

(** *** The invariants of the store, with [RemoveVertex] *)

(** Every edge is recorded at both of its ends. *)
Definition symmetric (d : DAG) : Prop :=
  map_Forall (λ p vp,
    map_Forall (λ c vc, c ∈ Children vp ↔ p ∈ Parents vc) (vertices d))
    (vertices d).

(** The roots are the stored vertices without parents. *)
Definition roots_ok (d : DAG) : Prop :=
  roots d = dom (filter (λ kv, Parents kv.2 = ∅) (vertices d)).

Definition store_inv (d : DAG) : Prop := wf d ∧ symmetric d ∧ roots_ok d.

#[global] Instance symmetric_dec d : Decision (symmetric d).
Proof. unfold symmetric. apply _. Defined.

#[global] Instance roots_ok_dec d : Decision (roots_ok d).
Proof. unfold roots_ok. apply _. Defined.

#[global] Instance store_inv_dec d : Decision (store_inv d).
Proof. unfold store_inv. apply _. Defined.

(** The three mutating operations of the store, as values. *)
Inductive store_op : Type :=
  | StoreAddVertex (id : string) (data : Payload)
  | StoreAddEdge (parentID childID : string)
  | StoreRemoveVertex (id : string).

Definition store_exec (d : DAG) (o : store_op) : DAG :=
  match o with
  | StoreAddVertex id data => (AddVertex d id data).1
  | StoreAddEdge parentID childID => (AddEdge d parentID childID).1
  | StoreRemoveVertex id => (RemoveVertex d id).1
  end.

End dag.

Arguments Vertex : clear implicits.
Arguments op : clear implicits.
Arguments store_op : clear implicits.
Arguments DAG : clear implicits.

End Dag.

(** ** Package [consensus] *)
Module Consensus.

Import Dag.

(** Go's [int] on a 64-bit platform: the result of an addition is reduced
    to the signed 64-bit range. *)
Definition max_int : Z := 2 ^ 63 - 1.
Definition min_int : Z := - 2 ^ 63.
Definition int_wrap (z : Z) : Z := (z + 2 ^ 63) mod 2 ^ 64 - 2 ^ 63.
Definition int_add (x y : Z) : Z := int_wrap (x + y).

Record AvalancheParams : Set := mkParams {
  K : Z;
  Alpha : Z;
  BetaVirtuous : Z;
  BetaRogue : Z;
  ConcurrencyNum : Z;
  BatchSize : Z;
  MaxOutstanding : Z;
  MaxSampleSize : Z;
  SampleTimeout : Z
}.

Definition DefaultParams : AvalancheParams :=
  mkParams 10 8 20 30 4 10 1024 20 1000000000.

(** The payload of a vertex is a Go value of type [interface{}], and
    [areCompatible] compares two of them with [!=].  [data_neq x y] is that
    comparison: [Some b] when it answers [b], and [None] when it panics, as
    Go does for two values of the same dynamic type when that type is not
    comparable (a map, a slice, a function).  Nothing else is assumed of
    it: a value need not be equal to itself (a NaN is not). *)
Class GoData (Payload : Type) : Type :=
  data_neq : Payload → Payload → option bool.

Section consensus.

Context {Payload : Type} `{!GoData Payload}.

(** The random source [crypto/rand.Reader]: the [n]-th draw made by the
    engine reads [oracle n]; the number of draws made so far is threaded
    through the functions that draw. *)
Variable oracle : nat → Z.

(** [rand.Int(rand.Reader, max)]: a value in [[0, max)], for the
    positive [max] the engine asks for. *)
Definition rand_int (pos : nat) (max : Z) : Z := oracle pos mod max.

Record Avalanche : Type := mkAvalanche {
  dag : DAG Payload;
  params : AvalancheParams;
  pending : gmap string Z;
  finalized : gset string
}.

Definition NewAvalanche (d : DAG Payload) (p : AvalancheParams) : Avalanche :=
  mkAvalanche d p ∅ ∅.

(** The loop [for _, pid := range parentIDs] of [AddVertex], with its
    rollback. *)
Fixpoint link_parents (d : DAG Payload) (id : string) (parentIDs : list string)
  : DAG Payload * option DAGError :=
  match parentIDs with
  | [] => (d, None)
  | pid :: rest =>
      match AddEdge d pid id with
      | (d', None) => link_parents d' id rest
      | (d', Some err) => ((RemoveVertex d' id).1, Some err)
      end
  end.

Definition AddVertex (a : Avalanche) (id : string) (data : Payload)
    (parentIDs : list string) : Avalanche * (Vertex Payload + DAGError) :=
  match Dag.AddVertex (dag a) id data with
  | (d1, inr err) => (mkAvalanche d1 (params a) (pending a) (finalized a), inr err)
  | (d1, inl vertex) =>
      match link_parents d1 id parentIDs with
      | (d2, Some err) =>
          (mkAvalanche d2 (params a) (pending a) (finalized a), inr err)
      | (d2, None) =>
          (mkAvalanche d2 (params a) (<[id := 0]> (pending a)) (finalized a),
           inl (default vertex (vertices d2 !! id)))
      end
  end.

(** [samples[i], samples[j] = samples[j], samples[i]] *)
Definition swap (i j : nat) (l : list string) : list string :=
  match l !! i, l !! j with
  | Some x, Some y => <[j := x]> (<[i := y]> l)
  | _, _ => l
  end.

(** The Fisher-Yates loop [for i := len(samples) - 1; i > 0; i--]. *)
Fixpoint shuffle (i : nat) (samples : list string) (pos : nat)
  : list string * nat :=
  match i with
  | O => (samples, pos)
  | S i' =>
      let j := Z.to_nat (rand_int pos (Z.of_nat i + 1)) in
      shuffle i' (swap i j samples) (S pos)
  end.

(** The candidate list built by [getSamples]: parents first, then the
    other vertices. *)
Definition candidates_of (a : Avalanche) (id : string) (vertex : Vertex Payload)
  : list string :=
  elements (Parents vertex) ++
  (ID <$> filter (λ v, ID v ≠ id ∧ ID v ∉ Parents vertex)
                 (GetVertices (dag a))).

(** [getSamples]; [None] is the run-time panic of [samples[:k]] for a
    negative [k]. *)
Definition getSamples (a : Avalanche) (pos : nat) (id : string) (k : Z)
  : option (list string * nat) :=
  let allVertices := GetVertices (dag a) in
  if decide (Z.of_nat (length allVertices) < k) then Some ([], pos)
  else
    match GetVertex (dag a) id with
    | inr _ => Some ([], pos)
    | inl vertex =>
        let candidates := candidates_of a id vertex in
        if decide (Z.of_nat (length candidates) ≤ k) then Some (candidates, pos)
        else
          let '(samples, pos') :=
            shuffle (length candidates - 1) candidates pos in
          if decide (k < 0) then None
          else Some (take (Z.to_nat k) samples, pos')
    end.

(** [checkPreference] *)
Definition checkPreference (a : Avalanche) (pos : nat)
    (sampleID targetID : string) : bool * nat :=
  match GetVertex (dag a) sampleID with
  | inr _ => (false, pos)
  | inl sampleVertex =>
      match GetVertex (dag a) targetID with
      | inr _ => (false, pos)
      | inl targetVertex =>
          if Finalized targetVertex then (true, pos)
          else
            let isParent :=
              match dfs (vertices (dag a)) by_key targetID
                        (S (size (vertices (dag a)))) ∅ sampleID with
              | Some (b, _) => b
              | None => false
              end in
            if isParent then (true, pos)
            else if Preferred sampleVertex then (true, pos)
            else (bool_decide (rand_int pos 100 < 70), S pos)
      end
  end.

(** The loop [for _, sampleID := range samples] of [processVertex]. *)
Fixpoint count_preferences (a : Avalanche) (id : string)
    (samples : list string) (preferCount : Z) (pos : nat) : Z * nat :=
  match samples with
  | [] => (preferCount, pos)
  | sampleID :: rest =>
      let '(b, pos') := checkPreference a pos sampleID id in
      count_preferences a id rest
        (if b then preferCount + 1 else preferCount) pos'
  end.

(** [areCompatible]: [return v1.Data != v2.Data]; [None] is the panic of
    the comparison. *)
Definition areCompatible (v1 v2 : Vertex Payload) : option bool :=
  data_neq (Data v1) (Data v2).

(** The loop [for _, other := range a.dag.GetVertices()] of
    [getConfidenceThreshold]: the value of [isVirtuous] at its end.  The
    test is [v.ID != other.ID && !a.areCompatible(v, other)]: the payloads
    are compared only when the IDs differ, and the loop stops at the first
    conflict ([break]), so that the vertices after it are not compared. *)
Fixpoint is_virtuous (v : Vertex Payload) (others : list (Vertex Payload))
  : option bool :=
  match others with
  | [] => Some true
  | other :: rest =>
      if bool_decide (ID v ≠ ID other) then
        match areCompatible v other with
        | None => None
        | Some false => Some false
        | Some true => is_virtuous v rest
        end
      else is_virtuous v rest
  end.

(** [getConfidenceThreshold]; [None] is the panic of a comparison. *)
Definition getConfidenceThreshold (a : Avalanche) (id : string) : option Z :=
  match GetVertex (dag a) id with
  | inr _ => Some (BetaRogue (params a))
  | inl v =>
      match is_virtuous v (GetVertices (dag a)) with
      | None => None
      | Some true => Some (BetaVirtuous (params a))
      | Some false => Some (BetaRogue (params a))
      end
  end.

(** The finalizing branch of [processVertex]: [v.Finalized = true] in the
    DAG when [GetVertex] finds the vertex. *)
Definition mark_finalized (d : DAG Payload) (id : string) : DAG Payload :=
  match GetVertex d id with
  | inl _ => mkDAG (alter (with_Finalized true) id (vertices d)) (roots d)
  | inr _ => d
  end.

(** [processVertex]; [None] is a panic: of the slice expression of
    [getSamples], or of a comparison made by [getConfidenceThreshold]. *)
Definition processVertex (a : Avalanche) (pos : nat) (id : string)
  : option (Avalanche * nat) :=
  if decide (id ∈ finalized a) then Some (a, pos)
  else
    let currentCount := default 0 (pending a !! id) in
    match getSamples a pos id (K (params a)) with
    | None => None
    | Some (samples, pos1) =>
        if decide (length samples = 0%nat) then Some (a, pos1)
        else
          let '(preferCount, pos2) := count_preferences a id samples 0 pos1 in
          if decide (Alpha (params a) ≤ preferCount) then
            let newCount := int_add currentCount 1 in
            match getConfidenceThreshold a id with
            | None => None
            | Some threshold =>
                if decide (threshold ≤ newCount) then
                  Some (mkAvalanche (mark_finalized (dag a) id) (params a)
                          (delete id (<[id := newCount]> (pending a)))
                          ({[id]} ∪ finalized a), pos2)
                else
                  Some (mkAvalanche (dag a) (params a)
                          (<[id := newCount]> (pending a))
                          (finalized a), pos2)
            end
          else
            Some (mkAvalanche (dag a) (params a)
                              (<[id := 0]> (pending a)) (finalized a), pos2)
    end.

(** The loop [for _, id := range pending] of [consensusRound]. *)
Fixpoint process_all (a : Avalanche) (pos : nat) (ids : list string)
  : option (Avalanche * nat) :=
  match ids with
  | [] => Some (a, pos)
  | id :: rest =>
      match processVertex a pos id with
      | None => None
      | Some (a', pos') => process_all a' pos' rest
      end
  end.

(** [consensusRound]: the keys of [pending] are copied, then processed. *)
Definition consensusRound (a : Avalanche) (pos : nat)
  : option (Avalanche * nat) :=
  process_all a pos (map_to_list (pending a)).*1.

Definition GetFinalized (a : Avalanche) : list (Vertex Payload) :=
  omap (λ id, vertices (dag a) !! id) (elements (finalized a)).

Definition IsPending (a : Avalanche) (id : string) : bool :=
  bool_decide (is_Some (pending a !! id)).

Definition IsFinalized (a : Avalanche) (id : string) : bool :=
  bool_decide (id ∈ finalized a).

(** *** Properties of an engine state used by the statements below *)

(** The conflict predicate in the words of the specification:
    [v.id ≠ w.id] and [v.data == w.data], the comparison being the one that
    the program makes. *)
Definition conflicts (v w : Vertex Payload) : Prop :=
  ID v ≠ ID w ∧ data_neq (Data v) (Data w) = Some false.

(** The comparison of the payloads of [v] and of a vertex with another ID
    panics. *)
Definition uncomparable (v w : Vertex Payload) : Prop :=
  ID v ≠ ID w ∧ data_neq (Data v) (Data w) = None.

(** [pending] and [finalized] are disjoint and name stored vertices. *)
Definition state_ok (a : Avalanche) : Prop :=
  dom (pending a) ## finalized a ∧
  dom (pending a) ⊆ dom (vertices (dag a)) ∧
  finalized a ⊆ dom (vertices (dag a)).

(** A vertex flagged [Finalized] in the DAG is in the set [finalized]. *)
Definition flags_ok (a : Avalanche) : Prop :=
  map_Forall (λ id b, b = true → id ∈ finalized a) (flags (dag a)).

(** The counters of [pending] are non-negative and can be incremented. *)
Definition counters_ok (a : Avalanche) : Prop :=
  map_Forall (λ _ c, 0 ≤ c < max_int) (pending a).

(** The two thresholds are values of Go's [int]. *)
Definition params_ok (p : AvalancheParams) : Prop :=
  BetaVirtuous p ≤ max_int ∧ BetaRogue p ≤ max_int.

(** What holds of every state the engine reaches from [NewAvalanche]
    over [NewDAG]. *)
Definition engine_inv (a : Avalanche) : Prop :=
  state_ok a ∧ flags_ok a ∧ counters_ok a ∧ params_ok (params a) ∧
  wf (dag a).


#[global] Instance flags_ok_dec a : Decision (flags_ok a).
Proof. unfold flags_ok. apply _. Defined.

#[global] Instance counters_ok_dec a : Decision (counters_ok a).
Proof. unfold counters_ok. apply _. Defined.

#[global] Instance params_ok_dec p : Decision (params_ok p).
Proof. unfold params_ok. apply _. Defined.

#[global] Instance engine_inv_dec a : Decision (engine_inv a).
Proof. unfold engine_inv. apply _. Defined.

(** The operations of the engine, as values. *)
Inductive op : Type :=
  | OpAddVertex (id : string) (data : Payload) (parentIDs : list string)
  | OpProcessVertex (id : string)
  | OpConsensusRound.

Definition exec (s : Avalanche * nat) (o : op) : option (Avalanche * nat) :=
  match o with
  | OpAddVertex id data parentIDs => Some ((AddVertex s.1 id data parentIDs).1, s.2)
  | OpProcessVertex id => processVertex s.1 s.2 id
  | OpConsensusRound => consensusRound s.1 s.2
  end.

Fixpoint run (s : Avalanche * nat) (ops : list op) : option (Avalanche * nat) :=
  match ops with
  | [] => Some s
  | o :: rest =>
      match exec s o with
      | None => None
      | Some s' => run s' rest
      end
  end.

(** *** Further properties of an engine state *)

(** [admissible d id linked parentIDs]: every id of [parentIDs] is stored
    in [d], is not [id], is not among the parents listed before it (nor in
    [linked]), and is not an ancestor in [d] of one of those. *)
Fixpoint admissible (d : DAG Payload) (id : string) (linked : gset string)
    (parentIDs : list string) : Prop :=
  match parentIDs with
  | [] => True
  | pid :: rest =>
      pid ∈ dom (vertices d) ∧ pid ≠ id ∧ (pid ∉ linked) ∧
      (∀ q, q ∈ linked → ¬ ancestor d pid q) ∧
      admissible d id ({[pid]} ∪ linked) rest
  end.

(** Every stored vertex is pending or finalized. *)
Definition covered (a : Avalanche) : Prop :=
  dom (vertices (dag a)) = dom (pending a) ∪ finalized a.

(** Every id of [finalized] is the id of a vertex flagged [Finalized]. *)
Definition finalized_flagged (a : Avalanche) : Prop :=
  set_Forall (λ id, flags (dag a) !! id = Some true) (finalized a).

(** What a consensus round does not touch in a vertex. *)
Definition skeleton (v : Vertex Payload)
  : string * Payload * gset string * gset string * bool * Z :=
  (ID v, Data v, Parents v, Children v, Preferred v, Color v).

End consensus.

Arguments Avalanche : clear implicits.
Arguments op : clear implicits.

(** Payloads that are Go strings, as the simulation service submits them:
    strings are comparable, and [!=] answers whether they differ. *)
#[global] Instance string_data : GoData string :=
  λ x y, Some (bool_decide (x ≠ y)).

(** Payloads as the HTTP handlers submit them: the field
    [Data interface{}] of a request is filled by [encoding/json], which
    decodes a JSON null to [nil], a boolean to a [bool], a string to a
    [string], an array to a [[]interface{}] and an object to a
    [map[string]interface{}] (numbers, decoded to [float64], are left
    out). *)
Inductive Json : Type :=
  | JNull
  | JBool (b : bool)
  | JString (s : string)
  | JArray (elements : list Json)
  | JObject (fields : list (string * Json)).

(** [!=] on two such values: values of different dynamic types differ;
    two slices, or two maps, cannot be compared. *)
#[global] Instance json_data : GoData Json :=
  λ x y,
    match x, y with
    | JNull, JNull => Some false
    | JBool b1, JBool b2 => Some (bool_decide (b1 ≠ b2))
    | JString s1, JString s2 => Some (bool_decide (s1 ≠ s2))
    | JArray _, JArray _ => None
    | JObject _, JObject _ => None
    | _, _ => Some true
    end.

End Consensus.

(** ** The simulation service: [RunRandomVertices] *)
Module Simulation.

Import Dag Consensus.

(** [fmt.Sprintf("vertex-%d", i)] and [fmt.Sprintf("Transaction-%d", i)]:
    [%d] prints the decimal digits, after a [-] for a negative number. *)
Definition vertex_id (i : Z) : string := "vertex-" +:+ pretty i.
Definition transaction (i : Z) : string := "Transaction-" +:+ pretty i.

(** The loop [for j := 1; j <= maxParents && i-j >= 0; j++] that appends
    [vertex_id (i - j)] to [parents].  The test [i-j >= 0] ends it after at
    most [i] iterations, the fuel that [parents_for] gives it
    ([SimulationExtra.parents_loop_spec] has the result for every fuel from
    [i - j + 1] on).  Here [0 < j ≤ i + 1]: no operation leaves the range of
    [int]. *)
Fixpoint parents_loop (fuel : nat) (i maxParents j : Z) (parents : list string)
  : list string :=
  match fuel with
  | O => parents
  | S fuel' =>
      if bool_decide (j ≤ maxParents) && bool_decide (i - j >= 0)
      then parents_loop fuel' i maxParents (j + 1)
                        (parents ++ [vertex_id (i - j)])
      else parents
  end.

(** [parents := []string{}; if i > 0 { for j := 1; ... } ] *)
Definition parents_for (i maxParents : Z) : list string :=
  if bool_decide (i > 0) then parents_loop (Z.to_nat i) i maxParents 1 []
  else [].

(** One iteration of the loop over [i]: the engine of the service and the
    slice [result].  The pointer appended to [result] is the id under which
    the new vertex is stored; on an error the iteration goes on to the next
    [i] ([continue]).  The pause between two vertices is not modelled. *)
Definition add_generated (maxParents : Z)
    (s : Avalanche string * list string) (i : Z)
  : Avalanche string * list string :=
  let id := vertex_id i in
  let data := transaction i in
  let parents := parents_for i maxParents in
  match AddVertex s.1 id data parents with
  | (a', inr _) => (a', s.2)
  | (a', inl _) => (a', s.2 ++ [id])
  end.

(** [RunRandomVertices].  It starts with
    [result := make([]*dag.Vertex, 0, count)], which panics for a negative
    [count]: [None].  The loop is [for i := 0; i < count; i++].  The
    machine is taken to have the memory for [count] pointers: the failure
    of an allocation, whose limit depends on the platform, is not
    modelled. *)
Definition RunRandomVertices (a : Avalanche string) (count maxParents : Z)
  : option (Avalanche string * list string) :=
  if decide (count < 0) then None
  else Some (foldl (add_generated maxParents) (a, []) (seqZ 0 count)).

End Simulation.

(** ** The consensus service: starting and stopping the rounds *)
Module Service.

(** The channels of the run.  A channel is the number of the [make] that
    created it; [closed] holds the channels on which [close] was called,
    and [loops] the channels handed to a [go RunConsensus(stop)], the
    latest first.  The loop of [RunConsensus] goes on until its channel is
    closed. *)
Record Runtime : Type := mkRuntime {
  made : nat;
  closed : gset nat;
  loops : list nat
}.

(** The fields [stopChan] and [isRunning] of a [ConsensusService], and the
    runtime it runs in. *)
Record ConsensusService : Type := mkService {
  stopChan : nat;
  isRunning : bool;
  runtime : Runtime
}.

(** [fmt.Errorf("consensus is already running")] and
    [fmt.Errorf("consensus is not running")]. *)
Inductive ServiceError : Set :=
  | ErrAlreadyRunning
  | ErrNotRunning.

(** [stopChan: make(chan struct{}), isRunning: false] *)
Definition NewConsensusService (r : Runtime) : ConsensusService :=
  mkService (made r) false (mkRuntime (S (made r)) (closed r) (loops r)).

Definition StartConsensus (s : ConsensusService)
  : ConsensusService * option ServiceError :=
  if isRunning s then (s, Some ErrAlreadyRunning)
  else
    let r := runtime s in
    let c := made r in
    (mkService c true (mkRuntime (S c) (closed r) (c :: loops r)), None).

(** [close(c)]; [None] is the run-time panic of [close] on a closed
    channel. *)
Definition close_chan (r : Runtime) (c : nat) : option Runtime :=
  if decide (c ∈ closed r) then None
  else Some (mkRuntime (made r) ({[c]} ∪ closed r) (loops r)).

Definition StopConsensus (s : ConsensusService)
  : option (ConsensusService * option ServiceError) :=
  if negb (isRunning s) then Some (s, Some ErrNotRunning)
  else
    match close_chan (runtime s) (stopChan s) with
    | None => None
    | Some r => Some (mkService (stopChan s) false r, None)
    end.

(** The consensus loops that have not been told to stop. *)
Definition live (r : Runtime) : list nat :=
  filter (λ c, c ∉ closed r) (loops r).

(** Every channel in use was made. *)
Definition runtime_ok (r : Runtime) : Prop :=
  set_Forall (λ c, (c < made r)%nat) (closed r) ∧
  Forall (λ c, (c < made r)%nat) (loops r).

#[global] Instance runtime_ok_dec r : Decision (runtime_ok r).
Proof. unfold runtime_ok. apply _. Defined.

Inductive op : Set :=
  | OpStart
  | OpStop.

Definition exec (s : ConsensusService) (o : op) : option ConsensusService :=
  match o with
  | OpStart => Some (StartConsensus s).1
  | OpStop => fst <$> StopConsensus s
  end.

Fixpoint run (s : ConsensusService) (ops : list op)
  : option ConsensusService :=
  match ops with
  | [] => Some s
  | o :: rest =>
      match exec s o with
      | None => None
      | Some s' => run s' rest
      end
  end.

End Service.

(** ** The simulated network: nodes and their peers *)
Module Network.

Section network.

Context {Payload : Type}.

(** A [*Node] is the position of the node in the heap of the nodes
    allocated so far.  The engine of a node is created with the node and
    is reached through this node only. *)
Record Node : Type := mkNode {
  ID : string;
  Avalanche : Consensus.Avalanche Payload;
  Peers : gmap string nat
}.

Definition with_Peers (f : gmap string nat → gmap string nat) (n : Node)
  : Node :=
  mkNode (ID n) (Avalanche n) (f (Peers n)).

(** [NewNode]: the heap with the new node, and the pointer to it. *)
Definition NewNode (h : list Node) (id : string)
    (params : Consensus.AvalancheParams) : list Node * nat :=
  (h ++ [mkNode id (Consensus.NewAvalanche Dag.NewDAG params) ∅], length h).

(** [n.AddPeer(peer)].  Both pointers come from [NewNode]; on a pointer
    that is not allocated, which the code cannot hold, nothing is done. *)
Definition AddPeer (h : list Node) (n peer : nat) : list Node :=
  match h !! n, h !! peer with
  | Some node, Some p =>
      if decide (ID node ≠ ID p)
      then alter (with_Peers (<[ID p := peer]>)) n h
      else h
  | _, _ => h
  end.

(** [n.RemovePeer(peerID)] *)
Definition RemovePeer (h : list Node) (n : nat) (peerID : string)
  : list Node :=
  alter (with_Peers (delete peerID)) n h.

Definition with_Avalanche
    (f : Consensus.Avalanche Payload → Consensus.Avalanche Payload)
    (n : Node) : Node :=
  mkNode (ID n) (f (Avalanche n)) (Peers n).

(** [n.ReceiveVertex(id, data, parentIDs)]: the result of [AddVertex] is
    dropped. *)
Definition ReceiveVertex (h : list Node) (n : nat) (id : string)
    (data : Payload) (parentIDs : list string) : list Node :=
  alter (with_Avalanche
           (λ a, (Consensus.AddVertex a id data parentIDs).1)) n h.

(** A call [p.ReceiveVertex(id, data, parentIDs)] handed to a goroutine.
    [AddVertex] holds the lock of the engine from its start to its end,
    so the calls made on one engine take effect one after the other, in
    an order that the code does not fix. *)
Record Delivery : Type := mkDelivery {
  receiver : nat;
  vertexID : string;
  vertexData : Payload;
  vertexParents : list string
}.

Definition deliver (h : list Node) (d : Delivery) : list Node :=
  ReceiveVertex h (receiver d) (vertexID d) (vertexData d) (vertexParents d).

(** [n.ProposeVertex(id, data, parentIDs)]: the heap, the result, and the
    goroutines started, one for each peer.  [None] stands for a pointer
    that is not allocated, which the code cannot hold. *)
Definition ProposeVertex (h : list Node) (n : nat) (id : string)
    (data : Payload) (parentIDs : list string)
  : option (list Node * (Dag.Vertex Payload + DAGError) * list Delivery) :=
  match h !! n with
  | None => None
  | Some node =>
      match Consensus.AddVertex (Avalanche node) id data parentIDs with
      | (a, inr err) =>
          Some (<[n := mkNode (ID node) a (Peers node)]> h, inr err, [])
      | (a, inl vertex) =>
          Some (<[n := mkNode (ID node) a (Peers node)]> h, inl vertex,
                (λ kv, mkDelivery kv.2 id data parentIDs)
                  <$> map_to_list (Peers node))
      end
  end.

(** The simulator: its map [Nodes], and the heap its nodes live in. *)
Record Simulator : Type := mkSimulator {
  Nodes : gmap string nat;
  heap : list Node
}.

Definition NewSimulator : Simulator := mkSimulator ∅ [].

Definition AddNode (s : Simulator) (id : string)
    (params : Consensus.AvalancheParams) : Simulator * nat :=
  let '(h, node) := NewNode (heap s) id params in
  (mkSimulator (<[id := node]> (Nodes s)) h, node).

(** The loop [for _, peer := range s.Nodes] of [ConnectNodes], for one
    [node]. *)
Definition connect_node (nodes : list (string * nat)) (h : list Node)
    (node : nat) : list Node :=
  foldl (λ h' '(_, peer),
           if decide (ID <$> h' !! node ≠ ID <$> h' !! peer)
           then AddPeer h' node peer else h')
        h nodes.

Definition ConnectNodes (s : Simulator) : Simulator :=
  let nodes := map_to_list (Nodes s) in
  mkSimulator (Nodes s)
    (foldl (λ h '(_, node), connect_node nodes h node) (heap s) nodes).

Definition DisconnectNode (s : Simulator) (id : string) : Simulator :=
  mkSimulator (delete id (Nodes s))
    (foldl (λ h '(_, node), RemovePeer h node id) (heap s)
           (map_to_list (Nodes s))).

(** [n.Start()]: a new channel, and a consensus loop on the engine of
    the node that listens to it. *)
Definition Start (r : Service.Runtime) (n : nat) : Service.Runtime * nat :=
  let stop := Service.made r in
  (Service.mkRuntime (S stop) (Service.closed r) (stop :: Service.loops r),
   stop).

(** [StartAll]: the runtime, and the map [stops]. *)
Definition StartAll (r : Service.Runtime) (s : Simulator)
  : Service.Runtime * gmap string nat :=
  foldl (λ '(r', stops) '(id, node),
           let '(r'', stop) := Start r' node in (r'', <[id := stop]> stops))
        (r, ∅) (map_to_list (Nodes s)).

(** [StopAll(stops)] *)
Definition StopAll (r : Service.Runtime) (stops : gmap string nat)
  : option Service.Runtime :=
  foldl (λ r' '(_, stop),
           match r' with
           | None => None
           | Some r'' => Service.close_chan r'' stop
           end)
        (Some r) (map_to_list stops).

(** [fmt.Sprintf("node-%d", i)] *)
Definition node_id (i : Z) : string := "node-" +:+ pretty i.

(** The first two steps of [RunSimulation]: the loop
    [for i := 0; i < numNodes; i++] that creates the nodes, and
    [ConnectNodes].  The rest of [RunSimulation] starts goroutines and
    waits; it is not modelled. *)
Definition create_nodes (s : Simulator) (numNodes : Z) : Simulator :=
  foldl (λ s' i, (AddNode s' (node_id i) Consensus.DefaultParams).1) s
        (seqZ 0 numNodes).

Definition create_and_connect (s : Simulator) (numNodes : Z) : Simulator :=
  ConnectNodes (create_nodes s numNodes).

(** *** Properties of a simulator *)

(** Every node of [Nodes] is allocated and stored under its own ID, and
    each of its peers is stored under the peer's ID, is not the node
    itself, and is the ID of a node of [Nodes]. *)
Definition sim_ok (s : Simulator) : Prop :=
  map_Forall (λ id n,
    match heap s !! n with
    | Some node =>
        ID node = id ∧
        map_Forall (λ pid p,
          pid ≠ id ∧ pid ∈ dom (Nodes s) ∧
          ID <$> heap s !! p = Some pid) (Peers node)
    | None => False
    end)
    (Nodes s).

(** Full mesh: the peers of every node are all the other nodes of
    [Nodes], each under its ID. *)
Definition full_mesh (s : Simulator) : Prop :=
  map_Forall (λ id n,
    match heap s !! n with
    | Some node => Peers node = delete id (Nodes s)
    | None => False
    end)
    (Nodes s).

#[global] Instance sim_ok_dec s : Decision (sim_ok s).
Proof.
  unfold sim_ok. apply map_Forall_dec. intros id n.
  destruct (heap s !! n); apply _.
Defined.

#[global] Instance full_mesh_dec s : Decision (full_mesh s).
Proof.
  unfold full_mesh. apply map_Forall_dec. intros id n.
  destruct (heap s !! n); apply _.
Defined.

Inductive op : Type :=
  | OpAddNode (id : string) (params : Consensus.AvalancheParams)
  | OpConnectNodes
  | OpDisconnectNode (id : string).

Definition exec (s : Simulator) (o : op) : Simulator :=
  match o with
  | OpAddNode id params => (AddNode s id params).1
  | OpConnectNodes => ConnectNodes s
  | OpDisconnectNode id => DisconnectNode s id
  end.

End network.

Arguments Node : clear implicits.
Arguments Delivery : clear implicits.
Arguments Simulator : clear implicits.

End Network.

(** ** Concrete states of the scenarios of the specification *)
Module Scenario.

Import Dag.

(** S3: vertices [a], [b], [c] with the edges a→b and b→c. *)
Definition s3_ops : list (Dag.op string) :=
  [OpAddVertex "a" "A"%string; OpAddVertex "b" "B"%string; OpAddEdge "a" "b";
   OpAddVertex "c" "C"%string; OpAddEdge "b" "c"].

Definition s3 : DAG string := foldl exec NewDAG s3_ops.

(** The DAG of S3 before its last edge b→c, and after the edge c→a that
    [AddEdge] accepts. *)
Definition s3_open : DAG string :=
  foldl exec NewDAG
    [OpAddVertex "a" "A"%string; OpAddVertex "b" "B"%string; OpAddEdge "a" "b";
     OpAddVertex "c" "C"%string].

Definition s3_cyclic : DAG string := (AddEdge s3 "c" "a").1.

(** A ranking of the vertices of S3 that every edge increases. *)
Definition s3_rank (k : string) : nat :=
  if decide (k = "a") then 0 else if decide (k = "b") then 1 else 2.

(** S2: the single vertex [vA]. *)
Definition s2 : DAG string := (AddVertex NewDAG "vA" "first"%string).1.

(** A constant random source. *)
Definition zeros : nat → Z := λ _, 0.

(** The parameters K = 2, α = 1, β_v = 3, β_r = 5, and the engines built
    with them: [two_new] is empty, [one] holds [a], [two] holds [a] and
    its child [b], as many vertices as K. *)
Definition two_params : Consensus.AvalancheParams :=
  Consensus.mkParams 2 1 3 5 4 10 1024 20 1000000000.

Definition two_new : Consensus.Avalanche string :=
  Consensus.NewAvalanche NewDAG two_params.

Definition one : Consensus.Avalanche string :=
  (Consensus.AddVertex two_new "a" "A"%string []).1.

Definition two : Consensus.Avalanche string :=
  (Consensus.AddVertex one "b" "B"%string ["a"%string]).1.

(** The engine [two] after three rounds on [a], each approved by [b],
    whose ancestor [a] is: [a] is finalized. *)
Definition two_finalized : Consensus.Avalanche string :=
  match Consensus.run zeros (two, 0%nat)
          [Consensus.OpProcessVertex "a"; Consensus.OpProcessVertex "a";
           Consensus.OpProcessVertex "a"] with
  | Some s => s.1
  | None => two
  end.

(** S4: [vX] and [vY] carry the same data. *)
Definition s4 : Consensus.Avalanche string :=
  let a1 := (Consensus.AddVertex two_new "vX" "T"%string []).1 in
  (Consensus.AddVertex a1 "vY" "T"%string []).1.

(** [vX] and [vY] carry the same JSON object, the payload that the
    handler stores for a request whose [data] field is an object. *)
Definition objects : Consensus.Avalanche Consensus.Json :=
  let payload := Consensus.JObject [("k"%string, Consensus.JString "T")] in
  let a0 := Consensus.NewAvalanche NewDAG two_params in
  let a1 := (Consensus.AddVertex a0 "vX" payload []).1 in
  (Consensus.AddVertex a1 "vY" payload []).1.

(** Ten vertices under the default parameters (K = 10, α = 8), each the
    child of the one before it; the payloads are ten different JSON
    objects. *)
Definition ledger_ids : list string :=
  ["t0"; "t1"; "t2"; "t3"; "t4"; "t5"; "t6"; "t7"; "t8"; "t9"]%string.

Definition ledger : Consensus.Avalanche Consensus.Json :=
  foldl (λ a '(id, parents),
           (Consensus.AddVertex a id
              (Consensus.JObject [("tx"%string, Consensus.JString id)])
              parents).1)
        (Consensus.NewAvalanche NewDAG Consensus.DefaultParams)
        [("t0", []); ("t1", ["t0"]); ("t2", ["t1"]); ("t3", ["t2"]);
         ("t4", ["t3"]); ("t5", ["t4"]); ("t6", ["t5"]); ("t7", ["t6"]);
         ("t8", ["t7"]); ("t9", ["t8"])]%string.

(** A history of the engine from its creation: [a] and its child [b] are
    submitted, three rounds on [a] finalize it, one full round follows. *)
Definition history : list (Consensus.op string) :=
  [Consensus.OpAddVertex "a" "A"%string [];
   Consensus.OpAddVertex "b" "B"%string ["a"%string];
   Consensus.OpProcessVertex "a"; Consensus.OpProcessVertex "a";
   Consensus.OpProcessVertex "a"; Consensus.OpConsensusRound].

Definition history_end : Consensus.Avalanche string * nat :=
  match Consensus.run zeros (two_new, 0%nat) history with
  | Some s => s
  | None => (two_new, 0%nat)
  end.

(** The engine [two] after one consensus round. *)
Definition two_round : Consensus.Avalanche string * nat :=
  match Consensus.consensusRound zeros two 0 with
  | Some s => s
  | None => (two, 0%nat)
  end.

(** The same vertices under parameters whose α = 3 exceeds K = 2, and the
    state after five rounds. *)
Definition starved : Consensus.Avalanche string :=
  let a0 := Consensus.NewAvalanche NewDAG
              (Consensus.mkParams 2 3 3 5 4 10 1024 20 1000000000) in
  let a1 := (Consensus.AddVertex a0 "a" "A"%string []).1 in
  (Consensus.AddVertex a1 "b" "B"%string ["a"%string]).1.

Definition starved_rounds : list (Consensus.op string) :=
  [Consensus.OpConsensusRound; Consensus.OpConsensusRound;
   Consensus.OpConsensusRound; Consensus.OpConsensusRound;
   Consensus.OpConsensusRound].

Definition starved_end : Consensus.Avalanche string * nat :=
  match Consensus.run zeros (starved, 0%nat) starved_rounds with
  | Some s => s
  | None => (starved, 0%nat)
  end.

(** The new engine on which [runSimulation] of [main.go] generates its
    vertices. *)
Definition sim_new : Consensus.Avalanche string :=
  Consensus.NewAvalanche NewDAG Consensus.DefaultParams.

(** The engine that the call [RunRandomVertices(100, 5)] of [runSimulation]
    leaves. *)
Definition sim_end : Consensus.Avalanche string :=
  match Simulation.RunRandomVertices sim_new 100 5 with
  | Some r => r.1
  | None => sim_new
  end.

(** A runtime in which one consensus loop already listens to channel 0,
    and a sequence of calls on a service created in it. *)
Definition busy : Service.Runtime := Service.mkRuntime 1 ∅ [0%nat].

Definition calls : list Service.op :=
  [Service.OpStop; Service.OpStart; Service.OpStart; Service.OpStop;
   Service.OpStart].

(** Simulators: [net_open] holds the nodes [x], [y] and [z], not
    connected; [net_mesh] is [net_open] connected; in [net_stale] the node
    [x] of [net_mesh] has been added again. *)
Definition net_open : Network.Simulator string :=
  foldl Network.exec Network.NewSimulator
    [Network.OpAddNode "x" two_params; Network.OpAddNode "y" two_params;
     Network.OpAddNode "z" two_params].

Definition net_mesh : Network.Simulator string :=
  Network.ConnectNodes net_open.

Definition net_stale : Network.Simulator string :=
  (Network.AddNode net_mesh "x" two_params).1.

(** The nodes [x] and [y] of [net_mesh], at the positions 0 and 1 of its
    heap. *)
Definition node_x : Network.Node string :=
  Network.mkNode "x" two_new {[ "y" := 1%nat; "z" := 2%nat ]}.

Definition node_y : Network.Node string :=
  Network.mkNode "y" two_new {[ "x" := 0%nat; "z" := 2%nat ]}.

(** In [net_mesh] the node [x] proposes [a] and then its child [b]; the
    heap and the deliveries started by each proposal. *)
Definition proposed_a
  : list (Network.Node string) * list (Network.Delivery string) :=
  match Network.ProposeVertex (Network.heap net_mesh) 0 "a" "A"%string [] with
  | Some (h, _, ds) => (h, ds)
  | None => (Network.heap net_mesh, [])
  end.

Definition proposed_b
  : list (Network.Node string) * list (Network.Delivery string) :=
  match Network.ProposeVertex proposed_a.1 0 "b" "B"%string ["a"%string] with
  | Some (h, _, ds) => (h, ds)
  | None => (proposed_a.1, [])
  end.

(** The deliveries of [a] made before those of [b], and after them. *)
Definition in_order : list (Network.Node string) :=
  foldl Network.deliver proposed_b.1 (proposed_a.2 ++ proposed_b.2).

Definition out_of_order : list (Network.Node string) :=
  foldl Network.deliver proposed_b.1 (proposed_b.2 ++ proposed_a.2).

End Scenario.

(** * Properties of the DAG store *)
Module DagSpec.

Import Dag.

Section dag_facts.

Context {Payload : Type}.

Implicit Types (d : DAG Payload) (v : Vertex Payload) (id k : string).

(** ** The [Finalized] flags under the operations of the store *)

Lemma flags_alter_Children d f k :
  Finalized <$> alter (with_Children f) k (vertices d) = flags d.
Proof.
  unfold flags. apply map_eq. intros i.
  rewrite !lookup_fmap, lookup_alter.
  case_decide; subst; [|done]. by destruct (vertices d !! i).
Qed.

Lemma fmap_Finalized_alter_Children (m : gmap string (Vertex Payload)) f k :
  Finalized <$> alter (with_Children f) k m = Finalized <$> m.
Proof. apply (flags_alter_Children (mkDAG m ∅)). Qed.

Lemma fmap_Finalized_alter_Parents (m : gmap string (Vertex Payload)) f k :
  Finalized <$> alter (with_Parents f) k m = Finalized <$> m.
Proof.
  apply map_eq. intros i. rewrite !lookup_fmap, lookup_alter.
  case_decide; subst; [|done]. by destruct (m !! i).
Qed.

Lemma flags_AddVertex d id data :
  flags (AddVertex d id data).1 =
  match vertices d !! id with
  | Some _ => flags d
  | None => <[id := false]> (flags d)
  end.
Proof.
  unfold AddVertex. destruct (vertices d !! id); [done|].
  unfold flags. simpl. by rewrite fmap_insert.
Qed.

Lemma AddEdge_error d parentID childID d' err :
  AddEdge d parentID childID = (d', Some err) → d' = d.
Proof.
  unfold AddEdge. intros H.
  repeat (case_match; simplify_eq); done.
Qed.

Lemma flags_AddEdge d parentID childID :
  flags (AddEdge d parentID childID).1 = flags d.
Proof.
  unfold AddEdge. repeat case_match; try done.
  unfold flags. simpl.
  by rewrite fmap_Finalized_alter_Parents, fmap_Finalized_alter_Children.
Qed.

Lemma fmap_Finalized_detach_parents id (l : list string)
    (m : gmap string (Vertex Payload)) :
  Finalized <$> foldl (detach_parent id) m l = Finalized <$> m.
Proof.
  revert m. induction l as [|p l IH]; intros m; [done|]. simpl.
  rewrite IH. apply fmap_Finalized_alter_Children.
Qed.

Lemma fmap_Finalized_detach_children id (l : list string)
    (st : gmap string (Vertex Payload) * gset string) :
  Finalized <$> (foldl (detach_child id) st l).1 = Finalized <$> st.1.
Proof.
  revert st. induction l as [|c l IH]; intros st; [done|]. simpl.
  rewrite IH. unfold detach_child.
  repeat case_match; simpl; apply fmap_Finalized_alter_Parents.
Qed.

Lemma flags_RemoveVertex d id :
  flags (RemoveVertex d id).1 = delete id (flags d).
Proof.
  unfold RemoveVertex, flags.
  destruct (vertices d !! id) as [v|] eqn:Hv; simpl.
  - rewrite fmap_delete, fmap_Finalized_detach_children. simpl.
    by rewrite fmap_Finalized_detach_parents.
  - symmetry. apply delete_id. by rewrite lookup_fmap, Hv.
Qed.

Lemma dom_flags d : dom (flags d) = dom (vertices d).
Proof. unfold flags. apply dom_fmap_L. Qed.

(** ** The cycle check *)

(** The search stops at once when it starts at the vertex it looks for. *)
Lemma wouldCreateCycle_self d id v :
  vertices d !! id = Some v → wouldCreateCycle d id id = true.
Proof.
  intros Hv. unfold wouldCreateCycle. rewrite Hv. simpl. rewrite Hv.
  by rewrite decide_True.
Qed.

(** C10. For every id present in the DAG, [AddEdge(id, id)] returns
    [ErrWouldCreateCycle] and the DAG is left as it was: same vertex table
    (so the same parents and children for every vertex) and same roots. *)
Theorem AddEdge_self_rejected d id v :
  vertices d !! id = Some v →
  AddEdge d id id = (d, Some ErrWouldCreateCycle).
Proof.
  intros Hv. unfold AddEdge. rewrite Hv.
  by rewrite (wouldCreateCycle_self d id v Hv).
Qed.

(** C7. For every DAG and every id already present in it, [AddVertex] with
    any data returns [ErrVertexAlreadyExists] and changes nothing: the DAG
    is the same value, so the vertex stored for the id (its data, parents
    and children), the vertex table and the roots are what they were. *)
Theorem AddVertex_duplicate_rejected d id v data' :
  vertices d !! id = Some v →
  (AddVertex d id data').2 = inr ErrVertexAlreadyExists ∧
  (AddVertex d id data').1 = d ∧
  vertices (AddVertex d id data').1 !! id = Some v ∧
  roots (AddVertex d id data').1 = roots d.
Proof.
  intros Hv. unfold AddVertex. rewrite Hv. by simpl.
Qed.

(** ** The search terminates within its fuel *)

Section search.

Variable vs : gmap string (Vertex Payload).
Variable name : string → Vertex Payload → string.
Variable target : string.

(** The [visited] map only grows. *)
Lemma dfs_range_visited rec ps :
  (∀ vis k b vis', rec vis k = Some (b, vis') → vis ⊆ vis') →
  ∀ vis b vis', dfs_range vs name rec ps vis = Some (b, vis') → vis ⊆ vis'.
Proof.
  intros Hrec. induction ps as [|p ps IH]; intros vis b vis'; simpl.
  { by intros [= _ <-]. }
  destruct (vs !! p) as [px|]; [|by apply IH].
  case_decide; [by apply IH|].
  destruct (rec vis p) as [[[] vis1]|] eqn:Hp; [| |done].
  - intros [= _ <-]. by eapply Hrec.
  - intros Hr. apply IH in Hr. apply Hrec in Hp. set_solver.
Qed.

Lemma dfs_visited fuel :
  ∀ vis k b vis', dfs vs name target fuel vis k = Some (b, vis') → vis ⊆ vis'.
Proof.
  induction fuel as [|fuel IH]; intros vis k b vis'; simpl; [done|].
  destruct (vs !! k) as [v|]; [|by intros [= _ <-]].
  case_decide; [by intros [= _ <-]|].
  intros Hr. apply (dfs_range_visited _ _ IH) in Hr. set_solver.
Qed.

(** The unvisited keys bound the depth of the search. *)
Lemma unvisited_mono vis vis' : vis ⊆ vis' → (unvisited vs vis' ≤ unvisited vs vis)%nat.
Proof. intros Hsub. apply subseteq_size. set_solver. Qed.

Lemma unvisited_mark vis k :
  k ∈ dom vs → k ∉ vis → (unvisited vs ({[k]} ∪ vis) < unvisited vs vis)%nat.
Proof. intros Hk Hv. apply subset_size. set_solver. Qed.

Lemma dfs_range_returns rec ps (bound : nat) :
  (∀ vis k b vis', rec vis k = Some (b, vis') → vis ⊆ vis') →
  (∀ vis k px, vs !! k = Some px → name k px ∉ vis →
               (unvisited vs vis ≤ bound)%nat → is_Some (rec vis k)) →
  ∀ vis, (unvisited vs vis ≤ bound)%nat →
         is_Some (dfs_range vs name rec ps vis).
Proof.
  intros Hmono Hrec. induction ps as [|p ps IH]; intros vis Hvis; simpl.
  { eauto. }
  destruct (vs !! p) as [px|] eqn:Hp; [|by apply IH].
  case_decide as Hseen; [by apply IH|].
  destruct (Hrec vis p px Hp Hseen Hvis) as [[[] vis1] Hr]; rewrite Hr.
  - eauto.
  - apply IH. apply Hmono in Hr. apply unvisited_mono in Hr. lia.
Qed.

Hypothesis vs_ids : map_Forall (λ k v, ID v = k) vs.
Hypothesis name_id : ∀ k v, vs !! k = Some v → name k v = ID v.

Lemma dfs_returns fuel : ∀ vis k,
  (1 ≤ fuel)%nat →
  (∀ v, vs !! k = Some v → (unvisited vs ({[ID v]} ∪ vis) < fuel)%nat) →
  is_Some (dfs vs name target fuel vis k).
Proof.
  induction fuel as [|fuel IH]; intros vis k Hfuel Hk; simpl; [lia|].
  destruct (vs !! k) as [v|] eqn:Hv; [|eauto].
  case_decide; [eauto|].
  apply (dfs_range_returns _ _ (unvisited vs ({[ID v]} ∪ vis))).
  - apply dfs_visited.
  - intros vis1 p px Hp Hseen Hbound.
    rewrite (name_id p px Hp) in Hseen.
    assert (unvisited vs ({[ID px]} ∪ vis1) < unvisited vs vis1)%nat as Hlt.
    { apply unvisited_mark; [|done].
      rewrite (vs_ids p px Hp). by apply elem_of_dom_2 in Hp. }
    specialize (Hk v eq_refl).
    apply IH; [lia|]. intros px' Hp'. simplify_eq. lia.
  - done.
Qed.

End search.

(** With the fuel given by [wouldCreateCycle] and [checkPreference] the
    search never runs out: the [None] branch of their [match] is dead. *)
Lemma dfs_fuel_enough d name target k :
  ids_ok d →
  (∀ k v, vertices d !! k = Some v → name k v = ID v) →
  is_Some (dfs (vertices d) name target (S (size (vertices d))) ∅ k).
Proof.
  intros Hids Hname. apply dfs_returns; [done|done|lia|].
  intros v Hv. unfold Dag.unvisited.
  assert (size (dom (vertices d) ∖ ({[ID v]} ∪ ∅))
          ≤ size (dom (vertices d)))%nat as Hle.
  { apply subseteq_size. set_solver. }
  rewrite size_dom in Hle. lia.
Qed.

Lemma dfs_fuel_enough_by_ID d target k :
  ids_ok d →
  is_Some (dfs (vertices d) by_ID target (S (size (vertices d))) ∅ k).
Proof. intros Hids. by apply dfs_fuel_enough. Qed.

Lemma dfs_fuel_enough_by_key d target k :
  ids_ok d →
  is_Some (dfs (vertices d) by_key target (S (size (vertices d))) ∅ k).
Proof.
  intros Hids. apply dfs_fuel_enough; [done|].
  intros k' v Hv. unfold by_key. symmetry. by apply Hids.
Qed.

(** ** What the search decides *)

Lemma ancestor_stored d q k : ancestor d q k → k ∈ dom (vertices d).
Proof. destruct 1; by eapply elem_of_dom_2. Qed.

Lemma ancestor_trans d q p k :
  ancestor d q p → ancestor d p k → ancestor d q k.
Proof.
  intros Hqp Hpk. induction Hpk as [k v p Hk Hp|k v p p' Hk Hp _ IH].
  - by eapply ancestor_step.
  - eapply ancestor_step; [done..|]. by apply IH.
Qed.

Section search_result.

Variable d : DAG Payload.
Variable name : string → Vertex Payload → string.
Variable target : string.
Hypothesis d_ids : ids_ok d.
Hypothesis name_id : ∀ k v, vertices d !! k = Some v → name k v = ID v.

(** An answer [true] comes with a chain of parents up to the target. *)
Lemma dfs_range_true rec ps :
  ∀ vis vis', dfs_range (vertices d) name rec ps vis = Some (true, vis') →
              ∃ p vis0 vis1, p ∈ ps ∧ rec vis0 p = Some (true, vis1).
Proof.
  induction ps as [|p ps IH]; intros vis vis'; simpl; [done|].
  assert (∀ vis0, dfs_range (vertices d) name rec ps vis0 = Some (true, vis') →
                  ∃ p0 vis0 vis1, p0 ∈ p :: ps ∧ rec vis0 p0 = Some (true, vis1))
    as Hrest.
  { intros vis0 H0. apply IH in H0 as (p0 & v0 & v1 & Hin & H0).
    exists p0, v0, v1. split; [by right|done]. }
  destruct (vertices d !! p) as [px|]; [|by apply Hrest].
  case_decide; [by apply Hrest|].
  destruct (rec vis p) as [[[] vis1]|] eqn:Hp; [| |done].
  - intros _. exists p, vis, vis1. split; [by left|done].
  - by apply Hrest.
Qed.

Lemma dfs_true fuel : ∀ vis k vis',
  dfs (vertices d) name target fuel vis k = Some (true, vis') →
  k = target ∨ ancestor d target k.
Proof.
  induction fuel as [|fuel IH]; intros vis k vis'; simpl; [done|].
  destruct (vertices d !! k) as [v|] eqn:Hv; [|done].
  case_decide as Ht.
  - intros _. left. by rewrite <- Ht, (d_ids k v Hv).
  - intros Hr. apply dfs_range_true in Hr as (p & vis0 & vis1 & Hin & Hp).
    apply elem_of_elements in Hin. right.
    apply IH in Hp as [->|Hp].
    + by eapply ancestor_parent.
    + by eapply ancestor_step.
Qed.

(** Two searches run one after the other explore what one search does. *)
Lemma explored_trans vis1 vis2 vis3 :
  explored d target vis1 vis2 → explored d target vis2 vis3 →
  explored d target vis1 vis3.
Proof.
  intros (Hs1 & Ht1 & Hc1) (Hs2 & Ht2 & Hc2). unfold explored. split_and!.
  - set_solver.
  - auto.
  - intros x v p Hx Hx1 Hv Hp Hdom.
    destruct (decide (x ∈ vis2)) as [Hx2|Hx2].
    + apply Hs2. by eapply Hc1.
    + by eapply Hc2.
Qed.

Lemma dfs_range_false rec ps :
  (∀ vis k vis', rec vis k = Some (false, vis') →
                 explored d target vis vis' ∧ (k ∈ dom (vertices d) → k ∈ vis')) →
  ∀ vis vis', dfs_range (vertices d) name rec ps vis = Some (false, vis') →
              explored d target vis vis' ∧
              ∀ p, p ∈ ps → p ∈ dom (vertices d) → p ∈ vis'.
Proof.
  intros Hrec. induction ps as [|p ps IH]; intros vis vis'; simpl.
  { intros [= <-]. split; [|by intros ? ?%elem_of_nil].
    unfold explored. split_and!; [done|done|]. by intros. }
  destruct (vertices d !! p) as [px|] eqn:Hp.
  2:{ intros Hr. apply IH in Hr as [He Hps]. split; [done|].
      intros p' [->|Hin]%elem_of_cons Hdom; [|by apply Hps].
      apply elem_of_dom in Hdom as [? Hdom]. congruence. }
  case_decide as Hseen.
  { intros Hr. apply IH in Hr as [He Hps]. split; [done|].
    intros p' [->|Hin]%elem_of_cons Hdom; [|by apply Hps].
    rewrite (name_id p px Hp), (d_ids p px Hp) in Hseen.
    destruct He as [Hsub _]. set_solver. }
  destruct (rec vis p) as [[[] vis1]|] eqn:Hcall; [done| |done].
  intros Hr. apply IH in Hr as [He Hps].
  apply Hrec in Hcall as [He1 Hp1]. split; [by eapply explored_trans|].
  intros p' [->|Hin]%elem_of_cons Hdom; [|by apply Hps].
  destruct He as [Hsub _]. set_solver.
Qed.

(** An answer [false] comes with a set of visited keys that holds the
    start, not the target, and the stored parents of its new members. *)
Lemma dfs_false fuel : ∀ vis k vis',
  dfs (vertices d) name target fuel vis k = Some (false, vis') →
  explored d target vis vis' ∧ (k ∈ dom (vertices d) → k ∈ vis').
Proof.
  induction fuel as [|fuel IH]; intros vis k vis'; simpl; [done|].
  destruct (vertices d !! k) as [v|] eqn:Hv.
  2:{ intros [= <-]. split.
      - unfold explored. split_and!; [done|done|]. by intros.
      - intros [? Hdom]%elem_of_dom. congruence. }
  case_decide as Ht; [done|].
  pose proof (d_ids k v Hv) as Hid. simpl in Hid. rewrite Hid in *.
  intros Hr. apply (dfs_range_false _ _ IH) in Hr as [(Hsub & Htgt & Hcl) Hps].
  split; [|set_solver]. unfold explored. split_and!.
  - set_solver.
  - intros Hin. apply Htgt in Hin. set_solver.
  - intros x w p Hx Hx' Hw Hp Hdom.
    destruct (decide (x = k)) as [->|Hxk].
    + simplify_eq. apply Hps; [|done]. by apply elem_of_elements.
    + apply (Hcl x w p); try done. set_solver.
Qed.

(** From the empty [visited] map, the search answers whether the target
    is the start or one of its ancestors. *)
Lemma dfs_decides fuel k b vis' :
  target ∈ dom (vertices d) → k ∈ dom (vertices d) →
  dfs (vertices d) name target fuel ∅ k = Some (b, vis') →
  b = true ↔ (k = target ∨ ancestor d target k).
Proof.
  intros Htarget Hk Hr. destruct b.
  - split; [intros _|done]. by eapply dfs_true.
  - split; [done|]. intros Hreach. exfalso.
    apply dfs_false in Hr as [(_ & Htgt & Hcl) Hstart].
    specialize (Hstart Hk).
    assert (target ∈ vis') as Hin; [|apply Htgt in Hin; set_solver].
    destruct Hreach as [<-|Hanc]; [done|].
    assert (∀ q x, ancestor d q x → x ∈ vis' → q ∈ dom (vertices d) →
                   q ∈ vis') as Hup; [|by eapply Hup].
    clear -Hcl.
    induction 1 as [x v p Hxv Hp|x v p q Hxv Hp Hq IH]; intros Hx Hdom.
    + eapply (Hcl x v p); try done.
    + apply IH; [|done]. eapply (Hcl x v p); try done.
      by eapply ancestor_stored.
Qed.

End search_result.

(** [wouldCreateCycle(parent, child)] holds exactly when the parent is the
    child or already an ancestor of the child. *)
Lemma wouldCreateCycle_decides d parent child :
  ids_ok d → parent ∈ dom (vertices d) → child ∈ dom (vertices d) →
  wouldCreateCycle d parent child = true ↔
  (child = parent ∨ ancestor d parent child).
Proof.
  intros Hids Hp Hc. unfold wouldCreateCycle.
  apply elem_of_dom in Hp as Hp'. destruct Hp' as [vp Hvp]. rewrite Hvp.
  rewrite (Hids parent vp Hvp).
  destruct (dfs_fuel_enough_by_ID d parent child Hids) as [[b vis'] Hr].
  rewrite Hr. by eapply (dfs_decides d by_ID parent Hids).
Qed.

(** [AddEdge] between stored vertices is rejected exactly when the parent
    is the child or already one of its ancestors. *)
Lemma AddEdge_decides d parentID childID :
  ids_ok d → parentID ∈ dom (vertices d) → childID ∈ dom (vertices d) →
  (AddEdge d parentID childID).2 = Some ErrWouldCreateCycle ↔
  (childID = parentID ∨ ancestor d parentID childID).
Proof.
  intros Hids Hp Hc.
  rewrite <- (wouldCreateCycle_decides d parentID childID Hids Hp Hc).
  unfold AddEdge.
  apply elem_of_dom in Hp as [vp ->]. apply elem_of_dom in Hc as [vc ->].
  by destruct (wouldCreateCycle d parentID childID).
Qed.

Lemma AddEdge_lookup d parentID childID k v :
  vertices d !! k = Some v →
  ∃ v', vertices (AddEdge d parentID childID).1 !! k = Some v' ∧
        Parents v ⊆ Parents v'.
Proof.
  intros Hk. unfold AddEdge.
  destruct (vertices d !! parentID) as [vp|]; [|eauto].
  destruct (vertices d !! childID) as [vc|]; [|eauto].
  destruct (wouldCreateCycle d parentID childID); [eauto|]. simpl.
  rewrite !lookup_alter.
  repeat case_decide; subst; rewrite ?Hk; simpl; eexists; (split; [done|]);
    destruct v; simpl; set_solver.
Qed.

Lemma ancestor_AddEdge d parentID childID q k :
  ancestor d q k → ancestor (AddEdge d parentID childID).1 q k.
Proof.
  induction 1 as [k v p Hk Hp|k v p q Hk Hp _ IH];
    destruct (AddEdge_lookup d parentID childID k v Hk) as (v' & Hk' & Hsub).
  - eapply ancestor_parent; [done|]. set_solver.
  - eapply ancestor_step; [done| |done]. set_solver.
Qed.

(** The defect behind C1, in general: in an acyclic DAG, the edge that
    closes a cycle (its child is an ancestor of its parent) is always
    accepted, and the child becomes its own ancestor. *)
Lemma AddEdge_accepts_cycle d parentID childID :
  ids_ok d → acyclic d → childID ∈ dom (vertices d) →
  ancestor d childID parentID →
  (AddEdge d parentID childID).2 = None ∧
  ancestor (AddEdge d parentID childID).1 childID childID.
Proof.
  intros Hids Hacyc Hc Hanc.
  pose proof (ancestor_stored d _ _ Hanc) as Hp.
  assert (wouldCreateCycle d parentID childID = false) as Hcheck.
  { destruct (wouldCreateCycle d parentID childID) eqn:Hw; [|done].
    apply (wouldCreateCycle_decides d _ _ Hids Hp Hc) in Hw as [->|Hw].
    - by destruct (Hacyc parentID).
    - destruct (Hacyc parentID). by eapply ancestor_trans. }
  pose proof (ancestor_AddEdge d parentID childID _ _ Hanc) as Hanc'.
  unfold AddEdge in *.
  apply elem_of_dom in Hp as [vp Hvp]. apply elem_of_dom in Hc as [vc Hvc].
  rewrite Hvp, Hvc, Hcheck in *. simpl in *. split; [done|].
  eapply ancestor_trans; [exact Hanc'|].
  assert (∃ v', alter (with_Parents (λ p, {[parentID]} ∪ p)) childID
                  (alter (with_Children (λ c, {[childID]} ∪ c)) parentID
                         (vertices d)) !! childID = Some v' ∧
                parentID ∈ Parents v') as (v' & Hv' & Hin).
  { rewrite lookup_alter_eq, lookup_alter.
    case_decide; subst; rewrite Hvc; simpl; eexists; (split; [done|]);
      simpl; set_solver. }
  by eapply ancestor_parent.
Qed.

(** ** Linking a fresh vertex, and undoing it *)

Lemma with_Children_compose (f g : gset string → gset string) v :
  with_Children f (with_Children g v) = with_Children (λ c, f (g c)) v.
Proof. by destruct v. Qed.

Lemma with_Children_id (f : gset string → gset string) v :
  f (Children v) = Children v → with_Children f v = v.
Proof. destruct v; unfold with_Children; simpl. by intros ->. Qed.

Lemma detach_parents_lookup id (l : list string)
    (m : gmap string (Vertex Payload)) k :
  foldl (detach_parent id) m l !! k =
  (if decide (k ∈ l) then with_Children (λ c, c ∖ {[id]}) else λ v, v)
    <$> m !! k.
Proof.
  revert m. induction l as [|p l IH]; intros m; simpl.
  { by destruct (m !! k). }
  rewrite IH. unfold detach_parent. rewrite lookup_alter.
  destruct (decide (p = k)) as [->|Hne].
  - rewrite (decide_True (P := k ∈ k :: l)) by set_solver.
    destruct (m !! k) as [v|]; simpl; [|by repeat case_decide].
    case_decide; [|done]. f_equal. rewrite with_Children_compose.
    destruct v; unfold with_Children; simpl. f_equal. set_solver.
  - destruct (decide (k ∈ l)).
    + by rewrite (decide_True (P := k ∈ p :: l)) by set_solver.
    + by rewrite (decide_False (P := k ∈ p :: l)) by set_solver.
Qed.

Lemma linked_AddVertex d id data :
  vertices d !! id = None → id ∉ roots d →
  AddVertex d id data
  = ((AddVertex d id data).1, inl (mkVertex id data ∅ ∅ false 0 false)) ∧
  linked d id data ∅ (AddVertex d id data).1.
Proof.
  intros Hid Hroot. unfold AddVertex. rewrite Hid. simpl.
  split; [done|]. unfold linked. simpl. split_and!.
  - by rewrite lookup_insert_eq.
  - intros k Hk. rewrite lookup_insert_ne by done.
    rewrite decide_False by set_solver. by destruct (vertices d !! k).
  - set_solver.
  - set_solver.
Qed.

Lemma linked_AddEdge d id data ps d' pid d'' :
  linked d id data ps d' →
  AddEdge d' pid id = (d'', None) →
  linked d id data ({[pid]} ∪ ps) d''.
Proof.
  intros (Hid & Hothers & Hroots & Hps) Hedge.
  assert (pid ≠ id) as Hne.
  { intros ->. unfold AddEdge in Hedge. rewrite Hid in Hedge.
    by rewrite (wouldCreateCycle_self d' id _ Hid) in Hedge. }
  unfold AddEdge in Hedge.
  destruct (vertices d' !! pid) as [vp|] eqn:Hpid; [|done].
  rewrite Hid in Hedge.
  destruct (wouldCreateCycle d' pid id); [done|].
  simplify_eq. unfold linked. simpl. split_and!.
  - rewrite lookup_alter, decide_True by done.
    rewrite lookup_alter, decide_False by done. by rewrite Hid.
  - intros k Hk. rewrite lookup_alter, decide_False by done.
    rewrite lookup_alter.
    destruct (decide (pid = k)) as [->|Hkp]; rewrite (Hothers k Hk).
    + rewrite (decide_True (P := k ∈ {[k]} ∪ ps)) by set_solver.
      destruct (vertices d !! k) as [v|]; simpl; [|by repeat case_decide].
      f_equal. case_decide; [|done].
      rewrite with_Children_compose.
      destruct v; unfold with_Children; simpl. f_equal. set_solver.
    + destruct (decide (k ∈ ps)).
      * by rewrite (decide_True (P := k ∈ {[pid]} ∪ ps)) by set_solver.
      * by rewrite (decide_False (P := k ∈ {[pid]} ∪ ps)) by set_solver.
  - set_solver.
  - set_solver.
Qed.

(** Removing the fresh vertex gives back the DAG one started from, when
    that DAG did not name [id] as a child of any vertex. *)
Lemma linked_RemoveVertex d id data ps d' :
  linked d id data ps d' →
  vertices d !! id = None →
  (∀ k v, vertices d !! k = Some v → id ∉ Children v) →
  RemoveVertex d' id = (d, None).
Proof.
  intros (Hid & Hothers & Hroots & Hps) Hfresh Hchild.
  unfold RemoveVertex. rewrite Hid. simpl.
  assert (foldl (detach_parent id) (vertices d') (elements ps) !! id
          = Some (mkVertex id data ps ∅ false 0 false)) as Hid'.
  { rewrite detach_parents_lookup, Hid.
    by rewrite decide_False by set_solver. }
  rewrite Hid'. simpl. rewrite elements_empty. simpl.
  rewrite Hroots. destruct d as [vs rs]. simpl in *. do 2 f_equal.
  apply map_eq. intros k. destruct (decide (k = id)) as [->|Hk].
  { by rewrite lookup_delete_eq. }
  rewrite lookup_delete_ne by done.
  rewrite detach_parents_lookup, (Hothers k Hk).
  destruct (vs !! k) as [v|] eqn:Hv; simpl; [|by repeat case_decide].
  f_equal. destruct (decide (k ∈ ps)).
  - rewrite decide_True by set_solver.
    rewrite with_Children_compose. apply with_Children_id.
    specialize (Hchild k v Hv). set_solver.
  - by rewrite decide_False by set_solver.
Qed.

(** ** Well-formedness of the table under the operations of the store *)

Lemma alter_lookup_Some (m : gmap string (Vertex Payload)) f k i v' :
  alter f k m !! i = Some v' →
  ∃ v, m !! i = Some v ∧ (v' = v ∨ v' = f v).
Proof.
  rewrite lookup_alter. case_decide; subst.
  - destruct (m !! i) as [v|]; simpl; [|done]. intros [= <-]. eauto.
  - eauto.
Qed.

Lemma dom_AddEdge d parentID childID :
  dom (vertices (AddEdge d parentID childID).1) = dom (vertices d).
Proof.
  unfold AddEdge. repeat case_match; try done. simpl.
  by rewrite !dom_alter_L.
Qed.

Lemma dom_AddVertex d id data :
  dom (vertices (AddVertex d id data).1) = {[id]} ∪ dom (vertices d).
Proof.
  unfold AddVertex. destruct (vertices d !! id) eqn:Hid; simpl.
  - apply elem_of_dom_2 in Hid. set_solver.
  - by rewrite dom_insert_L.
Qed.

Lemma ids_ok_NewDAG : ids_ok (NewDAG : DAG Payload).
Proof. unfold ids_ok, NewDAG. simpl. apply map_Forall_empty. Qed.

Lemma closed_NewDAG : closed (NewDAG : DAG Payload).
Proof.
  unfold closed, NewDAG. simpl. split; [done|]. apply map_Forall_empty.
Qed.

Lemma ids_ok_AddVertex d id data : ids_ok d → ids_ok (AddVertex d id data).1.
Proof.
  unfold ids_ok, AddVertex. intros Hd.
  destruct (vertices d !! id) eqn:Hid; simpl; [done|].
  by apply map_Forall_insert_2.
Qed.

Lemma ids_ok_AddEdge d parentID childID :
  ids_ok d → ids_ok (AddEdge d parentID childID).1.
Proof.
  unfold ids_ok, AddEdge. intros Hd.
  destruct (vertices d !! parentID) as [vp|]; [|done].
  destruct (vertices d !! childID) as [vc|]; [|done].
  destruct (wouldCreateCycle d parentID childID); [done|]. simpl.
  intros i v' Hi.
  apply alter_lookup_Some in Hi as (v1 & Hi & Hv').
  apply alter_lookup_Some in Hi as (v & Hi & Hv1).
  specialize (Hd i v Hi). simpl in Hd.
  destruct Hv' as [->| ->], Hv1 as [->| ->]; by destruct v.
Qed.

Lemma closed_AddVertex d id data : closed d → closed (AddVertex d id data).1.
Proof.
  unfold closed, AddVertex. intros [Hroots Hd].
  destruct (vertices d !! id) eqn:Hid; simpl; [done|].
  rewrite dom_insert_L. split; [set_solver|].
  apply map_Forall_insert_2; [set_solver|].
  intros i v Hi. specialize (Hd i v Hi). simpl in Hd. set_solver.
Qed.

Lemma closed_AddEdge d parentID childID :
  closed d → closed (AddEdge d parentID childID).1.
Proof.
  unfold closed. intros [Hroots Hd]. rewrite dom_AddEdge.
  unfold AddEdge.
  destruct (vertices d !! parentID) as [vp|] eqn:Hp; [|done].
  destruct (vertices d !! childID) as [vc|] eqn:Hc; [|done].
  destruct (wouldCreateCycle d parentID childID); [done|]. simpl.
  apply elem_of_dom_2 in Hp. apply elem_of_dom_2 in Hc.
  split; [set_solver|].
  intros i v' Hi.
  apply alter_lookup_Some in Hi as (v1 & Hi & Hv').
  apply alter_lookup_Some in Hi as (v & Hi & Hv1).
  specialize (Hd i v Hi). simpl in Hd.
  destruct Hv' as [->| ->], Hv1 as [->| ->]; destruct v; simpl in *;
    set_solver.
Qed.

Lemma no_self_edge_AddVertex d id data :
  no_self_edge d → no_self_edge (AddVertex d id data).1.
Proof.
  unfold no_self_edge, AddVertex. intros Hd.
  destruct (vertices d !! id) eqn:Hid; simpl; [done|].
  apply map_Forall_insert_2; [set_solver|done].
Qed.

Lemma no_self_edge_AddEdge d parentID childID :
  no_self_edge d → no_self_edge (AddEdge d parentID childID).1.
Proof.
  unfold no_self_edge, AddEdge. intros Hd.
  destruct (vertices d !! parentID) as [vp|] eqn:Hp; [|done].
  destruct (vertices d !! childID) as [vc|] eqn:Hc; [|done].
  destruct (wouldCreateCycle d parentID childID) eqn:Hw; [done|]. simpl.
  assert (parentID ≠ childID) as Hne.
  { intros ->. by rewrite (wouldCreateCycle_self d childID vc Hc) in Hw. }
  intros i v' Hi. simpl.
  rewrite lookup_alter in Hi. case_decide; subst.
  - rewrite lookup_alter_ne, Hc in Hi by done. simplify_eq/=.
    specialize (Hd i vc Hc). simpl in Hd. set_solver.
  - apply alter_lookup_Some in Hi as (v & Hi & Hv').
    specialize (Hd i v Hi). simpl in Hd.
    by destruct Hv' as [->| ->].
Qed.

Lemma wf_NewDAG : wf (NewDAG : DAG Payload).
Proof.
  split_and!; [apply ids_ok_NewDAG|apply closed_NewDAG|].
  unfold no_self_edge, NewDAG. simpl. apply map_Forall_empty.
Qed.

Lemma wf_AddVertex d id data : wf d → wf (AddVertex d id data).1.
Proof.
  intros (? & ? & ?). split_and!;
    [by apply ids_ok_AddVertex|by apply closed_AddVertex|
     by apply no_self_edge_AddVertex].
Qed.

Lemma wf_AddEdge d parentID childID :
  wf d → wf (AddEdge d parentID childID).1.
Proof.
  intros (? & ? & ?). split_and!;
    [by apply ids_ok_AddEdge|by apply closed_AddEdge|
     by apply no_self_edge_AddEdge].
Qed.

(** Every DAG built from [NewDAG] by [AddVertex] and [AddEdge] is
    well-formed. *)
Lemma wf_reachable (ops : list (op Payload)) : wf (foldl exec NewDAG ops).
Proof.
  assert (∀ d, wf d → wf (foldl exec d ops)) as H; [|apply H, wf_NewDAG].
  induction ops as [|o ops IH]; intros d Hd; simpl; [done|].
  apply IH. destruct o; simpl; [by apply wf_AddVertex|by apply wf_AddEdge].
Qed.

End dag_facts.

(** The scenario S2 of the specification: [vA] is submitted twice. *)
Lemma AddVertex_duplicate_rejected_S2 :
  (AddVertex Scenario.s2 "vA" "second"%string).2 = inr ErrVertexAlreadyExists ∧
  (AddVertex Scenario.s2 "vA" "second"%string).1 = Scenario.s2 ∧
  vertices (AddVertex Scenario.s2 "vA" "second"%string).1 !! "vA"
    = Some (mkVertex "vA" "first"%string ∅ ∅ false 0 false) ∧
  roots (AddVertex Scenario.s2 "vA" "second"%string).1 = roots Scenario.s2.
Proof.
  apply (AddVertex_duplicate_rejected Scenario.s2 "vA").
  vm_compute. reflexivity.
Defined.

(** A self-edge on the vertex [b] of the scenario S3. *)
Lemma AddEdge_self_rejected_S3 :
  AddEdge Scenario.s3 "b" "b" = (Scenario.s3, Some ErrWouldCreateCycle).
Proof.
  eapply AddEdge_self_rejected. vm_compute. reflexivity.
Defined.

(** A ranking of the vertices that every [Parents] step decreases rules
    out cycles. *)
Lemma ranked_acyclic {Payload : Type} (d : DAG Payload) (rank : string → nat) :
  (∀ k v p, vertices d !! k = Some v → p ∈ Parents v → (rank p < rank k)%nat) →
  acyclic d.
Proof.
  intros Hrank.
  assert (Hlt : ∀ p k, ancestor d p k → (rank p < rank k)%nat).
  { induction 1 as [k v p Hk Hp|k v p q Hk Hp _ IH].
    - eauto.
    - specialize (Hrank k v p Hk Hp). lia. }
  intros k Hk. apply Hlt in Hk. lia.
Qed.

(** The DAG of the scenario S3 is acyclic before the edge c→a is asked for. *)
Lemma S3_acyclic : acyclic Scenario.s3.
Proof.
  apply (ranked_acyclic _ Scenario.s3_rank).
  assert (H : map_Forall (λ k v, set_Forall
                                   (λ p, Scenario.s3_rank p
                                         < Scenario.s3_rank k)%nat
                                   (Parents v))
                         (vertices Scenario.s3)).
  { apply (bool_decide_unpack _). vm_compute. exact I. }
  intros k v p Hk Hp. exact (H k v Hk p Hp).
Qed.

(** C1, at the failing input.  In the scenario S3 (edges a→b and b→c) the
    call [AddEdge(c, a)] is accepted: it returns no error, and in the DAG
    it leaves, [a] is its own ancestor. *)
Theorem S3_AddEdge_c_a_accepted :
  (AddEdge Scenario.s3 "c" "a").2 = None ∧
  ancestor (AddEdge Scenario.s3 "c" "a").1 "a" "a" ∧
  ¬ acyclic (AddEdge Scenario.s3 "c" "a").1.
Proof.
  assert (Hcyc : ancestor (AddEdge Scenario.s3 "c" "a").1 "a" "a").
  { eapply (ancestor_step _ "a" _ "c"); [by vm_compute|by vm_compute|].
    eapply (ancestor_step _ "c" _ "b"); [by vm_compute|by vm_compute|].
    eapply (ancestor_parent _ "b"); by vm_compute. }
  split; [by vm_compute|]. split; [done|].
  intros Hac. exact (Hac "a" Hcyc).
Qed.

(** The search of [wouldCreateCycle] runs from the child towards its
    ancestors: in S3 it rejects the harmless edge a→c, whose child [c]
    already has [a] among its ancestors. *)
Lemma S3_AddEdge_a_c_rejected :
  AddEdge Scenario.s3 "a" "c" = (Scenario.s3, Some ErrWouldCreateCycle).
Proof. by vm_compute. Qed.

End DagSpec.

(** * Properties of the consensus engine *)
Module ConsensusSpec.

Import Dag Consensus DagSpec.

Section consensus_facts.

Context {Payload : Type} `{!GoData Payload}.
Variable oracle : nat → Z.

Implicit Types (a : Avalanche Payload) (d : DAG Payload)
               (v : Vertex Payload) (id k pid : string)
               (s : Avalanche Payload * nat) (o : Consensus.op Payload).

(** ** Linking the parents of a new vertex *)

(** What holds of a DAG and is kept by [AddEdge] holds after a successful
    linking loop. *)
Lemma link_parents_success (P : DAG Payload → Prop) id :
  (∀ d pid, P d → P (AddEdge d pid id).1) →
  ∀ parentIDs d, P d → (link_parents d id parentIDs).2 = None →
                 P (link_parents d id parentIDs).1.
Proof.
  intros Hstep. induction parentIDs as [|pid rest IH]; intros d Hd; simpl.
  { done. }
  specialize (Hstep d pid Hd).
  destruct (AddEdge d pid id) as [d' [err|]]; simpl in *; [done|].
  by apply IH.
Qed.

(** A failed linking loop leaves the DAG from before the insertion. *)
Lemma link_parents_rollback d0 id data parentIDs :
  vertices d0 !! id = None →
  (∀ k v, vertices d0 !! k = Some v → id ∉ Children v) →
  ∀ ps d err, linked d0 id data ps d →
              (link_parents d id parentIDs).2 = Some err →
              (link_parents d id parentIDs).1 = d0.
Proof.
  intros Hfresh Hchild.
  induction parentIDs as [|pid rest IH]; intros ps d err Hd; simpl.
  { done. }
  destruct (AddEdge d pid id) as [d' [e|]] eqn:Hedge; simpl.
  - intros _. apply AddEdge_error in Hedge as ->.
    by rewrite (linked_RemoveVertex d0 id data ps d Hd Hfresh Hchild).
  - apply (IH ({[pid]} ∪ ps)). by eapply linked_AddEdge.
Qed.

(** A parent id that is not stored, or the id of the new vertex itself,
    makes the linking loop fail. *)
Lemma link_parents_missing id parentIDs pid :
  pid ∈ parentIDs →
  ∀ d, vertices d !! pid = None ∨ pid = id →
       ∃ err, (link_parents d id parentIDs).2 = Some err.
Proof.
  intros Hin. induction parentIDs as [|p rest IH]; intros d Hbad.
  { by apply elem_of_nil in Hin. }
  simpl. destruct (AddEdge d p id) as [d' [e|]] eqn:Hedge; simpl; [eauto|].
  apply elem_of_cons in Hin as [->|Hin].
  - exfalso. unfold AddEdge in Hedge. destruct Hbad as [Hnone| ->].
    + by rewrite Hnone in Hedge.
    + destruct (vertices d !! id) as [v|] eqn:Hid; [|done].
      by rewrite (wouldCreateCycle_self d id v Hid) in Hedge.
  - apply IH; [done|]. destruct Hbad as [Hnone|?]; [left|by right].
    apply not_elem_of_dom. apply not_elem_of_dom in Hnone.
    by rewrite <- (dom_AddEdge d p id), Hedge in Hnone.
Qed.

(** Submitting an id that is already stored fails before anything is
    inserted, and the engine is left as it was. *)
Lemma AddVertex_duplicate a id data parentIDs :
  is_Some (vertices (dag a) !! id) →
  AddVertex a id data parentIDs = (a, inr ErrVertexAlreadyExists).
Proof.
  intros [v Hv]. unfold AddVertex, Dag.AddVertex. rewrite Hv.
  by destruct a.
Qed.

(** C2. [AddVertex] of the engine is atomic.  For a new id, when some
    parent id is missing from the DAG or the linking of a parent is
    rejected, the call returns the error and the engine is left exactly as
    it was: the vertex of the id is not stored ([GetVertex] answers
    [ErrVertexNotFound]), no vertex keeps the id among its children, and
    the id is not in [pending]. *)
Theorem AddVertex_atomic a id data parentIDs :
  closed (dag a) → state_ok a → vertices (dag a) !! id = None →
  ((∃ pid, pid ∈ parentIDs ∧ vertices (dag a) !! pid = None) ∨
   (link_parents (Dag.AddVertex (dag a) id data).1 id parentIDs).2 ≠ None) →
  ∃ err,
    (AddVertex a id data parentIDs).2 = inr err ∧
    (AddVertex a id data parentIDs).1 = a ∧
    GetVertex (dag (AddVertex a id data parentIDs).1) id
      = inr ErrVertexNotFound ∧
    (∀ k v, vertices (dag (AddVertex a id data parentIDs).1) !! k = Some v →
            id ∉ Children v) ∧
    pending (AddVertex a id data parentIDs).1 !! id = None.
Proof.
  intros [Hroots Hclosed] (Hdisj & Hpend & Hfin) Hfresh Hfail.
  assert (Hchild : ∀ k v, vertices (dag a) !! k = Some v → id ∉ Children v).
  { intros k v Hk Hin. apply not_elem_of_dom in Hfresh.
    destruct (Hclosed k v Hk) as [_ Hc]. set_solver. }
  assert (Hroot : id ∉ roots (dag a)).
  { apply not_elem_of_dom in Hfresh. set_solver. }
  destruct (linked_AddVertex (dag a) id data Hfresh Hroot) as [Hadd Hlinked].
  assert (∃ err, (link_parents (Dag.AddVertex (dag a) id data).1
                               id parentIDs).2 = Some err) as [err Herr].
  { destruct Hfail as [(pid & Hin & Hnone)|Hne].
    - apply (link_parents_missing id parentIDs pid Hin).
      destruct (decide (pid = id)) as [->|Hpid]; [by right|left].
      apply not_elem_of_dom. rewrite dom_AddVertex.
      apply not_elem_of_dom in Hnone. set_solver.
    - destruct (link_parents _ id parentIDs).2 as [e|]; [eauto|done]. }
  pose proof (link_parents_rollback (dag a) id data parentIDs Hfresh Hchild
                ∅ _ err Hlinked Herr) as Hback.
  exists err. unfold AddVertex. rewrite Hadd.
  destruct (link_parents (Dag.AddVertex (dag a) id data).1 id parentIDs)
    as [d2 [e|]] eqn:Hlink; simpl in *; [|done].
  simplify_eq. assert (mkAvalanche (dag a) (params a) (pending a) (finalized a)
                       = a) as -> by by destruct a.
  split_and!; try done.
  - unfold GetVertex. by rewrite Hfresh.
  - apply not_elem_of_dom. apply not_elem_of_dom in Hfresh. set_solver.
Qed.

(** ** The threshold of a vertex *)

Lemma elem_of_GetVertices d w :
  w ∈ GetVertices d ↔ ∃ k, vertices d !! k = Some w.
Proof.
  unfold GetVertices. rewrite list_elem_of_fmap. split.
  - intros ([k w'] & -> & Hin). apply elem_of_map_to_list in Hin. eauto.
  - intros [k Hk]. exists (k, w). by rewrite elem_of_map_to_list.
Qed.

Lemma length_GetVertices d :
  length (GetVertices d) = size (vertices d).
Proof. unfold GetVertices. by rewrite length_fmap, length_map_to_list. Qed.

(** A conflict and a panic exclude each other. *)
Lemma conflicts_comparable v w : conflicts v w → ¬ uncomparable v w.
Proof. intros [_ Hc] [_ Hu]. congruence. Qed.

(** What the loop of [getConfidenceThreshold] has met when it ends: no
    conflict and no panic when it answers [true], a conflict when it
    answers [false], a comparison that cannot be made when it panics. *)
Lemma is_virtuous_cases v (others : list (Vertex Payload)) :
  match is_virtuous v others with
  | Some true => ∀ w, w ∈ others → ¬ conflicts v w ∧ ¬ uncomparable v w
  | Some false => ∃ w, w ∈ others ∧ conflicts v w
  | None => ∃ w, w ∈ others ∧ uncomparable v w
  end.
Proof.
  induction others as [|other rest IH]; simpl.
  { intros w Hw. by apply elem_of_nil in Hw. }
  unfold areCompatible.
  case_bool_decide as Hid.
  - destruct (data_neq (Data v) (Data other)) as [[|]|] eqn:Hd.
    + destruct (is_virtuous v rest) as [[|]|].
      * intros w [->|Hw]%elem_of_cons; [|by apply IH].
        split; intros [_ Hw]; congruence.
      * destruct IH as (w & Hw & Hc). exists w. split; [by right|done].
      * destruct IH as (w & Hw & Hc). exists w. split; [by right|done].
    + exists other. split; [by left|done].
    + exists other. split; [by left|done].
  - destruct (is_virtuous v rest) as [[|]|].
    + intros w [->|Hw]%elem_of_cons; [|by apply IH].
      split; intros [Hne _]; by destruct Hne.
    + destruct IH as (w & Hw & Hc). exists w. split; [by right|done].
    + destruct IH as (w & Hw & Hc). exists w. split; [by right|done].
Qed.

(** The threshold of a stored vertex whose payload can be compared with
    the payload of every other stored vertex: [BetaVirtuous] when no vertex
    of the DAG conflicts with it and [BetaRogue] when some vertex does. *)
Lemma getConfidenceThreshold_comparable a id v :
  vertices (dag a) !! id = Some v →
  (∀ k w, vertices (dag a) !! k = Some w → ¬ uncomparable v w) →
  ((∀ k w, vertices (dag a) !! k = Some w → ¬ conflicts v w) →
   getConfidenceThreshold a id = Some (BetaVirtuous (params a))) ∧
  ((∃ k w, vertices (dag a) !! k = Some w ∧ conflicts v w) →
   getConfidenceThreshold a id = Some (BetaRogue (params a))).
Proof.
  intros Hv Hcmp. unfold getConfidenceThreshold, GetVertex. rewrite Hv.
  pose proof (is_virtuous_cases v (GetVertices (dag a))) as Hloop.
  destruct (is_virtuous v (GetVertices (dag a))) as [[|]|].
  - split; [done|]. intros (k & w & Hk & Hw).
    destruct (Hloop w) as [Hno _]; [|done].
    apply elem_of_GetVertices. eauto.
  - split; [|done]. intros Hno.
    destruct Hloop as (w & [k Hk]%elem_of_GetVertices & Hw).
    by destruct (Hno k w Hk).
  - destruct Hloop as (w & [k Hk]%elem_of_GetVertices & Hw).
    by destruct (Hcmp k w Hk).
Qed.

(** The threshold of a stored vertex whose payload cannot be compared
    with the payload of some other stored vertex: the call panics, unless
    it meets a conflict first and answers [BetaRogue]; which of the two
    depends on the order in which the vertices are visited when there is
    a conflict too, and it panics when there is none. *)
Lemma getConfidenceThreshold_uncomparable a id v :
  vertices (dag a) !! id = Some v →
  (∃ k w, vertices (dag a) !! k = Some w ∧ uncomparable v w) →
  (getConfidenceThreshold a id = None ∨
   getConfidenceThreshold a id = Some (BetaRogue (params a))) ∧
  ((∀ k w, vertices (dag a) !! k = Some w → ¬ conflicts v w) →
   getConfidenceThreshold a id = None).
Proof.
  intros Hv (k & w & Hk & Hw).
  unfold getConfidenceThreshold, GetVertex. rewrite Hv.
  pose proof (is_virtuous_cases v (GetVertices (dag a))) as Hloop.
  destruct (is_virtuous v (GetVertices (dag a))) as [[|]|].
  - destruct (Hloop w) as [_ Hno]; [|done].
    apply elem_of_GetVertices. eauto.
  - split; [by right|]. intros Hno.
    destruct Hloop as (w' & [k' Hk']%elem_of_GetVertices & Hw').
    by destruct (Hno k' w' Hk').
  - split; [by left|done].
Qed.

(** A call that panics has met two payloads that cannot be compared. *)
Lemma getConfidenceThreshold_None a id :
  getConfidenceThreshold a id = None →
  ∃ x y : Payload, data_neq x y = None.
Proof.
  unfold getConfidenceThreshold.
  destruct (GetVertex (dag a) id) as [v|]; [|done].
  pose proof (is_virtuous_cases v (GetVertices (dag a))) as Hloop.
  destruct (is_virtuous v (GetVertices (dag a))) as [[|]|]; [done..|].
  intros _. destruct Hloop as (w & _ & _ & Hw). eauto.
Qed.

(** ** The sampler *)

Lemma swap_Permutation i j (l : list string) : swap i j l ≡ₚ l.
Proof.
  unfold swap.
  destruct (l !! i) as [x|] eqn:Hi; [|done].
  destruct (l !! j) as [y|] eqn:Hj; [|done].
  apply Permutation_inj. split; [by rewrite !length_insert|].
  exists (λ n, if decide (n = i) then j else if decide (n = j) then i else n).
  split.
  - intros n m. repeat case_decide; congruence.
  - intros n. rewrite !list_lookup_insert, !length_insert.
    apply lookup_lt_Some in Hi as Hi'. apply lookup_lt_Some in Hj as Hj'.
    repeat case_decide; destruct_and?; subst; try congruence; try lia;
      naive_solver.
Qed.

Lemma shuffle_Permutation i : ∀ (l : list string) pos,
  (shuffle oracle i l pos).1 ≡ₚ l.
Proof.
  induction i as [|i IH]; intros l pos; simpl; [done|].
  rewrite IH. apply swap_Permutation.
Qed.

Lemma ids_of_GetVertices d :
  ids_ok d → ID <$> GetVertices d = (map_to_list (vertices d)).*1.
Proof.
  intros Hids. unfold GetVertices. rewrite <- list_fmap_compose.
  apply list_fmap_ext. intros i [k v] Hi. simpl.
  apply list_elem_of_lookup_2, elem_of_map_to_list in Hi. by apply Hids in Hi.
Qed.

Lemma candidates_NoDup a id vertex :
  ids_ok (dag a) → NoDup (candidates_of a id vertex).
Proof.
  intros Hids. unfold candidates_of. apply NoDup_app. split_and!.
  - apply NoDup_elements.
  - intros x Hx Hx'. apply elem_of_elements in Hx.
    apply list_elem_of_fmap in Hx' as (w & -> & Hw).
    apply list_elem_of_filter in Hw as [[_ Hnot] _]. done.
  - apply (sublist_NoDup _ (ID <$> GetVertices (dag a))).
    + rewrite (ids_of_GetVertices _ Hids). apply NoDup_fst_map_to_list.
    + apply fmap_sublist, sublist_filter.
Qed.

Lemma candidates_stored a id vertex x :
  ids_ok (dag a) → closed (dag a) → vertices (dag a) !! id = Some vertex →
  x ∈ candidates_of a id vertex → x ∈ (map_to_list (vertices (dag a))).*1.
Proof.
  intros Hids [_ Hclosed] Hv. unfold candidates_of.
  rewrite elem_of_app, elem_of_elements.
  intros [Hx|Hx].
  - destruct (Hclosed id vertex Hv) as [Hp _].
    apply Hp, elem_of_dom in Hx as [w Hw].
    apply list_elem_of_fmap. exists (x, w). by rewrite elem_of_map_to_list.
  - rewrite <- (ids_of_GetVertices _ Hids).
    apply list_elem_of_fmap in Hx as (w & -> & Hw).
    apply list_elem_of_filter in Hw as [_ Hw].
    by apply list_elem_of_fmap_2.
Qed.

Lemma candidates_length a id vertex :
  ids_ok (dag a) → closed (dag a) → vertices (dag a) !! id = Some vertex →
  (length (candidates_of a id vertex) ≤ size (vertices (dag a)))%nat.
Proof.
  intros Hids Hclosed Hv.
  rewrite <- length_map_to_list, <- (length_fmap fst).
  apply submseteq_length, NoDup_submseteq; [by apply candidates_NoDup|].
  intros x. by apply candidates_stored.
Qed.

(** In a well-formed DAG the candidates are all the stored ids but the
    target: one fewer than the vertices. *)
Lemma candidates_length_exact a id vertex :
  wf (dag a) → vertices (dag a) !! id = Some vertex →
  length (candidates_of a id vertex) = (size (vertices (dag a)) - 1)%nat.
Proof.
  intros (Hids & [_ Hclosed] & Hself) Hv.
  assert (candidates_of a id vertex
          ≡ₚ elements (dom (vertices (dag a)) ∖ {[id]})) as Hperm.
  { apply NoDup_Permutation;
      [by apply candidates_NoDup|apply NoDup_elements|].
    intros x. rewrite elem_of_elements, elem_of_difference, elem_of_singleton.
    unfold candidates_of. rewrite elem_of_app, elem_of_elements,
      list_elem_of_fmap.
    destruct (Hclosed id vertex Hv) as [Hp _].
    specialize (Hself id vertex Hv). simpl in Hself.
    split.
    - intros [Hx|(w & -> & Hw)].
      + split; [by apply Hp|]. by intros ->.
      + apply list_elem_of_filter in Hw as [[Hne _] Hw].
        apply elem_of_GetVertices in Hw as [k Hk].
        rewrite (Hids k w Hk) in *. split; [by eapply elem_of_dom_2|done].
    - intros [[w Hw]%elem_of_dom Hne].
      destruct (decide (x ∈ Parents vertex)) as [Hx|Hx]; [by left|right].
      pose proof (Hids x w Hw) as Hid. simpl in Hid.
      exists w. split; [done|]. apply list_elem_of_filter.
      rewrite Hid. split; [done|]. apply elem_of_GetVertices. eauto. }
  rewrite (Permutation_length Hperm).
  change (length (elements (dom (vertices (dag a)) ∖ {[id]})))
    with (size (dom (vertices (dag a)) ∖ {[id]})).
  rewrite size_difference, size_singleton, size_dom; [done|].
  apply elem_of_dom_2 in Hv. set_solver.
Qed.

(** C4, as the code has it.  For a target stored in a well-formed DAG and
    K > 0: with fewer than K vertices in the DAG the sampler returns the
    empty sequence; with at least K candidates it returns exactly K
    distinct ids, all of them candidates; with at least K vertices but
    fewer than K candidates it returns all the candidates, which are K - 1
    ids. *)
Theorem getSamples_spec a pos id vertex (k : Z) :
  wf (dag a) → vertices (dag a) !! id = Some vertex → 0 < k →
  (Z.of_nat (size (vertices (dag a))) < k →
   getSamples oracle a pos id k = Some ([], pos)) ∧
  (k ≤ Z.of_nat (length (candidates_of a id vertex)) →
   ∃ samples pos',
     getSamples oracle a pos id k = Some (samples, pos') ∧
     Z.of_nat (length samples) = k ∧ NoDup samples ∧
     samples ⊆ candidates_of a id vertex) ∧
  (k ≤ Z.of_nat (size (vertices (dag a))) →
   Z.of_nat (length (candidates_of a id vertex)) < k →
   getSamples oracle a pos id k = Some (candidates_of a id vertex, pos) ∧
   Z.of_nat (length (candidates_of a id vertex)) = k - 1).
Proof.
  intros Hwf Hv Hk. pose proof Hwf as (Hids & Hclosed & _).
  pose proof (candidates_length a id vertex Hids Hclosed Hv) as Hlen.
  pose proof (candidates_length_exact a id vertex Hwf Hv) as Hexact.
  pose proof (candidates_NoDup a id vertex Hids) as Hnd.
  unfold getSamples, GetVertex. rewrite length_GetVertices, Hv.
  split_and!.
  - intros Hn. by rewrite decide_True.
  - intros Hc. rewrite decide_False by lia.
    destruct (decide (Z.of_nat (length (candidates_of a id vertex)) ≤ k)).
    + eexists _, _. split; [done|]. split_and!; [lia|done|done].
    + destruct (shuffle oracle _ _ pos) as [samples pos'] eqn:Hsh.
      rewrite decide_False by lia.
      pose proof (shuffle_Permutation
                    (length (candidates_of a id vertex) - 1)
                    (candidates_of a id vertex) pos) as Hperm.
      rewrite Hsh in Hperm. simpl in Hperm.
      eexists _, _. split; [done|]. split_and!.
      * rewrite length_take_le; [lia|].
        rewrite (Permutation_length Hperm). lia.
      * eapply sublist_NoDup; [|apply sublist_take]. by rewrite Hperm.
      * intros x Hx. rewrite <- Hperm.
        by apply (subseteq_take (Z.to_nat k)).
  - intros Hn Hc. rewrite decide_False by lia.
    rewrite decide_True by lia. split; [done|lia].
Qed.

(** ** One vertex in one round *)

Lemma int_add_exact x y :
  min_int ≤ x + y ≤ max_int → int_add x y = x + y.
Proof.
  unfold int_add, int_wrap, min_int, max_int. intros H.
  rewrite Z.mod_small; lia.
Qed.

(** A non-empty sample is only given for a stored vertex. *)
Lemma getSamples_stored a pos id (k : Z) samples pos1 :
  getSamples oracle a pos id k = Some (samples, pos1) → samples ≠ [] →
  is_Some (vertices (dag a) !! id).
Proof.
  unfold getSamples, GetVertex. intros H Hne.
  destruct (decide _); [by simplify_eq|].
  destruct (vertices (dag a) !! id); [eauto|by simplify_eq].
Qed.

(** C5, as the code has it.  When the sampler returns no id at all,
    [processVertex] skips the vertex: the engine, and so the counter of the
    vertex, is left as it was. *)
Theorem processVertex_skips_empty_sample a pos id pos1 :
  getSamples oracle a pos id (K (params a)) = Some ([], pos1) →
  ∃ pos', processVertex oracle a pos id = Some (a, pos').
Proof.
  intros Hs. unfold processVertex. case_decide; [eauto|].
  rewrite Hs. simpl. eauto.
Qed.


(** ** What the operations of the engine change *)

Lemma flags_link_parents id parentIDs : ∀ d,
  flags (link_parents d id parentIDs).1 =
  match (link_parents d id parentIDs).2 with
  | None => flags d
  | Some _ => delete id (flags d)
  end.
Proof.
  induction parentIDs as [|pid rest IH]; intros d; simpl; [done|].
  destruct (AddEdge d pid id) as [d' [e|]] eqn:Hedge; simpl.
  - apply AddEdge_error in Hedge as ->. apply flags_RemoveVertex.
  - rewrite IH. by rewrite <- (flags_AddEdge d pid id), Hedge.
Qed.

Lemma AddVertex_effect a id data parentIDs :
  params (AddVertex a id data parentIDs).1 = params a ∧
  finalized (AddVertex a id data parentIDs).1 = finalized a ∧
  ((∃ err, (AddVertex a id data parentIDs).2 = inr err ∧
           flags (dag (AddVertex a id data parentIDs).1) = flags (dag a) ∧
           pending (AddVertex a id data parentIDs).1 = pending a) ∨
   (∃ v, (AddVertex a id data parentIDs).2 = inl v ∧
         vertices (dag a) !! id = None ∧
         flags (dag (AddVertex a id data parentIDs).1)
           = <[id := false]> (flags (dag a)) ∧
         pending (AddVertex a id data parentIDs).1
           = <[id := 0]> (pending a))).
Proof.
  unfold AddVertex.
  pose proof (flags_AddVertex (dag a) id data) as Hfl.
  unfold Dag.AddVertex in *.
  destruct (vertices (dag a) !! id) as [v0|] eqn:Hid; simpl in *.
  { split_and!; [done..|]. left. eauto. }
  pose proof (flags_link_parents id parentIDs
                (mkDAG (<[id := mkVertex id data ∅ ∅ false 0 false]>
                          (vertices (dag a))) ({[id]} ∪ roots (dag a))))
    as Hlink.
  destruct (link_parents _ id parentIDs) as [d2 [e|]]; simpl in *.
  - split_and!; [done..|]. left. exists e. split_and!; [done| |done].
    rewrite Hlink, Hfl. apply delete_insert_id.
    unfold flags. by rewrite lookup_fmap, Hid.
  - split_and!; [done..|]. right. eexists. split_and!; [done..| |done].
    by rewrite Hlink, Hfl.
Qed.

Lemma AddVertex_wf a id data parentIDs :
  wf (dag a) → wf (dag (AddVertex a id data parentIDs).1).
Proof.
  intros Hwf. pose proof Hwf as (Hids & Hclosed & Hself). unfold AddVertex.
  destruct (vertices (dag a) !! id) as [v0|] eqn:Hid.
  { unfold Dag.AddVertex. by rewrite Hid. }
  assert (Hchild : ∀ k v, vertices (dag a) !! k = Some v → id ∉ Children v).
  { intros k v Hk Hin. apply not_elem_of_dom in Hid.
    destruct Hclosed as [_ Hc]. destruct (Hc k v Hk) as [_ Hc']. set_solver. }
  assert (Hroot : id ∉ roots (dag a)).
  { apply not_elem_of_dom in Hid. destruct Hclosed. set_solver. }
  destruct (linked_AddVertex (dag a) id data Hid Hroot) as [Hadd Hlinked].
  rewrite Hadd.
  destruct (link_parents (Dag.AddVertex (dag a) id data).1 id parentIDs)
    as [d2 [e|]] eqn:Hlink; simpl.
  - pose proof (link_parents_rollback (dag a) id data parentIDs Hid Hchild
                  ∅ _ e Hlinked) as Hback.
    rewrite Hlink in Hback. simpl in Hback. by rewrite Hback.
  - replace d2 with
      (link_parents (Dag.AddVertex (dag a) id data).1 id parentIDs).1
      by by rewrite Hlink.
    apply (link_parents_success wf id).
    + intros d pid ?. by apply wf_AddEdge.
    + by apply wf_AddVertex.
    + by rewrite Hlink.
Qed.

Lemma flags_mark_finalized d id :
  flags (mark_finalized d id) = alter (λ _, true) id (flags d).
Proof.
  unfold mark_finalized, GetVertex, flags.
  destruct (vertices d !! id) as [v|] eqn:Hv; simpl.
  - by apply fmap_alter.
  - apply map_eq. intros k. rewrite lookup_alter.
    case_decide; subst; [|done]. by rewrite lookup_fmap, Hv.
Qed.

Lemma dom_mark_finalized d id :
  dom (vertices (mark_finalized d id)) = dom (vertices d).
Proof.
  unfold mark_finalized, GetVertex.
  destruct (vertices d !! id); simpl; [|done]. by rewrite dom_alter_L.
Qed.

Lemma wf_mark_finalized d id : wf d → wf (mark_finalized d id).
Proof.
  intros (Hids & [Hroots Hclosed] & Hself).
  unfold wf, closed, ids_ok, no_self_edge.
  rewrite dom_mark_finalized.
  unfold mark_finalized, GetVertex.
  destruct (vertices d !! id) as [v0|]; simpl; [|done].
  split_and!; [|done| |].
  - intros i v' Hi. apply alter_lookup_Some in Hi as (v & Hi & Hv').
    specialize (Hids i v Hi). simpl in Hids.
    by destruct Hv' as [->| ->].
  - intros i v' Hi. apply alter_lookup_Some in Hi as (v & Hi & Hv').
    specialize (Hclosed i v Hi). simpl in Hclosed.
    by destruct Hv' as [->| ->].
  - intros i v' Hi. apply alter_lookup_Some in Hi as (v & Hi & Hv').
    specialize (Hself i v Hi). simpl in Hself.
    by destruct Hv' as [->| ->].
Qed.

(** [processVertex] does not return in two cases only: the panic of the
    slice expression, for a negative [K], and the panic of a comparison,
    for two payloads that cannot be compared. *)
Lemma processVertex_None a pos id :
  processVertex oracle a pos id = None →
  K (params a) < 0 ∨ ∃ x y : Payload, data_neq x y = None.
Proof.
  unfold processVertex. case_decide; [done|].
  destruct (getSamples oracle a pos id (K (params a)))
    as [[samples pos1]|] eqn:Hs.
  - case_decide; [done|].
    destruct (count_preferences oracle a id samples 0 pos1) as [n pos2].
    case_decide; [|done].
    destruct (getConfidenceThreshold a id) as [t|] eqn:Ht.
    + by case_decide.
    + intros _. right. by eapply getConfidenceThreshold_None.
  - intros _. left. unfold getSamples in Hs.
    repeat (case_match; simplify_eq; try done).
Qed.

Lemma processVertex_effect a pos id a' pos' :
  processVertex oracle a pos id = Some (a', pos') →
  params a' = params a ∧
  (a' = a ∨
   ((id ∉ finalized a) ∧ is_Some (vertices (dag a) !! id) ∧
    ((dag a' = dag a ∧ finalized a' = finalized a ∧
      ∃ c', pending a' = <[id := c']> (pending a) ∧
            (c' = 0 ∨ (c' = int_add (default 0 (pending a !! id)) 1 ∧
                       ∃ t, getConfidenceThreshold a id = Some t ∧
                            c' < t))) ∨
     (dag a' = mark_finalized (dag a) id ∧
      finalized a' = {[id]} ∪ finalized a ∧
      pending a' = delete id (pending a))))).
Proof.
  unfold processVertex. case_decide as Hfin; [intros [= <- <-]; auto|].
  destruct (getSamples oracle a pos id (K (params a)))
    as [[samples pos1]|] eqn:Hs; [|done].
  case_decide as Hlen; [intros [= <- <-]; auto|].
  assert (samples ≠ []) as Hne by (by destruct samples).
  pose proof (getSamples_stored a pos id _ samples pos1 Hs Hne) as Hstored.
  destruct (count_preferences oracle a id samples 0 pos1) as [n pos2].
  destruct (getConfidenceThreshold a id) as [t|] eqn:Ht;
    repeat case_decide; try done; intros [= <- <-]; simpl;
    (split; [done|]); right; (split; [done|]); (split; [done|]).
  - right. by rewrite delete_insert_eq.
  - left. split_and!; [done..|]. eexists. split; [done|]. right.
    split; [done|]. exists t. split; [done|lia].
  - left. split_and!; [done..|]. eexists. split; [done|]. by left.
  - left. split_and!; [done..|]. eexists. split; [done|]. by left.
Qed.

(** ** Sequences of operations *)

Section preservation.

Variable I : Avalanche Payload → Prop.
Hypothesis I_AddVertex :
  ∀ a id data parentIDs, I a → I (AddVertex a id data parentIDs).1.
Hypothesis I_processVertex :
  ∀ a pos id a' pos',
    I a → processVertex oracle a pos id = Some (a', pos') → I a'.

Lemma process_all_preserves ids : ∀ a pos a' pos',
  I a → process_all oracle a pos ids = Some (a', pos') → I a'.
Proof.
  induction ids as [|id ids IH]; intros a pos a' pos' Ha; simpl.
  { by intros [= <- <-]. }
  destruct (processVertex oracle a pos id) as [[a1 pos1]|] eqn:Hp; [|done].
  apply IH. by eapply I_processVertex.
Qed.

Lemma exec_preserves s o s' :
  I s.1 → exec oracle s o = Some s' → I s'.1.
Proof.
  destruct s as [a pos], s' as [a' pos'], o as [id data parentIDs|id|];
    simpl; intros Ha.
  - intros [= <- <-]. by apply I_AddVertex.
  - by apply I_processVertex.
  - by apply process_all_preserves.
Qed.

Lemma run_preserves ops : ∀ s s',
  I s.1 → run oracle s ops = Some s' → I s'.1.
Proof.
  induction ops as [|o ops IH]; intros s s' Hs; simpl.
  { by intros [= <-]. }
  destruct (exec oracle s o) as [s1|] eqn:Hexec; [|done].
  apply IH. by eapply exec_preserves.
Qed.

End preservation.

Lemma params_AddVertex a id data parentIDs :
  params (AddVertex a id data parentIDs).1 = params a.
Proof. apply AddVertex_effect. Qed.

Lemma params_processVertex a pos id a' pos' :
  processVertex oracle a pos id = Some (a', pos') → params a' = params a.
Proof. intros H. by apply processVertex_effect in H as [? _]. Qed.

Lemma process_all_None ids : ∀ a pos,
  process_all oracle a pos ids = None →
  K (params a) < 0 ∨ ∃ x y : Payload, data_neq x y = None.
Proof.
  induction ids as [|id ids IH]; intros a pos; simpl; [done|].
  destruct (processVertex oracle a pos id) as [[a1 pos1]|] eqn:Hp.
  - intros H. apply IH in H. by rewrite (params_processVertex _ _ _ _ _ Hp) in H.
  - intros _. by eapply processVertex_None.
Qed.

Lemma exec_None s o :
  exec oracle s o = None →
  K (params s.1) < 0 ∨ ∃ x y : Payload, data_neq x y = None.
Proof.
  destruct s as [a pos], o as [id data parentIDs|id|]; simpl; [done| |].
  - apply processVertex_None.
  - apply process_all_None.
Qed.

(** A sequence of operations stops early only by a panic: of the slice
    expression, for a negative [K], or of the comparison of two payloads
    that cannot be compared. *)
Lemma run_None ops : ∀ s,
  run oracle s ops = None →
  K (params s.1) < 0 ∨ ∃ x y : Payload, data_neq x y = None.
Proof.
  induction ops as [|o ops IH]; intros s; simpl; [done|].
  destruct (exec oracle s o) as [s1|] eqn:Hexec.
  - intros H. apply IH in H.
    assert (params s1.1 = params s.1) as Hp; [|by rewrite Hp in H].
    refine (exec_preserves (λ a, params a = params s.1) _ _ s o s1
              eq_refl Hexec).
    + intros a id data parentIDs <-. apply params_AddVertex.
    + intros a pos id a' pos' <-. apply params_processVertex.
  - intros _. by apply (exec_None s o).
Qed.

(** With payloads of a type whose values can all be compared, as strings
    can, the negative [K] is the only panic. *)
Lemma run_None_comparable ops s :
  (∀ x y : Payload, data_neq x y ≠ None) →
  run oracle s ops = None → K (params s.1) < 0.
Proof.
  intros Hcmp [HK|(x & y & Hxy)]%run_None; [done|]. by destruct (Hcmp x y).
Qed.

(** ** The invariants of the engine *)

Lemma state_ok_AddVertex a id data parentIDs :
  state_ok a → state_ok (AddVertex a id data parentIDs).1.
Proof.
  intros (Hd & Hp & Hf).
  destruct (AddVertex_effect a id data parentIDs)
    as (_ & Hfin & [(err & _ & Hfl & Hpend)|(v & _ & Hfresh & Hfl & Hpend)]);
    unfold state_ok; rewrite Hfin, Hpend, <- !dom_flags, Hfl;
    rewrite <- dom_flags in Hp, Hf.
  - done.
  - assert (id ∉ dom (flags (dag a))).
    { rewrite dom_flags. by apply not_elem_of_dom. }
    rewrite !dom_insert_L. set_solver.
Qed.

Lemma state_ok_processVertex a pos id a' pos' :
  state_ok a → processVertex oracle a pos id = Some (a', pos') → state_ok a'.
Proof.
  intros (Hd & Hp & Hf) H.
  apply processVertex_effect in H
    as (_ & [->|(Hnot & Hin & [(Hdag & Hfin & c' & Hpend & _)|
                              (Hdag & Hfin & Hpend)])]); [done| |];
    apply elem_of_dom in Hin; unfold state_ok; rewrite Hdag, Hfin, Hpend.
  - rewrite dom_insert_L. set_solver.
  - rewrite dom_mark_finalized, dom_delete_L. set_solver.
Qed.

Lemma flags_ok_AddVertex a id data parentIDs :
  flags_ok a → flags_ok (AddVertex a id data parentIDs).1.
Proof.
  intros Hfl.
  destruct (AddVertex_effect a id data parentIDs)
    as (_ & Hfin & [(err & _ & Hfl' & _)|(v & _ & Hfresh & Hfl' & _)]);
    unfold flags_ok; rewrite Hfin, Hfl'; [done|].
  by apply map_Forall_insert_2.
Qed.

Lemma flags_ok_processVertex a pos id a' pos' :
  flags_ok a → processVertex oracle a pos id = Some (a', pos') → flags_ok a'.
Proof.
  intros Hfl H.
  apply processVertex_effect in H
    as (_ & [->|(Hnot & Hin & [(Hdag & Hfin & _)|(Hdag & Hfin & _)])]);
    [done| |]; unfold flags_ok; rewrite Hdag, Hfin; [done|].
  rewrite flags_mark_finalized. intros k b. rewrite lookup_alter.
  case_decide; subst; [set_solver|].
  intros Hk Hb. specialize (Hfl k b Hk Hb). set_solver.
Qed.

Lemma getConfidenceThreshold_cases a id t :
  getConfidenceThreshold a id = Some t →
  t = BetaVirtuous (params a) ∨ t = BetaRogue (params a).
Proof.
  unfold getConfidenceThreshold. repeat case_match; intros [= <-]; auto.
Qed.

Lemma counters_ok_AddVertex a id data parentIDs :
  counters_ok a → counters_ok (AddVertex a id data parentIDs).1.
Proof.
  intros Hc.
  destruct (AddVertex_effect a id data parentIDs)
    as (_ & _ & [(err & _ & _ & Hpend)|(v & _ & _ & _ & Hpend)]);
    unfold counters_ok; rewrite Hpend; [done|].
  apply map_Forall_insert_2; [|done]. unfold max_int. lia.
Qed.

Lemma counters_ok_processVertex a pos id a' pos' :
  params_ok (params a) → counters_ok a →
  processVertex oracle a pos id = Some (a', pos') → counters_ok a'.
Proof.
  intros [Hbv Hbr] Hc H.
  apply processVertex_effect in H
    as (_ & [->|(Hnot & Hin & [(_ & _ & c' & Hpend & Hc')|(_ & _ & Hpend)])]);
    [done| |]; unfold counters_ok; rewrite Hpend.
  - apply map_Forall_insert_2; [|done].
    destruct Hc' as [->|(Heq & t & Ht & Hlt)]; [unfold max_int; lia|].
    assert (0 ≤ default 0 (pending a !! id) < max_int) as Hrange.
    { destruct (pending a !! id) as [c|] eqn:Hid; simpl.
      - by apply (Hc id c).
      - unfold max_int. lia. }
    rewrite int_add_exact in Heq
      by (unfold min_int, max_int in *; lia).
    destruct (getConfidenceThreshold_cases a id t Ht) as [->| ->]; lia.
  - by apply map_Forall_delete.
Qed.

Lemma state_ok_NewAvalanche d p : state_ok (NewAvalanche d p).
Proof. unfold state_ok, NewAvalanche. simpl. set_solver. Qed.

Lemma engine_inv_NewAvalanche p :
  params_ok p → engine_inv (NewAvalanche (NewDAG : DAG Payload) p).
Proof.
  intros Hp. unfold engine_inv, NewAvalanche. simpl. split_and!.
  - unfold state_ok. simpl. set_solver.
  - unfold flags_ok, flags. simpl. rewrite fmap_empty. apply map_Forall_empty.
  - unfold counters_ok. simpl. apply map_Forall_empty.
  - done.
  - apply wf_NewDAG.
Qed.

Lemma engine_inv_AddVertex a id data parentIDs :
  engine_inv a → engine_inv (AddVertex a id data parentIDs).1.
Proof.
  intros (Hs & Hf & Hc & Hp & Hwf). unfold engine_inv.
  rewrite params_AddVertex. split_and!; try done.
  - by apply state_ok_AddVertex.
  - by apply flags_ok_AddVertex.
  - by apply counters_ok_AddVertex.
  - by apply AddVertex_wf.
Qed.

Lemma engine_inv_processVertex a pos id a' pos' :
  engine_inv a → processVertex oracle a pos id = Some (a', pos') →
  engine_inv a'.
Proof.
  intros (Hs & Hf & Hc & Hp & Hwf) H. unfold engine_inv.
  rewrite (params_processVertex _ _ _ _ _ H). split_and!; try done.
  - by eapply state_ok_processVertex.
  - by eapply flags_ok_processVertex.
  - by eapply counters_ok_processVertex.
  - apply processVertex_effect in H
      as (_ & [->|(_ & _ & [(-> & _)|(-> & _)])]); try done.
    by apply wf_mark_finalized.
Qed.

(** Every state reached from a new engine over a new DAG satisfies the
    invariant. *)
Lemma engine_inv_reachable p pos ops s' :
  params_ok p →
  run oracle (NewAvalanche NewDAG p, pos) ops = Some s' → engine_inv s'.1.
Proof.
  intros Hp Hrun.
  refine (run_preserves engine_inv _ _ ops _ s' _ Hrun).
  - apply engine_inv_AddVertex.
  - apply engine_inv_processVertex.
  - by apply engine_inv_NewAvalanche.
Qed.

(** C8. The consensus state stays well-formed under every sequence of
    engine operations ([AddVertex], [processVertex], [consensusRound]):
    [pending] and [finalized] are disjoint and every id of either is stored
    in the DAG.  The sequence ends early only by a panic: of the slice
    expression, for a negative [K], or of the comparison of two payloads
    that cannot be compared. *)
Theorem state_ok_invariant a pos ops :
  state_ok a →
  match run oracle (a, pos) ops with
  | Some s' => state_ok s'.1
  | None => K (params a) < 0 ∨ ∃ x y : Payload, data_neq x y = None
  end.
Proof.
  intros Hok. destruct (run oracle (a, pos) ops) as [s'|] eqn:Hrun.
  - refine (run_preserves state_ok _ _ ops (a, pos) s' Hok Hrun).
    + apply state_ok_AddVertex.
    + apply state_ok_processVertex.
  - by apply run_None in Hrun.
Qed.

(** C9. Finalization is monotone.  Once the vertex of an id is flagged
    [Finalized] in a well-formed engine, after every sequence of engine
    operations the vertex is still stored with the flag set, the id is in
    [finalized], and the id is not in [pending].  The sequence ends early
    only by a panic, of the slice expression for a negative [K] or of the
    comparison of two payloads that cannot be compared. *)
Theorem finalization_monotone a pos ops id v :
  state_ok a → flags_ok a →
  vertices (dag a) !! id = Some v → Finalized v = true →
  match run oracle (a, pos) ops with
  | Some s' =>
      (∃ v', vertices (dag s'.1) !! id = Some v' ∧ Finalized v' = true) ∧
      id ∈ finalized s'.1 ∧
      pending s'.1 !! id = None
  | None => K (params a) < 0 ∨ ∃ x y : Payload, data_neq x y = None
  end.
Proof.
  intros Hok Hfl Hv Hflag.
  destruct (run oracle (a, pos) ops) as [s'|] eqn:Hrun;
    [|by apply run_None in Hrun].
  pose (J := λ a : Avalanche Payload,
          state_ok a ∧ flags_ok a ∧ flags (dag a) !! id = Some true).
  assert (J s'.1) as (Hok' & Hfl' & Hid').
  { refine (run_preserves J _ _ ops (a, pos) s' _ Hrun).
    - intros a1 id1 data1 parentIDs1 (Hs1 & Hf1 & Hid1). unfold J. split_and!.
      + by apply state_ok_AddVertex.
      + by apply flags_ok_AddVertex.
      + destruct (AddVertex_effect a1 id1 data1 parentIDs1)
          as (_ & _ & [(err & _ & -> & _)|(w & _ & Hfresh & -> & _)]);
          [done|].
        rewrite lookup_insert_ne; [done|]. intros ->.
        unfold flags in Hid1. by rewrite lookup_fmap, Hfresh in Hid1.
    - intros a1 pos1 id1 a2 pos2 (Hs1 & Hf1 & Hid1) Hp. unfold J. split_and!.
      + by eapply state_ok_processVertex.
      + by eapply flags_ok_processVertex.
      + apply processVertex_effect in Hp
          as (_ & [->|(_ & _ & [(-> & _)|(-> & _)])]); try done.
        rewrite flags_mark_finalized, lookup_alter.
        case_decide; subst; by rewrite ?Hid1.
    - unfold J. split_and!; try done. unfold flags. simpl.
      by rewrite lookup_fmap, Hv, <- Hflag. }
  pose proof (Hfl' id true Hid' eq_refl) as Hin.
  split_and!.
  - unfold flags in Hid'. rewrite lookup_fmap in Hid'.
    destruct (vertices (dag s'.1) !! id) as [v'|]; simplify_eq/=. eauto.
  - done.
  - apply not_elem_of_dom. destruct Hok' as (Hdisj & _). set_solver.
Qed.

End consensus_facts.

(** ** The theorems at the scenarios of the specification *)

Import Scenario.

Ltac by_computation := apply (bool_decide_unpack _); vm_compute; exact I.

(** S5: [vZ] is submitted with a parent that does not exist. *)
Lemma AddVertex_atomic_S5 :
  ∃ err,
    (AddVertex two "vZ" "Z"%string ["nonexistent-id"%string]).2 = inr err ∧
    (AddVertex two "vZ" "Z"%string ["nonexistent-id"%string]).1 = two ∧
    GetVertex (dag (AddVertex two "vZ" "Z"%string
                              ["nonexistent-id"%string]).1) "vZ"
      = inr ErrVertexNotFound ∧
    (∀ k v, vertices (dag (AddVertex two "vZ" "Z"%string
                                     ["nonexistent-id"%string]).1) !! k
            = Some v → "vZ" ∉ Children v) ∧
    pending (AddVertex two "vZ" "Z"%string ["nonexistent-id"%string]).1
      !! "vZ" = None.
Proof.
  apply (AddVertex_atomic two "vZ" "Z"%string ["nonexistent-id"%string]).
  - by_computation.
  - by_computation.
  - vm_compute. reflexivity.
  - left. exists "nonexistent-id"%string. split.
    + apply list_elem_of_In. simpl. left. reflexivity.
    + vm_compute. reflexivity.
Defined.

(** The error of S5 is [ErrVertexNotFound]. *)
Lemma AddVertex_S5_error :
  (AddVertex two "vZ" "Z"%string ["nonexistent-id"%string]).2
  = inr ErrVertexNotFound.
Proof. vm_compute. reflexivity. Qed.

(** The threshold of [a] in the engine [two], whose payloads are strings:
    every comparison is defined and nothing conflicts. *)
Lemma getConfidenceThreshold_comparable_two :
  ((∀ k w, vertices (dag two) !! k = Some w →
           ¬ conflicts (mkVertex "a" "A"%string ∅ {["b"]} false 0 false) w) →
   getConfidenceThreshold two "a" = Some (BetaVirtuous (params two))) ∧
  ((∃ k w, vertices (dag two) !! k = Some w ∧
           conflicts (mkVertex "a" "A"%string ∅ {["b"]} false 0 false) w) →
   getConfidenceThreshold two "a" = Some (BetaRogue (params two))).
Proof.
  apply (getConfidenceThreshold_comparable two "a").
  - vm_compute. reflexivity.
  - intros k w _ [_ Hw]. discriminate Hw.
Defined.

(** S4: two vertices with the same string have the rogue threshold. *)
Lemma getConfidenceThreshold_S4 :
  getConfidenceThreshold s4 "vX" = Some 5 ∧
  getConfidenceThreshold s4 "vY" = Some 5 ∧
  getConfidenceThreshold two "a" = Some 3.
Proof. vm_compute. done. Qed.

(** C6. For a vertex in the DAG the threshold is β_v when no other vertex
    conflicts with it and β_r when one does, where [v] conflicts with [w]
    iff their ids differ and their data are equal.  The code does not do
    this for payloads that Go cannot compare.  The engine [objects] stores
    [vX] and [vY], two ids with the same payload, a JSON object: the claim
    gives both β_r = 5.  The comparison [v1.Data != v2.Data] of two maps
    panics, so neither call returns a threshold, and the round that has a
    quorum for [vX] panics with it. *)
Theorem getConfidenceThreshold_objects_panic :
  vertices (dag objects) !! "vX"
    = Some (mkVertex "vX" (JObject [("k"%string, JString "T")])
              ∅ ∅ false 0 false) ∧
  vertices (dag objects) !! "vY"
    = Some (mkVertex "vY" (JObject [("k"%string, JString "T")])
              ∅ ∅ false 0 false) ∧
  BetaRogue (params objects) = 5 ∧
  getConfidenceThreshold objects "vX" = None ∧
  getConfidenceThreshold objects "vY" = None ∧
  processVertex zeros objects 0 "vX" = None.
Proof. vm_compute. split_and!; reflexivity. Qed.

(** The sampler on the engine [two] with K = 1: one candidate, one
    sample. *)
Lemma getSamples_spec_two :
  (Z.of_nat (size (vertices (dag two))) < 1 →
   getSamples zeros two 0 "a" 1 = Some ([], 0%nat)) ∧
  (1 ≤ Z.of_nat (length (candidates_of two "a"
                   (mkVertex "a" "A"%string ∅ {["b"]} false 0 false))) →
   ∃ samples pos',
     getSamples zeros two 0 "a" 1 = Some (samples, pos') ∧
     Z.of_nat (length samples) = 1 ∧ NoDup samples ∧
     samples ⊆ candidates_of two "a"
                 (mkVertex "a" "A"%string ∅ {["b"]} false 0 false)) ∧
  (1 ≤ Z.of_nat (size (vertices (dag two))) →
   Z.of_nat (length (candidates_of two "a"
               (mkVertex "a" "A"%string ∅ {["b"]} false 0 false))) < 1 →
   getSamples zeros two 0 "a" 1
   = Some (candidates_of two "a"
             (mkVertex "a" "A"%string ∅ {["b"]} false 0 false), 0%nat) ∧
   Z.of_nat (length (candidates_of two "a"
               (mkVertex "a" "A"%string ∅ {["b"]} false 0 false))) = 1 - 1).
Proof.
  apply (getSamples_spec zeros two 0 "a").
  - by_computation.
  - vm_compute. reflexivity.
  - lia.
Defined.

(** C4 as stated fails.  The engine [two] holds K = 2 vertices; for the
    target [a] one candidate is available, fewer than K, and the sampler
    returns that candidate, not the empty sequence. *)
Lemma getSamples_fewer_candidates_returned :
  vertices (dag two) !! "a"
    = Some (mkVertex "a" "A"%string ∅ {["b"]} false 0 false) ∧
  0 < K (params two) ∧
  Z.of_nat (length (candidates_of two "a"
              (mkVertex "a" "A"%string ∅ {["b"]} false 0 false)))
    < K (params two) ∧
  getSamples zeros two 0 "a" (K (params two)) = Some (["b"%string], 0%nat) ∧
  getSamples zeros two 0 "a" (K (params two)) ≠ Some ([], 0%nat).
Proof. vm_compute. split_and!; done. Qed.

(** With one vertex and K = 2 the sampler returns nothing and the round
    skips [a]. *)
Lemma processVertex_skips_empty_sample_one :
  ∃ pos', processVertex zeros one 0 "a" = Some (one, pos').
Proof.
  apply (processVertex_skips_empty_sample zeros one 0 "a" 0%nat).
  vm_compute. reflexivity.
Defined.

(** C5 as stated fails.  In the engine [two] the sampler returns one id
    for [a], fewer than K = 2, and [processVertex] does not skip: the
    counter of [a] goes from 0 to 1. *)
Lemma processVertex_short_sample_counted :
  getSamples zeros two 0 "a" (K (params two)) = Some (["b"%string], 0%nat) ∧
  Z.of_nat (length ["b"%string]) < K (params two) ∧
  pending two !! "a" = Some 0 ∧
  (pending <$> (fst <$> processVertex zeros two 0 "a")) ≫= (.!! "a") = Some 1.
Proof. vm_compute. split_and!; done. Qed.

(** The same under the default parameters.  The engine [ledger] stores ten
    vertices whose payloads are ten different JSON objects: no vertex
    conflicts with another and the claim gives each the threshold β_v = 20.
    The comparison of two maps panics whatever they hold, so no call
    returns a threshold, and the first round on [t0], which all nine
    samples approve as their ancestor, panics. *)
Lemma getConfidenceThreshold_ledger_panic :
  dom (vertices (dag ledger)) = list_to_set ledger_ids ∧
  (λ k, Data <$> vertices (dag ledger) !! k) <$> ledger_ids
  = (λ k, Some (JObject [("tx"%string, JString k)])) <$> ledger_ids ∧
  getConfidenceThreshold ledger <$> ledger_ids = replicate 10 None ∧
  (λ r, (count_preferences zeros ledger "t0" r.1 0 r.2).1)
    <$> getSamples zeros ledger 0 "t0" (K (params ledger)) = Some 9 ∧
  Alpha (params ledger) = 8 ∧
  processVertex zeros ledger 0 "t0" = None.
Proof.
  split_and!.
  - apply (@bool_decide_unpack _ (gset_eq_dec _ _)). vm_compute. exact I.
  - vm_compute. reflexivity.
  - vm_compute. reflexivity.
  - vm_compute. reflexivity.
  - reflexivity.
  - vm_compute. reflexivity.
Qed.


(** A run from the new engine: two submissions, a round, one more vertex
    turn. *)
Lemma state_ok_invariant_run :
  match run zeros (two_new, 0%nat)
          [OpAddVertex "a" "A"%string []; OpAddVertex "b" "B"%string ["a"%string];
           OpConsensusRound; OpProcessVertex "a";
           OpAddVertex "c" "C"%string ["zz"%string]] with
  | Some s' => state_ok s'.1
  | None => K (params two_new) < 0 ∨ ∃ x y : string, data_neq x y = None
  end.
Proof.
  apply (state_ok_invariant zeros two_new 0).
  by_computation.
Defined.

(** [a] is finalized in [two_finalized]; it is then submitted again, and
    two more rounds are run. *)
Lemma finalization_monotone_two :
  match run zeros (two_finalized, 0%nat)
          [OpAddVertex "a" "again"%string []; OpConsensusRound;
           OpProcessVertex "a"; OpConsensusRound] with
  | Some s' =>
      (∃ v', vertices (dag s'.1) !! "a" = Some v' ∧ Finalized v' = true) ∧
      "a" ∈ finalized s'.1 ∧
      pending s'.1 !! "a" = None
  | None =>
      K (params two_finalized) < 0 ∨ ∃ x y : string, data_neq x y = None
  end.
Proof.
  eapply (finalization_monotone zeros two_finalized 0 _ "a").
  - by_computation.
  - by_computation.
  - vm_compute. reflexivity.
  - reflexivity.
Defined.

End ConsensusSpec.

(** * Further properties of the DAG store *)
Module DagExtra.

Import Dag DagSpec.

Section store_facts.

Context {Payload : Type}.

Implicit Types (d : DAG Payload) (v w : Vertex Payload) (id k : string).

(** ** The table after a successful [AddEdge] *)

Lemma AddEdge_success_lookup d parentID childID d' :
  AddEdge d parentID childID = (d', None) →
  (∀ k, vertices d' !! k
        = edge_added parentID childID k <$> vertices d !! k) ∧
  roots d' = roots d ∖ {[childID]} ∧
  parentID ∈ dom (vertices d) ∧ childID ∈ dom (vertices d) ∧
  parentID ≠ childID.
Proof.
  unfold AddEdge. intros Hedge.
  destruct (vertices d !! parentID) as [vp|] eqn:Hp; [|done].
  destruct (vertices d !! childID) as [vc|] eqn:Hc; [|done].
  destruct (wouldCreateCycle d parentID childID) eqn:Hw; [done|].
  assert (parentID ≠ childID) as Hne.
  { intros ->. by rewrite (wouldCreateCycle_self d childID vc Hc) in Hw. }
  simplify_eq. simpl. split_and!; try done; try by eapply elem_of_dom_2.
  intros k. unfold edge_added. rewrite !lookup_alter.
  destruct (decide (childID = k)) as [Hck|Hck],
           (decide (parentID = k)) as [Hpk|Hpk]; subst; try done.
  all: destruct (vertices d !! k) as [v|]; simpl; [|done].
  all: destruct v; unfold with_Parents, with_Children; simpl.
  all: by repeat case_decide.
Qed.

(** ** The table after a successful [RemoveVertex] *)

Lemma with_Parents_compose (f g : gset string → gset string) v :
  with_Parents f (with_Parents g v) = with_Parents (λ c, f (g c)) v.
Proof. by destruct v. Qed.

Lemma detach_children_lookup id (l : list string)
    (st : gmap string (Vertex Payload) * gset string) k :
  (foldl (detach_child id) st l).1 !! k =
  (if decide (k ∈ l) then with_Parents (λ p, p ∖ {[id]}) else λ v, v)
    <$> st.1 !! k.
Proof.
  revert st. induction l as [|c l IH]; intros st; simpl.
  { by destruct (st.1 !! k). }
  rewrite IH.
  assert ((detach_child id st c).1
          = alter (with_Parents (λ p, p ∖ {[id]})) c st.1) as ->.
  { unfold detach_child. by repeat case_match. }
  rewrite lookup_alter.
  destruct (decide (c = k)) as [->|Hne].
  - rewrite (decide_True (P := k ∈ k :: l)) by set_solver.
    destruct (st.1 !! k) as [v|]; simpl; [|by repeat case_decide].
    case_decide; [|done]. f_equal. rewrite with_Parents_compose.
    destruct v; unfold with_Parents; simpl. f_equal. set_solver.
  - destruct (decide (k ∈ l)).
    + by rewrite (decide_True (P := k ∈ c :: l)) by set_solver.
    + by rewrite (decide_False (P := k ∈ c :: l)) by set_solver.
Qed.

Lemma detach_children_roots id (l : list string)
    (st : gmap string (Vertex Payload) * gset string) x :
  x ∈ (foldl (detach_child id) st l).2 ↔
  x ∈ st.2 ∨ (x ∈ l ∧ ∃ w, st.1 !! x = Some w ∧ Parents w ∖ {[id]} = ∅).
Proof.
  revert st. induction l as [|c l IH]; intros st; simpl.
  { split; [by left|]. intros [?|[?%elem_of_nil _]]; done. }
  rewrite IH. clear IH.
  assert ((detach_child id st c).1
          = alter (with_Parents (λ p, p ∖ {[id]})) c st.1) as Hfst.
  { unfold detach_child. by repeat case_match. }
  assert (∀ y, y ∈ (detach_child id st c).2 ↔
               y ∈ st.2 ∨ (y = c ∧ ∃ w, st.1 !! c = Some w ∧
                                        Parents w ∖ {[id]} = ∅)) as Hsnd.
  { intros y. unfold detach_child. rewrite lookup_alter_eq.
    destruct (st.1 !! c) as [w|]; simpl; [|naive_solver].
    case_decide as Hsz; simpl.
    - apply size_empty_inv, leibniz_equiv in Hsz.
      rewrite elem_of_union, elem_of_singleton. naive_solver.
    - split; [by left|]. intros [?|[-> (w' & [= <-] & Hw')]]; [done|].
      destruct Hsz. rewrite Hw'. apply size_empty. }
  assert (∀ y, (∃ w, (detach_child id st c).1 !! y = Some w ∧
                     Parents w ∖ {[id]} = ∅) ↔
               (∃ w, st.1 !! y = Some w ∧ Parents w ∖ {[id]} = ∅)) as Hsame.
  { intros y. rewrite Hfst, lookup_alter.
    case_decide; subst; [|done].
    destruct (st.1 !! y) as [w|]; simpl; [|naive_solver].
    split; intros (w' & [= <-] & Hw'); eexists; (split; [done|]);
      simpl in *; set_solver. }
  rewrite Hsnd, Hsame, elem_of_cons. naive_solver.
Qed.

Lemma RemoveVertex_success d id r :
  vertices d !! id = Some r → id ∉ Parents r →
  (RemoveVertex d id).2 = None ∧
  vertices (RemoveVertex d id).1 !! id = None ∧
  (∀ k, k ≠ id →
        vertices (RemoveVertex d id).1 !! k
        = neighbour_detached id r k <$> vertices d !! k) ∧
  (∀ x, x ∈ roots (RemoveVertex d id).1 ↔
        x ≠ id ∧
        (x ∈ roots d ∨
         (x ∈ Children r ∧
          ∃ w, vertices d !! x = Some w ∧ Parents w ∖ {[id]} = ∅))).
Proof.
  intros Hr Hself. unfold RemoveVertex. rewrite Hr. simpl.
  assert (foldl (detach_parent id) (vertices d) (elements (Parents r)) !! id
          = Some r) as Hid.
  { rewrite detach_parents_lookup, Hr.
    by rewrite decide_False by (by rewrite elem_of_elements). }
  rewrite Hid. split_and!.
  - done.
  - by rewrite lookup_delete_eq.
  - intros k Hk. rewrite lookup_delete_ne by done.
    rewrite detach_children_lookup. simpl. rewrite detach_parents_lookup.
    unfold neighbour_detached.
    destruct (vertices d !! k) as [w|]; simpl; [|by repeat case_decide].
    destruct w; unfold with_Parents, with_Children; simpl.
    repeat case_decide; try done;
      rewrite ?elem_of_elements in *; done.
  - intros x. rewrite elem_of_difference, elem_of_singleton.
    rewrite detach_children_roots. simpl. rewrite elem_of_elements.
    assert ((∃ w, foldl (detach_parent id) (vertices d)
                        (elements (Parents r)) !! x = Some w ∧
                  Parents w ∖ {[id]} = ∅) ↔
            (∃ w, vertices d !! x = Some w ∧ Parents w ∖ {[id]} = ∅)) as ->.
    { rewrite detach_parents_lookup.
      destruct (vertices d !! x) as [w|]; simpl; [|naive_solver].
      case_decide; [|done].
      split; intros (w' & [= <-] & Hw'); eexists; (split; [done|]);
        by destruct w. }
    naive_solver.
Qed.

(** ** The invariants under the three operations *)

Lemma roots_ok_alt d :
  roots_ok d ↔
  ∀ k, k ∈ roots d ↔ ∃ v, vertices d !! k = Some v ∧ Parents v = ∅.
Proof.
  unfold roots_ok. split.
  - intros -> k. rewrite elem_of_dom. unfold is_Some.
    setoid_rewrite map_lookup_filter_Some. naive_solver.
  - intros H. apply set_eq. intros k. rewrite H, elem_of_dom. unfold is_Some.
    setoid_rewrite map_lookup_filter_Some. naive_solver.
Qed.

Lemma store_inv_NewDAG : store_inv (NewDAG : DAG Payload).
Proof.
  split_and!; [apply wf_NewDAG| |].
  - unfold symmetric, NewDAG. simpl. apply map_Forall_empty.
  - unfold roots_ok, NewDAG. simpl. by rewrite map_filter_empty, dom_empty_L.
Qed.

Lemma store_inv_AddVertex d id data :
  store_inv d → store_inv (AddVertex d id data).1.
Proof.
  intros (Hwf & Hsym & Hroots). split_and!; [by apply wf_AddVertex| |].
  - destruct Hwf as (_ & [_ Hclosed] & _). unfold symmetric, AddVertex.
    destruct (vertices d !! id) eqn:Hid; simpl; [done|].
    apply not_elem_of_dom in Hid.
    intros p vp Hp c vc Hc.
    apply lookup_insert_Some in Hp as [[<- <-]|[Hpne Hp]],
          Hc as [[<- <-]|[Hcne Hc]]; simpl.
    + done.
    + destruct (Hclosed c vc Hc) as [Hps _]. set_solver.
    + destruct (Hclosed p vp Hp) as [_ Hcs]. set_solver.
    + by apply (Hsym p vp Hp c vc Hc).
  - apply roots_ok_alt. rewrite roots_ok_alt in Hroots.
    unfold AddVertex. destruct (vertices d !! id) eqn:Hid; simpl; [done|].
    intros k. rewrite elem_of_union, elem_of_singleton, Hroots.
    destruct (decide (k = id)) as [->|Hne].
    + rewrite lookup_insert_eq. naive_solver.
    + rewrite lookup_insert_ne by done. naive_solver.
Qed.

Lemma store_inv_AddEdge d parentID childID :
  store_inv d → store_inv (AddEdge d parentID childID).1.
Proof.
  intros (Hwf & Hsym & Hroots). split_and!; [by apply wf_AddEdge| |];
    destruct (AddEdge d parentID childID) as [d' [e|]] eqn:Hedge; simpl;
    try (by apply AddEdge_error in Hedge as ->);
    apply AddEdge_success_lookup in Hedge as (Hlook & Hr & Hp & Hc & Hne).
  - intros p vp' Hp' c vc' Hc'.
    rewrite Hlook in Hp', Hc'.
    destruct (vertices d !! p) as [vp|] eqn:Hvp; [|done].
    destruct (vertices d !! c) as [vc|] eqn:Hvc; [|done].
    simpl in *. simplify_eq. specialize (Hsym p vp Hvp c vc Hvc).
    simpl in Hsym. unfold edge_added. destruct vp, vc; simpl in *.
    repeat case_decide; set_solver.
  - apply roots_ok_alt. rewrite roots_ok_alt in Hroots.
    intros k. rewrite Hr, elem_of_difference, elem_of_singleton, Hroots, Hlook.
    destruct (vertices d !! k) as [v|] eqn:Hv; simpl; [|naive_solver].
    unfold edge_added. destruct v; simpl.
    split.
    + intros [(w & [= <-] & Hw) Hk]. simpl in *. eexists. split; [done|].
      simpl. by rewrite decide_False.
    + intros (w & [= <-] & Hw). simpl in *.
      case_decide; [set_solver|]. split; [|done]. eauto.
Qed.

Lemma store_inv_RemoveVertex d id :
  store_inv d → store_inv (RemoveVertex d id).1.
Proof.
  intros Hinv. pose proof Hinv as ((Hids & [Hrd Hclosed] & Hself) & Hsym & Hroots).
  destruct (vertices d !! id) as [r|] eqn:Hr.
  2:{ unfold RemoveVertex. by rewrite Hr. }
  pose proof (Hself id r Hr) as Hidr. simpl in Hidr.
  destruct (RemoveVertex_success d id r Hr Hidr) as (_ & Hgone & Hlook & Hnr).
  assert (∀ k w', vertices (RemoveVertex d id).1 !! k = Some w' →
            k ≠ id ∧ ∃ w, vertices d !! k = Some w ∧
                          w' = neighbour_detached id r k w) as Hinvl.
  { intros k w' Hk. destruct (decide (k = id)) as [->|Hne]; [congruence|].
    split; [done|]. rewrite (Hlook k Hne) in Hk.
    destruct (vertices d !! k) as [w|]; simplify_eq/=. eauto. }
  assert (dom (vertices (RemoveVertex d id).1) = dom (vertices d) ∖ {[id]})
    as Hdom.
  { apply set_eq. intros k.
    rewrite elem_of_difference, elem_of_singleton, !elem_of_dom.
    destruct (decide (k = id)) as [->|Hne].
    - rewrite Hgone. split; [by intros []|naive_solver].
    - rewrite (Hlook k Hne). rewrite fmap_is_Some. naive_solver. }
  assert (∀ k w, vertices d !! k = Some w → k ≠ id →
                 (id ∈ Parents w ↔ k ∈ Children r) ∧
                 (id ∈ Children w ↔ k ∈ Parents r)) as Hedges.
  { intros k w Hk Hne. split.
    - symmetry. apply (Hsym id r Hr k w Hk).
    - apply (Hsym k w Hk id r Hr). }
  split_and!; [split_and!|..].
  - intros k w' (Hne & w & Hw & ->)%Hinvl. simpl.
    specialize (Hids k w Hw). by destruct w.
  - unfold closed. rewrite Hdom. split.
    + intros x [Hx Hx']%Hnr. rewrite elem_of_difference, elem_of_singleton.
      split; [|done]. destruct Hx' as [?|[_ (w & Hw & _)]]; [set_solver|].
      by eapply elem_of_dom_2.
    + intros k w' (Hne & w & Hw & ->)%Hinvl. simpl.
      destruct (Hclosed k w Hw) as [Hps Hcs].
      destruct (Hedges k w Hw Hne) as [Hp Hc].
      unfold neighbour_detached. destruct w; simpl in *.
      repeat case_decide; set_solver.
  - intros k w' (Hne & w & Hw & ->)%Hinvl. simpl.
    specialize (Hself k w Hw). simpl in Hself.
    unfold neighbour_detached. destruct w; simpl in *.
    repeat case_decide; set_solver.
  - intros p vp' (Hpne & vp & Hvp & ->)%Hinvl c vc' (Hcne & vc & Hvc & ->)%Hinvl.
    specialize (Hsym p vp Hvp c vc Hvc). simpl in Hsym.
    unfold neighbour_detached. destruct vp, vc; simpl in *.
    repeat case_decide; set_solver.
  - apply roots_ok_alt. rewrite roots_ok_alt in Hroots.
    intros x. rewrite Hnr. destruct (decide (x = id)) as [->|Hne].
    { rewrite Hgone. naive_solver. }
    rewrite (Hlook x Hne), Hroots.
    destruct (vertices d !! x) as [w|] eqn:Hw; simpl; [|naive_solver].
    destruct (Hedges x w Hw Hne) as [Hp _].
    unfold neighbour_detached. destruct w; simpl in *.
    split.
    + intros [_ [(w' & [= <-] & Hw')|[Hc (w' & [= <-] & Hw')]]];
        eexists; (split; [done|]); simpl in *;
        repeat case_decide; set_solver.
    + intros (w' & [= <-] & Hw'). simpl in *. split; [done|].
      case_decide; [right|left]; eauto.
Qed.

(** X1. Every DAG built from [NewDAG] by [AddVertex], [AddEdge] and
    [RemoveVertex] keeps the invariants of the store: every vertex is
    stored under its own ID, edges and roots name stored vertices only, no
    vertex is its own parent, every edge is recorded at both of its ends,
    and the roots are exactly the stored vertices without parents. *)
Theorem store_inv_reachable (ops : list (store_op Payload)) :
  store_inv (foldl store_exec NewDAG ops).
Proof.
  assert (∀ d, store_inv d → store_inv (foldl store_exec d ops)) as H;
    [|apply H, store_inv_NewDAG].
  induction ops as [|o ops IH]; intros d Hd; simpl; [done|].
  apply IH. destruct o; simpl;
    [by apply store_inv_AddVertex|by apply store_inv_AddEdge|
     by apply store_inv_RemoveVertex].
Qed.

(** X2. [RemoveVertex] on an id that is not stored returns
    [ErrVertexNotFound] and the same DAG.  On a stored id of a DAG that
    satisfies the invariants it succeeds: the id is no longer found, no
    remaining vertex names it as a parent or as a child, every child whose
    only parent it was is now a root, and the vertices that were not its
    neighbours are as they were. *)
Theorem RemoveVertex_detaches d id :
  store_inv d →
  match vertices d !! id with
  | None => RemoveVertex d id = (d, Some ErrVertexNotFound)
  | Some r =>
      (RemoveVertex d id).2 = None ∧
      GetVertex (RemoveVertex d id).1 id = inr ErrVertexNotFound ∧
      dom (vertices (RemoveVertex d id).1) = dom (vertices d) ∖ {[id]} ∧
      (∀ k w, vertices (RemoveVertex d id).1 !! k = Some w →
              (id ∉ Parents w) ∧ id ∉ Children w) ∧
      (∀ c w, c ∈ Children r → vertices d !! c = Some w →
              Parents w = {[id]} → c ∈ roots (RemoveVertex d id).1) ∧
      (∀ k w, vertices d !! k = Some w → k ≠ id →
              k ∉ Parents r → k ∉ Children r →
              vertices (RemoveVertex d id).1 !! k = Some w)
  end.
Proof.
  intros Hinv. pose proof (store_inv_RemoveVertex d id Hinv)
    as ((_ & [_ Hclosed'] & _) & _ & _).
  destruct Hinv as ((_ & _ & Hself) & Hsym & _).
  destruct (vertices d !! id) as [r|] eqn:Hr.
  2:{ unfold RemoveVertex. by rewrite Hr. }
  pose proof (Hself id r Hr) as Hidr. simpl in Hidr.
  destruct (RemoveVertex_success d id r Hr Hidr) as (Hok & Hgone & Hlook & Hnr).
  assert (id ∉ dom (vertices (RemoveVertex d id).1)) as Hnotin.
  { by apply not_elem_of_dom. }
  split_and!.
  - done.
  - unfold GetVertex. by rewrite Hgone.
  - apply set_eq. intros k.
    rewrite elem_of_difference, elem_of_singleton, !elem_of_dom.
    destruct (decide (k = id)) as [->|Hne].
    + rewrite Hgone. split; [by intros []|naive_solver].
    + rewrite (Hlook k Hne), fmap_is_Some. naive_solver.
  - intros k w Hk. destruct (Hclosed' k w Hk). set_solver.
  - intros c w Hc Hw Hp. apply Hnr. split.
    + intros ->. rewrite Hr in Hw. simplify_eq. set_solver.
    + right. split; [done|]. exists w. split; [done|]. set_solver.
  - intros k w Hk Hne Hp Hc. rewrite (Hlook k Hne), Hk. simpl. f_equal.
    unfold neighbour_detached. destruct w; unfold with_Parents, with_Children.
    simpl. by rewrite !decide_False.
Qed.

(** X3. The error results of [AddEdge], for a DAG whose vertices are
    stored under their IDs: [ErrVertexNotFound] exactly when an endpoint is
    not stored; [ErrWouldCreateCycle] exactly when both are stored and the
    parent is the child or already an ancestor of the child; never
    [ErrVertexAlreadyExists]; and an error leaves the DAG as it was. *)
Theorem AddEdge_errors d parentID childID :
  ids_ok d →
  ((AddEdge d parentID childID).2 = Some ErrVertexNotFound ↔
   parentID ∉ dom (vertices d) ∨ childID ∉ dom (vertices d)) ∧
  ((AddEdge d parentID childID).2 = Some ErrWouldCreateCycle ↔
   parentID ∈ dom (vertices d) ∧ childID ∈ dom (vertices d) ∧
   (childID = parentID ∨ ancestor d parentID childID)) ∧
  (AddEdge d parentID childID).2 ≠ Some ErrVertexAlreadyExists ∧
  ((AddEdge d parentID childID).2 ≠ None →
   (AddEdge d parentID childID).1 = d).
Proof.
  intros Hids.
  destruct (decide (parentID ∈ dom (vertices d))) as [Hp|Hp];
    [destruct (decide (childID ∈ dom (vertices d))) as [Hc|Hc]|].
  - pose proof (AddEdge_decides d parentID childID Hids Hp Hc) as Hdec.
    unfold AddEdge in *.
    apply elem_of_dom in Hp as Hp'. destruct Hp' as [vp Hvp].
    apply elem_of_dom in Hc as Hc'. destruct Hc' as [vc Hvc].
    rewrite Hvp, Hvc in *.
    destruct (wouldCreateCycle d parentID childID); simpl in *;
      split_and!; try done; try tauto; try (split; [done|tauto]).
  - unfold AddEdge. apply elem_of_dom in Hp as [vp ->].
    apply not_elem_of_dom in Hc as Hc'. rewrite Hc'. simpl.
    split_and!; try done; [tauto|]. split; [done|tauto].
  - unfold AddEdge. apply not_elem_of_dom in Hp as Hp'. rewrite Hp'. simpl.
    split_and!; try done; [tauto|]. split; [done|tauto].
Qed.

(** X4. A successful [AddEdge] records the edge at both ends, takes the
    child out of the roots and leaves every other vertex as it was; asking
    for the same edge again is rejected with [ErrWouldCreateCycle] and
    changes nothing. *)
Theorem AddEdge_twice d parentID childID d' :
  ids_ok d → AddEdge d parentID childID = (d', None) →
  (∃ vp vc,
     vertices d !! parentID = Some vp ∧ vertices d !! childID = Some vc ∧
     vertices d' !! parentID
       = Some (with_Children (λ cs, {[childID]} ∪ cs) vp) ∧
     vertices d' !! childID
       = Some (with_Parents (λ ps, {[parentID]} ∪ ps) vc)) ∧
  (∀ k, k ≠ parentID → k ≠ childID → vertices d' !! k = vertices d !! k) ∧
  roots d' = roots d ∖ {[childID]} ∧
  AddEdge d' parentID childID = (d', Some ErrWouldCreateCycle).
Proof.
  intros Hids Hedge.
  pose proof (ids_ok_AddEdge d parentID childID Hids) as Hids'.
  rewrite Hedge in Hids'. simpl in Hids'.
  pose proof (dom_AddEdge d parentID childID) as Hdom.
  rewrite Hedge in Hdom. simpl in Hdom.
  apply AddEdge_success_lookup in Hedge as (Hlook & Hr & Hp & Hc & Hne).
  apply elem_of_dom in Hp as Hp'. destruct Hp' as [vp Hvp].
  apply elem_of_dom in Hc as Hc'. destruct Hc' as [vc Hvc].
  assert (vertices d' !! childID
          = Some (with_Parents (λ ps, {[parentID]} ∪ ps) vc)) as Hc'.
  { rewrite Hlook, Hvc. simpl. f_equal. unfold edge_added.
    destruct vc; unfold with_Parents, with_Children; simpl.
    by rewrite decide_True, decide_False by done. }
  split_and!.
  - exists vp, vc. split_and!; try done.
    rewrite Hlook, Hvp. simpl. f_equal. unfold edge_added.
    destruct vp; unfold with_Parents, with_Children; simpl.
    by rewrite decide_False, decide_True by done.
  - intros k Hkp Hkc. rewrite Hlook.
    destruct (vertices d !! k) as [v|]; simpl; [|done]. f_equal.
    unfold edge_added. destruct v; unfold with_Parents, with_Children; simpl.
    by rewrite !decide_False by done.
  - done.
  - assert ((AddEdge d' parentID childID).2 = Some ErrWouldCreateCycle) as He.
    { apply AddEdge_decides; [done|by rewrite Hdom..|]. right.
      eapply ancestor_parent; [exact Hc'|]. simpl. set_solver. }
    destruct (AddEdge d' parentID childID) as [d'' e] eqn:Hagain.
    simpl in He. subst e. by apply AddEdge_error in Hagain as ->.
Qed.

(** X5. Removing a vertex that has just been added gives back the DAG
    from before, when that DAG names stored vertices only. *)
Theorem RemoveVertex_AddVertex d id data :
  closed d → vertices d !! id = None →
  RemoveVertex (AddVertex d id data).1 id = (d, None).
Proof.
  intros [Hroots Hclosed] Hfresh.
  apply not_elem_of_dom in Hfresh as Hdom.
  destruct (linked_AddVertex d id data Hfresh) as [_ Hlinked]; [set_solver|].
  apply (linked_RemoveVertex d id data ∅); [done..|].
  intros k v Hk. destruct (Hclosed k v Hk). set_solver.
Qed.

(** ** The listings *)

Lemma omap_lookup_ids d (l : list string) :
  ids_ok d → (∀ k, k ∈ l → k ∈ dom (vertices d)) →
  ID <$> omap (λ k, vertices d !! k) l = l.
Proof.
  intros Hids. induction l as [|k l IH]; intros Hl; simpl; [done|].
  destruct (vertices d !! k) as [v|] eqn:Hk.
  - simpl. f_equal; [by apply (Hids k v)|].
    apply IH. intros ??. apply Hl. by right.
  - apply not_elem_of_dom in Hk. destruct Hk. apply Hl. by left.
Qed.

(** X6. In a DAG that satisfies the invariants, [GetRoots] lists exactly
    the stored vertices without parents and [GetVertices] exactly the
    stored vertices, each of them once. *)
Theorem listings_complete d :
  store_inv d →
  (∀ v, v ∈ GetRoots d ↔ ∃ k, vertices d !! k = Some v ∧ Parents v = ∅) ∧
  ID <$> GetRoots d = elements (roots d) ∧
  (∀ v, v ∈ GetVertices d ↔ ∃ k, vertices d !! k = Some v) ∧
  NoDup (ID <$> GetVertices d) ∧
  length (GetVertices d) = size (vertices d).
Proof.
  intros ((Hids & [Hroots Hclosed] & _) & _ & Hrok).
  rewrite roots_ok_alt in Hrok. split_and!.
  - intros v. unfold GetRoots. rewrite list_elem_of_omap. split.
    + intros (k & Hk & Hv). apply elem_of_elements, Hrok in Hk
        as (v' & Hv' & Hp). exists k. by simplify_eq.
    + intros (k & Hk & Hp). exists k. split; [|done].
      apply elem_of_elements, Hrok. eauto.
  - apply omap_lookup_ids; [done|]. intros k Hk%elem_of_elements. set_solver.
  - intros v. unfold GetVertices. rewrite list_elem_of_fmap. split.
    + intros ([k v'] & -> & Hin%elem_of_map_to_list). eauto.
    + intros [k Hk]. exists (k, v). by rewrite elem_of_map_to_list.
  - unfold GetVertices. rewrite <- list_fmap_compose.
    rewrite (list_fmap_ext _ fst).
    + apply NoDup_fst_map_to_list.
    + intros i [k v] Hi%list_elem_of_lookup_2%elem_of_map_to_list.
      simpl. by apply (Hids k v).
  - unfold GetVertices. by rewrite length_fmap, length_map_to_list.
Qed.

(** ** The search and its fuel *)

Lemma dfs_range_more (vs : gmap string (Vertex Payload)) name rec rec' ps :
  (∀ vis k r, rec vis k = Some r → rec' vis k = Some r) →
  ∀ vis r, dfs_range vs name rec ps vis = Some r →
           dfs_range vs name rec' ps vis = Some r.
Proof.
  intros Hrec. induction ps as [|p ps IH]; intros vis r; simpl; [done|].
  destruct (vs !! p) as [px|]; [|by apply IH].
  case_decide; [by apply IH|].
  destruct (rec vis p) as [[[] vis1]|] eqn:Hp; [| |done];
    rewrite (Hrec _ _ _ Hp); [done|by apply IH].
Qed.

Lemma dfs_more_fuel (vs : gmap string (Vertex Payload)) name target fuel :
  ∀ fuel' vis k r, (fuel ≤ fuel')%nat →
                   dfs vs name target fuel vis k = Some r →
                   dfs vs name target fuel' vis k = Some r.
Proof.
  induction fuel as [|fuel IH]; intros fuel' vis k r Hle; simpl; [done|].
  destruct fuel' as [|fuel']; [lia|]. simpl.
  destruct (vs !! k) as [v|]; [|done]. case_decide; [done|].
  apply dfs_range_more. intros vis1 k1 r1. apply IH. lia.
Qed.

(** X7. The ancestor search of [wouldCreateCycle] and of [checkPreference]
    terminates on every DAG whose vertices are stored under their IDs,
    cyclic or not: from an empty [visited] map a recursion depth of one
    more than the number of vertices is enough, and a larger bound gives
    the same answer. *)
Theorem search_terminates d target k (fuel : nat) :
  ids_ok d → (S (size (vertices d)) ≤ fuel)%nat →
  (∃ r, dfs (vertices d) by_ID target (S (size (vertices d))) ∅ k = Some r ∧
        dfs (vertices d) by_ID target fuel ∅ k = Some r) ∧
  (∃ r, dfs (vertices d) by_key target (S (size (vertices d))) ∅ k = Some r ∧
        dfs (vertices d) by_key target fuel ∅ k = Some r).
Proof.
  intros Hids Hfuel. split.
  - destruct (dfs_fuel_enough_by_ID d target k Hids) as [r Hr].
    exists r. split; [done|]. by eapply dfs_more_fuel.
  - destruct (dfs_fuel_enough_by_key d target k Hids) as [r Hr].
    exists r. split; [done|]. by eapply dfs_more_fuel.
Qed.

(** X20. [AddEdge] does not keep the store acyclic: in an acyclic DAG the
    edge whose child is an ancestor of its parent, the edge that closes a
    cycle, is accepted, and afterwards the child is its own ancestor. *)
Theorem AddEdge_closes_cycle d parentID childID :
  ids_ok d → acyclic d → childID ∈ dom (vertices d) →
  ancestor d childID parentID →
  (AddEdge d parentID childID).2 = None ∧
  ancestor (AddEdge d parentID childID).1 childID childID ∧
  ¬ acyclic (AddEdge d parentID childID).1.
Proof.
  intros Hids Hacyc Hc Hanc.
  destruct (AddEdge_accepts_cycle d parentID childID Hids Hacyc Hc Hanc)
    as [Hok Hloop].
  split_and!; [done..|]. intros Hno. by apply (Hno childID).
Qed.

End store_facts.

(** ** The theorems on the DAG of the scenario S3 *)

Ltac by_computation := apply (bool_decide_unpack _); vm_compute; exact I.

(** The vertex [b] of S3, between [a] and [c], is removed. *)
Lemma RemoveVertex_detaches_S3 :
  match vertices Scenario.s3 !! "b" with
  | None => RemoveVertex Scenario.s3 "b" = (Scenario.s3, Some ErrVertexNotFound)
  | Some r =>
      (RemoveVertex Scenario.s3 "b").2 = None ∧
      GetVertex (RemoveVertex Scenario.s3 "b").1 "b" = inr ErrVertexNotFound ∧
      dom (vertices (RemoveVertex Scenario.s3 "b").1)
        = dom (vertices Scenario.s3) ∖ {["b"]} ∧
      (∀ k w, vertices (RemoveVertex Scenario.s3 "b").1 !! k = Some w →
              ("b" ∉ Parents w) ∧ "b" ∉ Children w) ∧
      (∀ c w, c ∈ Children r → vertices Scenario.s3 !! c = Some w →
              Parents w = {["b"]} → c ∈ roots (RemoveVertex Scenario.s3 "b").1) ∧
      (∀ k w, vertices Scenario.s3 !! k = Some w → k ≠ "b" →
              k ∉ Parents r → k ∉ Children r →
              vertices (RemoveVertex Scenario.s3 "b").1 !! k = Some w)
  end.
Proof.
  apply (RemoveVertex_detaches Scenario.s3 "b"). by_computation.
Defined.

(** After [b] is removed from S3, [c] is a root beside [a]. *)
Lemma RemoveVertex_S3_roots :
  roots (RemoveVertex Scenario.s3 "b").1 = {["a"; "c"]} ∧
  roots Scenario.s3 = {["a"]}.
Proof. split; apply (bool_decide_unpack _); vm_compute; exact I. Qed.

Lemma AddEdge_errors_S3 :
  ((AddEdge Scenario.s3 "a" "zz").2 = Some ErrVertexNotFound ↔
   "a" ∉ dom (vertices Scenario.s3) ∨ "zz" ∉ dom (vertices Scenario.s3)) ∧
  ((AddEdge Scenario.s3 "a" "zz").2 = Some ErrWouldCreateCycle ↔
   "a" ∈ dom (vertices Scenario.s3) ∧ "zz" ∈ dom (vertices Scenario.s3) ∧
   ("zz" = "a" ∨ ancestor Scenario.s3 "a" "zz")) ∧
  (AddEdge Scenario.s3 "a" "zz").2 ≠ Some ErrVertexAlreadyExists ∧
  ((AddEdge Scenario.s3 "a" "zz").2 ≠ None →
   (AddEdge Scenario.s3 "a" "zz").1 = Scenario.s3).
Proof. apply (AddEdge_errors Scenario.s3 "a" "zz"). by_computation. Defined.

(** In the DAG of S3 without its last edge, the edge b→c is added, then
    asked for again. *)
Lemma AddEdge_twice_S3 :
  (∃ vp vc,
     vertices Scenario.s3_open !! "b" = Some vp ∧
     vertices Scenario.s3_open !! "c" = Some vc ∧
     vertices Scenario.s3 !! "b"
       = Some (with_Children (λ cs, {["c"]} ∪ cs) vp) ∧
     vertices Scenario.s3 !! "c"
       = Some (with_Parents (λ ps, {["b"]} ∪ ps) vc)) ∧
  (∀ k, k ≠ "b" → k ≠ "c" →
        vertices Scenario.s3 !! k = vertices Scenario.s3_open !! k) ∧
  roots Scenario.s3 = roots Scenario.s3_open ∖ {["c"]} ∧
  AddEdge Scenario.s3 "b" "c" = (Scenario.s3, Some ErrWouldCreateCycle).
Proof.
  apply (AddEdge_twice Scenario.s3_open "b" "c" Scenario.s3).
  - by_computation.
  - vm_compute. reflexivity.
Defined.

Lemma RemoveVertex_AddVertex_S3 :
  RemoveVertex (AddVertex Scenario.s3 "d" "D"%string).1 "d"
  = (Scenario.s3, None).
Proof.
  apply (RemoveVertex_AddVertex Scenario.s3 "d" "D"%string).
  - by_computation.
  - vm_compute. reflexivity.
Defined.

Lemma listings_complete_S3 :
  (∀ v, v ∈ GetRoots Scenario.s3 ↔
        ∃ k, vertices Scenario.s3 !! k = Some v ∧ Parents v = ∅) ∧
  ID <$> GetRoots Scenario.s3 = elements (roots Scenario.s3) ∧
  (∀ v, v ∈ GetVertices Scenario.s3 ↔
        ∃ k, vertices Scenario.s3 !! k = Some v) ∧
  NoDup (ID <$> GetVertices Scenario.s3) ∧
  length (GetVertices Scenario.s3) = size (vertices Scenario.s3).
Proof. apply (listings_complete Scenario.s3). by_computation. Defined.

(** The search on the cyclic DAG left by [AddEdge(c, a)] in S3. *)
Lemma search_terminates_cyclic :
  (∃ r, dfs (vertices Scenario.s3_cyclic) by_ID "zz"
            (S (size (vertices Scenario.s3_cyclic))) ∅ "a" = Some r ∧
        dfs (vertices Scenario.s3_cyclic) by_ID "zz" 10 ∅ "a" = Some r) ∧
  (∃ r, dfs (vertices Scenario.s3_cyclic) by_key "zz"
            (S (size (vertices Scenario.s3_cyclic))) ∅ "a" = Some r ∧
        dfs (vertices Scenario.s3_cyclic) by_key "zz" 10 ∅ "a" = Some r).
Proof.
  apply (search_terminates Scenario.s3_cyclic "zz" "a" 10).
  - by_computation.
  - vm_compute. lia.
Defined.

(** In S3 the vertex [a] is an ancestor of [c]: the edge c→a closes a
    cycle and is accepted. *)
Lemma AddEdge_closes_cycle_S3 :
  (AddEdge Scenario.s3 "c" "a").2 = None ∧
  ancestor (AddEdge Scenario.s3 "c" "a").1 "a" "a" ∧
  ¬ acyclic (AddEdge Scenario.s3 "c" "a").1.
Proof.
  apply (AddEdge_closes_cycle Scenario.s3 "c" "a").
  - by_computation.
  - apply S3_acyclic.
  - by_computation.
  - eapply (ancestor_step _ "c" _ "b"); [by vm_compute|by vm_compute|].
    eapply (ancestor_parent _ "b"); by vm_compute.
Defined.

End DagExtra.

(** * Further properties of the consensus engine *)
Module ConsensusExtra.

Import Dag Consensus DagSpec ConsensusSpec DagExtra.

Section engine_facts.

Context {Payload : Type} `{!GoData Payload}.
Variable oracle : nat → Z.

Implicit Types (a : Avalanche Payload) (d : DAG Payload)
               (v w : Vertex Payload) (id k pid : string)
               (s : Avalanche Payload * nat) (o : Consensus.op Payload).

(** ** A new vertex and its ancestors *)

Lemma ancestor_closed d x k : closed d → ancestor d x k → x ∈ dom (vertices d).
Proof.
  intros [_ Hclosed]. induction 1 as [k v p Hk Hp|k v p q Hk Hp _ IH]; [|done].
  destruct (Hclosed k v Hk) as [Hps _]. set_solver.
Qed.

Lemma linked_lookup d0 id data ps d' k v' :
  linked d0 id data ps d' → vertices d' !! k = Some v' → k ≠ id →
  ∃ v0, vertices d0 !! k = Some v0 ∧ Parents v' = Parents v0 ∧ ID v' = ID v0.
Proof.
  intros (_ & Hothers & _) Hk Hne. rewrite (Hothers k Hne) in Hk.
  destruct (vertices d0 !! k) as [v0|]; [|done]. simpl in Hk.
  exists v0. split; [done|]. destruct v0. by case_decide; simplify_eq.
Qed.

Lemma linked_lookup_old d0 id data ps d' k v0 :
  linked d0 id data ps d' → vertices d0 !! k = Some v0 → k ≠ id →
  ∃ v', vertices d' !! k = Some v' ∧ Parents v' = Parents v0.
Proof.
  intros (_ & Hothers & _) Hk Hne. rewrite (Hothers k Hne), Hk. simpl.
  eexists. split; [done|]. case_decide; by destruct v0.
Qed.

Lemma linked_dom d0 id data ps d' :
  linked d0 id data ps d' →
  dom (vertices d') = {[id]} ∪ dom (vertices d0).
Proof.
  intros (Hid & Hothers & _). apply set_eq. intros k.
  rewrite elem_of_union, elem_of_singleton, !elem_of_dom.
  destruct (decide (k = id)) as [->|Hne].
  - rewrite Hid. naive_solver.
  - rewrite (Hothers k Hne), fmap_is_Some. naive_solver.
Qed.

Lemma linked_ids_ok d0 id data ps d' :
  linked d0 id data ps d' → ids_ok d0 → ids_ok d'.
Proof.
  intros Hl Hids k v' Hk. destruct (decide (k = id)) as [->|Hne].
  - destruct Hl as (Hid & _). rewrite Hid in Hk. by simplify_eq.
  - destruct (linked_lookup _ _ _ _ _ _ _ Hl Hk Hne) as (v0 & Hv0 & _ & ->).
    by apply (Hids k v0).
Qed.

(** The ancestors of the vertices of [d0] are unchanged; those of the new
    vertex are its parents and their ancestors. *)
Lemma linked_ancestor d0 id data ps d' x k :
  linked d0 id data ps d' → closed d0 → vertices d0 !! id = None →
  ancestor d' x k ↔
  (k ≠ id ∧ ancestor d0 x k) ∨
  (k = id ∧ (x ∈ ps ∨ ∃ q, q ∈ ps ∧ ancestor d0 x q)).
Proof.
  intros Hl Hclosed Hfresh. apply not_elem_of_dom in Hfresh.
  pose proof Hl as (Hid & _ & _ & Hself). split.
  - induction 1 as [k v p Hk Hp|k v p q Hk Hp _ IH].
    + destruct (decide (k = id)) as [->|Hne].
      * rewrite Hid in Hk. simplify_eq. right. auto.
      * destruct (linked_lookup _ _ _ _ _ _ _ Hl Hk Hne) as (v0 & Hv0 & Hps & _).
        left. split; [done|]. eapply ancestor_parent; [done|]. by rewrite <- Hps.
    + destruct (decide (k = id)) as [->|Hne].
      * rewrite Hid in Hk. simplify_eq. simpl in Hp. right. split; [done|].
        destruct IH as [[_ IH]|[-> _]]; [|done]. right. eauto.
      * destruct (linked_lookup _ _ _ _ _ _ _ Hl Hk Hne) as (v0 & Hv0 & Hps & _).
        rewrite Hps in Hp. left. split; [done|].
        destruct IH as [[_ IH]|[-> _]].
        -- by eapply ancestor_step.
        -- destruct Hclosed as [_ Hc]. destruct (Hc k v0 Hv0). set_solver.
  - assert (∀ y z, ancestor d0 y z → ancestor d' y z) as Hold.
    { induction 1 as [z v0 p Hz Hp|z v0 p q Hz Hp _ IH];
        (assert (z ≠ id) as Hne
           by (intros ->; by apply elem_of_dom_2 in Hz));
        destruct (linked_lookup_old _ _ _ _ _ _ _ Hl Hz Hne) as (v' & Hv' & Hps).
      - eapply ancestor_parent; [done|]. by rewrite Hps.
      - eapply ancestor_step; [done| |done]. by rewrite Hps. }
    intros [[_ H]|[-> [Hx|(q & Hq & H)]]].
    + by apply Hold.
    + by eapply ancestor_parent.
    + eapply ancestor_step; [done|done|]. by apply Hold.
Qed.

(** ** When [AddVertex] succeeds, and what it leaves *)

Lemma link_parents_linked d0 id data parentIDs :
  ∀ ps d, linked d0 id data ps d →
          (link_parents d id parentIDs).2 = None →
          linked d0 id data (list_to_set parentIDs ∪ ps)
                 (link_parents d id parentIDs).1.
Proof.
  induction parentIDs as [|pid rest IH]; intros ps d Hl; simpl.
  { intros _. by rewrite union_empty_l_L. }
  destruct (AddEdge d pid id) as [d' [e|]] eqn:Hedge; simpl; [done|].
  intros Hok. pose proof (linked_AddEdge _ _ _ _ _ _ _ Hl Hedge) as Hl'.
  specialize (IH _ _ Hl' Hok).
  by replace ({[pid]} ∪ list_to_set rest ∪ ps)
    with (list_to_set rest ∪ ({[pid]} ∪ ps)) by set_solver.
Qed.

Lemma link_parents_roots id parentIDs :
  ∀ d, (link_parents d id parentIDs).2 = None →
       roots (link_parents d id parentIDs).1
       = match parentIDs with [] => roots d | _ => roots d ∖ {[id]} end.
Proof.
  induction parentIDs as [|pid rest IH]; intros d; simpl; [done|].
  destruct (AddEdge d pid id) as [d' [e|]] eqn:Hedge; simpl; [done|].
  intros Hok. rewrite (IH d' Hok).
  apply AddEdge_success_lookup in Hedge as (_ & -> & _).
  destruct rest; set_solver.
Qed.

Lemma link_parents_stored id parentIDs :
  ∀ d, (link_parents d id parentIDs).2 = None →
       ∀ pid, pid ∈ parentIDs → pid ∈ dom (vertices d).
Proof.
  induction parentIDs as [|p rest IH]; intros d; simpl.
  { by intros _ ? ?%elem_of_nil. }
  destruct (AddEdge d p id) as [d' [e|]] eqn:Hedge; simpl; [done|].
  intros Hok pid [->|Hin]%elem_of_cons.
  - by apply AddEdge_success_lookup in Hedge as (_ & _ & Hp & _).
  - rewrite <- (dom_AddEdge d p id), Hedge. by apply IH.
Qed.

Lemma link_parents_admissible d0 id data parentIDs :
  wf d0 → vertices d0 !! id = None →
  ∀ ps d, linked d0 id data ps d →
          (link_parents d id parentIDs).2 = None ↔
          admissible d0 id ps parentIDs.
Proof.
  intros (Hids & Hclosed & _) Hfresh.
  induction parentIDs as [|pid rest IH]; intros ps d Hl; simpl; [done|].
  pose proof (linked_dom _ _ _ _ _ Hl) as Hdom.
  pose proof (linked_ids_ok _ _ _ _ _ Hl Hids) as Hids'.
  assert (id ∈ dom (vertices d)) as Hidd by set_solver.
  apply not_elem_of_dom in Hfresh as Hnotin.
  destruct (decide (pid ∈ dom (vertices d))) as [Hp|Hp].
  - pose proof (AddEdge_decides d pid id Hids' Hp Hidd) as Hdec.
    rewrite (linked_ancestor _ _ _ _ _ pid id Hl Hclosed Hfresh) in Hdec.
    destruct (AddEdge d pid id) as [d' [e|]] eqn:Hedge; simpl in *.
    + split; [done|]. intros (Hst & Hne & Hnl & Hanc & _).
      assert (e = ErrWouldCreateCycle) as ->.
      { unfold AddEdge in Hedge.
        apply elem_of_dom in Hp as [? Hp]. apply elem_of_dom in Hidd as [? Hi].
        rewrite Hp, Hi in Hedge. by destruct (wouldCreateCycle d pid id);
          simplify_eq. }
      destruct Hdec as [Hdec _]. specialize (Hdec eq_refl). exfalso.
      destruct Hdec as [Heq|[[? _]|[_ [?|(q & Hq & Hqa)]]]]; try done.
      by apply (Hanc q).
    + rewrite (IH _ _ (linked_AddEdge _ _ _ _ _ _ _ Hl Hedge)).
      assert (¬ (id = pid ∨ (id ≠ id ∧ ancestor d0 pid id) ∨
                 (id = id ∧ (pid ∈ ps ∨ ∃ q, q ∈ ps ∧ ancestor d0 pid q))))
        as Hno.
      { intros H. by apply Hdec in H. }
      split; [|by intros (_ & _ & _ & _ & ?)]. intros Hrest.
      split_and!; try done.
      * rewrite Hdom in Hp. set_solver.
      * intros ->. apply Hno. by left.
      * intros Hin. apply Hno. right. right. auto.
      * intros q Hq Hqa. apply Hno. right. right. split; [done|]. right. eauto.
  - assert ((AddEdge d pid id).2 ≠ None) as Herr.
    { unfold AddEdge. apply not_elem_of_dom in Hp. by rewrite Hp. }
    destruct (AddEdge d pid id) as [d' [e|]] eqn:Hedge; simpl in *; [|done].
    split; [done|]. intros (Hst & Hne & _). rewrite Hdom in Hp. set_solver.
Qed.

(** The two outcomes of [AddVertex] for a new id. *)
Lemma AddVertex_outcome a id data parentIDs :
  wf (dag a) → vertices (dag a) !! id = None →
  (admissible (dag a) id ∅ parentIDs ∧
   ∃ d', AddVertex a id data parentIDs
         = (mkAvalanche d' (params a) (<[id := 0]> (pending a)) (finalized a),
            inl (mkVertex id data (list_to_set parentIDs) ∅ false 0 false)) ∧
         linked (dag a) id data (list_to_set parentIDs) d') ∨
  (¬ admissible (dag a) id ∅ parentIDs ∧
   ∃ err, AddVertex a id data parentIDs = (a, inr err)).
Proof.
  intros Hwf Hfresh. pose proof Hwf as (_ & [Hroots Hclosed] & _).
  assert (Hchild : ∀ k v, vertices (dag a) !! k = Some v → id ∉ Children v).
  { intros k v Hk Hin. apply not_elem_of_dom in Hfresh.
    destruct (Hclosed k v Hk) as [_ Hc']. set_solver. }
  assert (id ∉ roots (dag a)) as Hroot.
  { apply not_elem_of_dom in Hfresh. set_solver. }
  destruct (linked_AddVertex (dag a) id data Hfresh Hroot) as [Hadd Hlinked].
  pose proof (link_parents_linked (dag a) id data parentIDs ∅ _ Hlinked) as Hl.
  pose proof (λ e, link_parents_rollback (dag a) id data parentIDs Hfresh
                     Hchild ∅ _ e Hlinked) as Hback.
  pose proof (link_parents_admissible (dag a) id data parentIDs Hwf Hfresh
                ∅ _ Hlinked) as Hadm.
  unfold AddVertex. rewrite Hadd.
  destruct (link_parents (Dag.AddVertex (dag a) id data).1 id parentIDs)
    as [d2 [e|]] eqn:Hlink; simpl in *.
  - right. split; [intros Hyes; by apply Hadm in Hyes|].
    exists e. rewrite (Hback e eq_refl). by destruct a.
  - left. split; [by apply Hadm|]. exists d2.
    specialize (Hl eq_refl). rewrite union_empty_r_L in Hl.
    split; [|done]. destruct Hl as (-> & _). done.
Qed.

(** X8. When [AddVertex] of the engine succeeds, for a well-formed DAG:
    exactly when the id is new and every listed parent is stored, differs
    from the id, and is neither one of the parents listed before it nor an
    ancestor of one of them.  A parent listed twice, or listed after one of
    its descendants, is rejected by the cycle check. *)
Theorem AddVertex_succeeds_iff a id data parentIDs :
  wf (dag a) →
  (∃ v, (AddVertex a id data parentIDs).2 = inl v) ↔
  vertices (dag a) !! id = None ∧ admissible (dag a) id ∅ parentIDs.
Proof.
  intros Hwf. pose proof Hwf as (_ & [Hroots _] & _).
  destruct (vertices (dag a) !! id) as [v0|] eqn:Hfresh.
  { rewrite AddVertex_duplicate by eauto. simpl. naive_solver. }
  assert (id ∉ roots (dag a)) as Hroot.
  { apply not_elem_of_dom in Hfresh. set_solver. }
  destruct (linked_AddVertex (dag a) id data Hfresh Hroot) as [Hadd Hlinked].
  rewrite <- (link_parents_admissible (dag a) id data parentIDs Hwf Hfresh
                ∅ _ Hlinked).
  unfold AddVertex. rewrite Hadd.
  destruct (link_parents _ id parentIDs) as [d2 [e|]]; simpl; naive_solver.
Qed.

(** X9. What a successful [AddVertex] of the engine leaves: the new vertex
    is stored with the given data, the listed parents as its parents, no
    children and no [Finalized] flag; each listed parent has it as a child
    and the other vertices are as they were; it is pending with counter 0;
    it is a root exactly when no parent was listed. *)
Theorem AddVertex_success_state a id data parentIDs v :
  closed (dag a) → (AddVertex a id data parentIDs).2 = inl v →
  v = mkVertex id data (list_to_set parentIDs) ∅ false 0 false ∧
  vertices (dag (AddVertex a id data parentIDs).1) !! id = Some v ∧
  (∀ k, k ≠ id →
        vertices (dag (AddVertex a id data parentIDs).1) !! k
        = (if decide (k ∈ parentIDs)
           then with_Children (λ c, {[id]} ∪ c) else λ w, w)
            <$> vertices (dag a) !! k) ∧
  (∀ pid, pid ∈ parentIDs → pid ∈ dom (vertices (dag a))) ∧
  roots (dag (AddVertex a id data parentIDs).1)
    = match parentIDs with
      | [] => {[id]} ∪ roots (dag a)
      | _ => roots (dag a)
      end ∧
  pending (AddVertex a id data parentIDs).1 = <[id := 0]> (pending a) ∧
  finalized (AddVertex a id data parentIDs).1 = finalized a.
Proof.
  intros [Hroots Hclosed] Hok.
  destruct (vertices (dag a) !! id) as [v0|] eqn:Hfresh.
  { by rewrite AddVertex_duplicate in Hok by eauto. }
  assert (id ∉ roots (dag a)) as Hroot.
  { apply not_elem_of_dom in Hfresh. set_solver. }
  destruct (linked_AddVertex (dag a) id data Hfresh Hroot) as [Hadd Hlinked].
  pose proof (link_parents_linked (dag a) id data parentIDs ∅ _ Hlinked)
    as Hl.
  pose proof (link_parents_roots id parentIDs
                (Dag.AddVertex (dag a) id data).1) as Hr.
  unfold AddVertex in *. rewrite Hadd in *.
  destruct (link_parents (Dag.AddVertex (dag a) id data).1 id parentIDs)
    as [d2 [e|]] eqn:Hlink; simpl in *; [done|].
  rewrite Hlink in Hl, Hr. simpl in Hl, Hr.
  specialize (Hl eq_refl). specialize (Hr eq_refl).
  rewrite union_empty_r_L in Hl.
  pose proof Hl as (Hid & Hothers & _ & _).
  rewrite Hid in Hok. simpl in Hok. simplify_eq.
  split_and!; try done.
  - intros k Hk. rewrite (Hothers k Hk).
    destruct (decide (k ∈ parentIDs)).
    + by rewrite decide_True by set_solver.
    + by rewrite decide_False by set_solver.
  - intros pid Hpid. destruct (decide (pid = id)) as [->|Hne].
    { destruct Hl as (_ & _ & _ & Hself). set_solver. }
    pose proof (link_parents_stored id parentIDs _ ltac:(by rewrite Hlink)
                  pid Hpid) as Hin.
    rewrite dom_AddVertex in Hin. set_solver.
  - rewrite Hr. unfold Dag.AddVertex. rewrite Hfresh. simpl.
    destruct parentIDs; [done|]. set_solver.
Qed.

(** X10. Once an id has been accepted by [AddVertex], submitting it again,
    with any data and any parents, returns [ErrVertexAlreadyExists] and
    leaves the engine as it was. *)
Theorem AddVertex_again a id data parentIDs v data' parentIDs' :
  (AddVertex a id data parentIDs).2 = inl v →
  AddVertex (AddVertex a id data parentIDs).1 id data' parentIDs'
  = ((AddVertex a id data parentIDs).1, inr ErrVertexAlreadyExists).
Proof.
  intros Hok. apply AddVertex_duplicate.
  destruct (AddVertex_effect a id data parentIDs)
    as (_ & _ & [(err & Herr & _)|(w & _ & _ & Hfl & _)]); [congruence|].
  apply (f_equal (λ m, m !! id)) in Hfl. rewrite lookup_insert_eq in Hfl.
  unfold flags in Hfl. rewrite lookup_fmap in Hfl.
  by destruct (vertices (dag (AddVertex a id data parentIDs).1) !! id).
Qed.

(** ** The preference of a sample *)

(** X11. [checkPreference] answers [false], without a random draw, when
    the sample or the target is not stored.  When both are stored it
    answers [true], without a draw, if the target is finalized, is the
    sample itself or one of its ancestors, or if the sample is flagged
    [Preferred]; otherwise it makes exactly one draw below 100 and answers
    whether the draw is below 70. *)
Theorem checkPreference_spec a pos sampleID targetID :
  ids_ok (dag a) →
  match vertices (dag a) !! sampleID, vertices (dag a) !! targetID with
  | Some sv, Some tv =>
      (Finalized tv = true ∨ sampleID = targetID ∨
       ancestor (dag a) targetID sampleID ∨ Preferred sv = true →
       checkPreference oracle a pos sampleID targetID = (true, pos)) ∧
      (¬ (Finalized tv = true ∨ sampleID = targetID ∨
          ancestor (dag a) targetID sampleID ∨ Preferred sv = true) →
       checkPreference oracle a pos sampleID targetID
       = (bool_decide (oracle pos mod 100 < 70), S pos))
  | _, _ => checkPreference oracle a pos sampleID targetID = (false, pos)
  end.
Proof.
  intros Hids. unfold checkPreference, GetVertex.
  destruct (vertices (dag a) !! sampleID) as [sv|] eqn:Hs; [|done].
  destruct (vertices (dag a) !! targetID) as [tv|] eqn:Ht; [|done].
  destruct (dfs_fuel_enough_by_key (dag a) targetID sampleID Hids)
    as [[b vis] Hr].
  rewrite Hr.
  assert (b = true ↔ sampleID = targetID ∨ ancestor (dag a) targetID sampleID)
    as Hb.
  { eapply (dfs_decides (dag a) by_key targetID Hids); [|by eapply elem_of_dom_2..|exact Hr].
    intros k v Hk. unfold by_key. symmetry. by apply Hids. }
  unfold rand_int.
  destruct (Finalized tv), b, (Preferred sv); split; intros H;
    try done; try (exfalso; apply H; tauto).
  all: exfalso; destruct Hb as [Hb1 Hb2].
  all: destruct H as [?|[?|[?|?]]]; try done.
  all: try (by (discriminate Hb2; auto)).
Qed.

(** ** A quorum that cannot be reached *)

Lemma getSamples_length a pos id (n : Z) samples pos' :
  getSamples oracle a pos id n = Some (samples, pos') →
  samples = [] ∨ Z.of_nat (length samples) ≤ n.
Proof.
  unfold getSamples. case_decide; [intros [= <- _]; by left|].
  destruct (GetVertex (dag a) id) as [vertex|]; [|intros [= <- _]; by left].
  case_decide as Hle; [intros [= <- _]; by right|].
  destruct (shuffle oracle _ _ pos) as [shuffled pos1].
  case_decide; [done|]. intros [= <- _]. right.
  rewrite length_take. lia.
Qed.

Lemma count_preferences_le a id samples : ∀ (c : Z) pos,
  c ≤ (count_preferences oracle a id samples c pos).1
    ≤ c + Z.of_nat (length samples).
Proof.
  induction samples as [|x samples IH]; intros c pos; simpl; [lia|].
  destruct (checkPreference oracle a pos x id) as [[] pos1];
    [specialize (IH (c + 1) pos1)|specialize (IH c pos1)]; lia.
Qed.

Lemma processVertex_no_quorum a pos id a' pos' :
  K (params a) < Alpha (params a) →
  processVertex oracle a pos id = Some (a', pos') →
  dag a' = dag a ∧ finalized a' = finalized a ∧ params a' = params a ∧
  (pending a' = pending a ∨ pending a' = <[id := 0]> (pending a)).
Proof.
  intros Hk. unfold processVertex. case_decide; [intros [= <- _]; auto|].
  destruct (getSamples oracle a pos id (K (params a)))
    as [[samples pos1]|] eqn:Hs; [|done].
  case_decide as Hlen; [intros [= <- _]; auto|].
  apply getSamples_length in Hs as [->|Hs]; [done|].
  pose proof (count_preferences_le a id samples 0 pos1) as Hc.
  destruct (count_preferences oracle a id samples 0 pos1) as [n pos2].
  simpl in Hc. rewrite decide_False by lia. intros [= <- _]. simpl. auto.
Qed.

(** X12. When α is larger than K no round can gather α approvals: along
    every sequence of engine operations the set [finalized] stays what it
    was and no vertex gets the [Finalized] flag. *)
Theorem unreachable_quorum_never_finalizes a pos ops s' :
  K (params a) < Alpha (params a) →
  run oracle (a, pos) ops = Some s' →
  finalized s'.1 = finalized a ∧
  ∀ id, flags (dag s'.1) !! id = Some true → flags (dag a) !! id = Some true.
Proof.
  intros Hk Hrun.
  pose (J := λ a' : Avalanche Payload,
          params a' = params a ∧ finalized a' = finalized a ∧
          ∀ id, flags (dag a') !! id = Some true →
                flags (dag a) !! id = Some true).
  assert (J s'.1) as (_ & ? & ?); [|done].
  refine (run_preserves oracle J _ _ ops (a, pos) s' _ Hrun).
  - intros a1 id data parentIDs (Hp & Hf & Hfl). unfold J.
    destruct (AddVertex_effect a1 id data parentIDs)
      as (-> & -> & [(err & _ & -> & _)|(w & _ & Hfresh & -> & _)]);
      split_and!; try done.
    intros k. rewrite lookup_insert. case_decide; [done|]. apply Hfl.
  - intros a1 pos1 id a2 pos2 (Hp & Hf & Hfl) Hstep. unfold J.
    apply processVertex_no_quorum in Hstep as (-> & -> & -> & _);
      [done|by rewrite Hp].
  - done.
Qed.

(** ** What a round changes *)

Lemma skeleton_mark_finalized d id k :
  skeleton <$> vertices (mark_finalized d id) !! k
  = skeleton <$> vertices d !! k.
Proof.
  unfold mark_finalized, GetVertex.
  destruct (vertices d !! id) eqn:Hid; simpl; [|done].
  rewrite lookup_alter. case_decide; subst; [|done].
  by destruct (vertices d !! k) as [[]|].
Qed.

Lemma roots_mark_finalized d id : roots (mark_finalized d id) = roots d.
Proof. unfold mark_finalized. by destruct (GetVertex d id). Qed.

Lemma processVertex_frame a pos id a' pos' :
  processVertex oracle a pos id = Some (a', pos') →
  id ∈ dom (pending a) ∪ finalized a →
  finalized a ⊆ finalized a' ∧
  dom (pending a') ∪ finalized a' = dom (pending a) ∪ finalized a ∧
  (∀ k, skeleton <$> vertices (dag a') !! k
        = skeleton <$> vertices (dag a) !! k) ∧
  roots (dag a') = roots (dag a).
Proof.
  intros Hstep Hid.
  apply processVertex_effect in Hstep
    as (_ & [->|(Hnot & _ & [(-> & -> & c' & -> & _)|(-> & -> & ->)])]);
    [done| |].
  - split_and!; try done. rewrite dom_insert_L. set_solver.
  - split_and!.
    + set_solver.
    + rewrite dom_delete_L. apply set_eq. intros k.
      destruct (decide (k = id)); set_solver.
    + intros k. apply skeleton_mark_finalized.
    + apply roots_mark_finalized.
Qed.

Lemma process_all_frame ids : ∀ a pos a' pos',
  process_all oracle a pos ids = Some (a', pos') →
  (∀ id, id ∈ ids → id ∈ dom (pending a) ∪ finalized a) →
  finalized a ⊆ finalized a' ∧
  dom (pending a') ∪ finalized a' = dom (pending a) ∪ finalized a ∧
  (∀ k, skeleton <$> vertices (dag a') !! k
        = skeleton <$> vertices (dag a) !! k) ∧
  roots (dag a') = roots (dag a).
Proof.
  induction ids as [|id ids IH]; intros a pos a' pos'; simpl.
  { by intros [= <- _] _. }
  destruct (processVertex oracle a pos id) as [[a1 pos1]|] eqn:Hstep; [|done].
  intros Hrest Hids.
  apply processVertex_frame in Hstep as (Hf1 & Hu1 & Hs1 & Hr1);
    [|apply Hids; by left].
  apply IH in Hrest as (Hf2 & Hu2 & Hs2 & Hr2).
  - split_and!; [set_solver|congruence| |congruence].
    intros k. by rewrite Hs2, Hs1.
  - intros id' Hin. rewrite Hu1. apply Hids. by right.
Qed.

(** X13. A consensus round only moves ids from [pending] to [finalized]:
    the set [finalized] grows, the ids that are pending or finalized are
    the same as before, and in the DAG only [Finalized] flags change (the
    ID, data, parents, children, [Preferred] and [Color] of every vertex,
    and the roots, are as they were). *)
Theorem consensusRound_frame a pos a' pos' :
  consensusRound oracle a pos = Some (a', pos') →
  finalized a ⊆ finalized a' ∧
  dom (pending a') ∪ finalized a' = dom (pending a) ∪ finalized a ∧
  (∀ k, skeleton <$> vertices (dag a') !! k
        = skeleton <$> vertices (dag a) !! k) ∧
  roots (dag a') = roots (dag a).
Proof.
  intros Hround. apply (process_all_frame _ _ _ _ _ Hround).
  intros id Hin. apply elem_of_union_l, elem_of_dom.
  apply list_elem_of_fmap in Hin as ([k c] & -> & Hin).
  apply elem_of_map_to_list in Hin. eauto.
Qed.

(** ** The states the engine reaches *)

Lemma covered_AddVertex a id data parentIDs :
  covered a → covered (AddVertex a id data parentIDs).1.
Proof.
  unfold covered. rewrite <- !dom_flags. intros Hc.
  destruct (AddVertex_effect a id data parentIDs)
    as (_ & -> & [(err & _ & -> & ->)|(w & _ & _ & -> & ->)]); [done|].
  rewrite !dom_insert_L, Hc. set_solver.
Qed.

Lemma covered_processVertex a pos id a' pos' :
  covered a → processVertex oracle a pos id = Some (a', pos') → covered a'.
Proof.
  unfold covered. intros Hc Hstep.
  apply processVertex_effect in Hstep
    as (_ & [->|(Hnot & Hin & [(-> & -> & c' & -> & _)|(-> & -> & ->)])]);
    [done| |]; apply elem_of_dom in Hin.
  - rewrite dom_insert_L. set_solver.
  - rewrite dom_mark_finalized, dom_delete_L, Hc. apply set_eq. intros k.
    destruct (decide (k = id)); set_solver.
Qed.

Lemma finalized_flagged_AddVertex a id data parentIDs :
  state_ok a → finalized_flagged a →
  finalized_flagged (AddVertex a id data parentIDs).1.
Proof.
  intros (_ & _ & Hsub) Hff. unfold finalized_flagged.
  destruct (AddVertex_effect a id data parentIDs)
    as (_ & -> & [(err & _ & -> & _)|(w & _ & Hfresh & -> & _)]); [done|].
  intros k Hk. rewrite lookup_insert_ne; [by apply Hff|].
  intros ->. apply not_elem_of_dom in Hfresh. set_solver.
Qed.

Lemma finalized_flagged_processVertex a pos id a' pos' :
  finalized_flagged a → processVertex oracle a pos id = Some (a', pos') →
  finalized_flagged a'.
Proof.
  intros Hff Hstep. unfold finalized_flagged.
  apply processVertex_effect in Hstep
    as (_ & [->|(Hnot & [w Hw] & [(-> & -> & _)|(-> & -> & _)])]);
    [done|done|].
  intros k Hk. rewrite flags_mark_finalized, lookup_alter.
  case_decide; subst.
  - unfold flags. by rewrite lookup_fmap, Hw.
  - apply Hff. set_solver.
Qed.

Lemma symmetric_mark_finalized d id :
  store_inv d → store_inv (mark_finalized d id).
Proof.
  intros (Hwf & Hsym & Hroots). split_and!; [by apply wf_mark_finalized|..].
  - unfold mark_finalized, GetVertex.
    destruct (vertices d !! id) as [v0|] eqn:Hid; simpl; [|done].
    intros p vp' Hp c vc' Hc.
    apply alter_lookup_Some in Hp as (vp & Hp & Hvp).
    apply alter_lookup_Some in Hc as (vc & Hc & Hvc).
    specialize (Hsym p vp Hp c vc Hc). simpl in Hsym.
    by destruct Hvp as [->| ->], Hvc as [->| ->].
  - apply roots_ok_alt. rewrite roots_ok_alt in Hroots.
    intros k. rewrite roots_mark_finalized, Hroots.
    pose proof (skeleton_mark_finalized d id k) as Hsk.
    destruct (vertices (mark_finalized d id) !! k) as [[]|],
             (vertices d !! k) as [[]|]; simplify_eq/=; naive_solver.
Qed.

Lemma acyclic_mark_finalized d id : acyclic d → acyclic (mark_finalized d id).
Proof.
  intros Hac.
  assert (∀ x k, ancestor (mark_finalized d id) x k → ancestor d x k) as Hsame.
  { induction 1 as [k v' p Hk Hp|k v' p q Hk Hp _ IH];
      pose proof (skeleton_mark_finalized d id k) as Hsk;
      rewrite Hk in Hsk; destruct (vertices d !! k) as [v|] eqn:Hv;
      simplify_eq/=; destruct v, v'; simplify_eq/=.
    - by eapply ancestor_parent.
    - by eapply ancestor_step. }
  intros k Hk. by apply (Hac k), Hsame.
Qed.

Lemma AddVertex_dag a id data parentIDs :
  closed (dag a) →
  dag (AddVertex a id data parentIDs).1 = dag a ∨
  (vertices (dag a) !! id = None ∧
   (link_parents (Dag.AddVertex (dag a) id data).1 id parentIDs).2 = None ∧
   dag (AddVertex a id data parentIDs).1
   = (link_parents (Dag.AddVertex (dag a) id data).1 id parentIDs).1 ∧
   ∃ ps, linked (dag a) id data ps (dag (AddVertex a id data parentIDs).1)).
Proof.
  intros [Hroots Hclosed].
  destruct (vertices (dag a) !! id) as [v0|] eqn:Hfresh.
  { left. by rewrite AddVertex_duplicate by eauto. }
  assert (Hchild : ∀ k v, vertices (dag a) !! k = Some v → id ∉ Children v).
  { intros k v Hk Hin. apply not_elem_of_dom in Hfresh.
    destruct (Hclosed k v Hk) as [_ Hc']. set_solver. }
  assert (id ∉ roots (dag a)) as Hroot.
  { apply not_elem_of_dom in Hfresh. set_solver. }
  destruct (linked_AddVertex (dag a) id data Hfresh Hroot) as [Hadd Hlinked].
  pose proof (link_parents_linked (dag a) id data parentIDs ∅ _ Hlinked) as Hl.
  pose proof (λ e, link_parents_rollback (dag a) id data parentIDs Hfresh
                     Hchild ∅ _ e Hlinked) as Hback.
  unfold AddVertex. rewrite Hadd.
  destruct (link_parents (Dag.AddVertex (dag a) id data).1 id parentIDs)
    as [d2 [e|]] eqn:Hlink; simpl in *.
  - left. by apply (Hback e).
  - right. split_and!; [done|by rewrite Hlink..|eauto].
Qed.

(** What holds of every engine reached from a new engine over a new
    DAG. *)
Lemma reachable_engine p pos ops s' :
  run oracle (NewAvalanche NewDAG p, pos) ops = Some s' →
  state_ok s'.1 ∧ flags_ok s'.1 ∧ covered s'.1 ∧ finalized_flagged s'.1 ∧
  store_inv (dag s'.1) ∧ acyclic (dag s'.1).
Proof.
  intros Hrun.
  pose (J := λ a : Avalanche Payload,
          state_ok a ∧ flags_ok a ∧ covered a ∧ finalized_flagged a ∧
          store_inv (dag a) ∧ acyclic (dag a)).
  refine (run_preserves oracle J _ _ ops _ s' _ Hrun).
  - intros a id data parentIDs (Hs & Hf & Hc & Hff & Hst & Hac). unfold J.
    split_and!.
    + by apply state_ok_AddVertex.
    + by apply flags_ok_AddVertex.
    + by apply covered_AddVertex.
    + by apply finalized_flagged_AddVertex.
    + pose proof Hst as ((_ & Hcl & _) & _).
      destruct (AddVertex_dag a id data parentIDs Hcl)
        as [->|(_ & Hok & -> & _)]; [done|].
      apply (link_parents_success store_inv id); [|by apply store_inv_AddVertex|done].
      intros d pid ?. by apply store_inv_AddEdge.
    + pose proof Hst as ((_ & Hcl & _) & _).
      destruct (AddVertex_dag a id data parentIDs Hcl)
        as [->|(Hfresh & _ & _ & ps & Hl)]; [done|].
      intros k Hk.
      apply (linked_ancestor _ _ _ _ _ k k Hl Hcl Hfresh) in Hk
        as [[_ Hk]|[-> [Hk|(q & Hq & Hk)]]].
      * by apply (Hac k).
      * destruct Hl as (_ & _ & _ & Hself). done.
      * apply (ancestor_closed _ _ _ Hcl) in Hk.
        by apply not_elem_of_dom in Hfresh.
  - intros a pos1 id a' pos2 (Hs & Hf & Hc & Hff & Hst & Hac) Hstep. unfold J.
    split_and!.
    + by eapply state_ok_processVertex.
    + by eapply flags_ok_processVertex.
    + by eapply covered_processVertex.
    + by eapply finalized_flagged_processVertex.
    + apply processVertex_effect in Hstep
        as (_ & [->|(_ & _ & [(-> & _)|(-> & _)])]); try done.
      by apply symmetric_mark_finalized.
    + apply processVertex_effect in Hstep
        as (_ & [->|(_ & _ & [(-> & _)|(-> & _)])]); try done.
      by apply acyclic_mark_finalized.
  - unfold J, NewAvalanche, covered, finalized_flagged, flags_ok, flags.
    simpl. split_and!.
    + apply state_ok_NewAvalanche.
    + rewrite fmap_empty. apply map_Forall_empty.
    + set_solver.
    + apply set_Forall_empty.
    + apply store_inv_NewDAG.
    + intros k Hk. apply ancestor_stored in Hk. set_solver.
Qed.

(** X14. In every state the engine reaches from a new engine over a new
    DAG, the queries agree with the DAG: for a stored vertex [IsFinalized]
    is its [Finalized] flag and [IsPending] is the opposite, and for an id
    that is not stored both are false. *)
Theorem queries_agree p pos ops s' id :
  run oracle (NewAvalanche NewDAG p, pos) ops = Some s' →
  match GetVertex (dag s'.1) id with
  | inl v => IsFinalized s'.1 id = Finalized v ∧
             IsPending s'.1 id = negb (Finalized v)
  | inr _ => IsFinalized s'.1 id = false ∧ IsPending s'.1 id = false
  end.
Proof.
  intros Hrun.
  destruct (reachable_engine p pos ops s' Hrun)
    as ((Hdisj & Hpend & Hfin) & Hfl & Hcov & Hff & _ & _).
  unfold GetVertex, IsFinalized, IsPending. unfold covered in Hcov.
  destruct (vertices (dag s'.1) !! id) as [v|] eqn:Hv.
  - assert (id ∈ dom (pending s'.1) ∪ finalized s'.1) as Hin.
    { rewrite <- Hcov. by eapply elem_of_dom_2. }
    destruct (Finalized v) eqn:Hflag; simpl.
    + assert (id ∈ finalized s'.1) as Hf.
      { apply (Hfl id true); [|done]. unfold flags.
        by rewrite lookup_fmap, Hv, <- Hflag. }
      split; [by apply bool_decide_eq_true|].
      apply bool_decide_eq_false. rewrite <- elem_of_dom. set_solver.
    + assert (id ∉ finalized s'.1) as Hf.
      { intros Hf. specialize (Hff id Hf). simpl in Hff. unfold flags in Hff.
        rewrite lookup_fmap, Hv in Hff. simpl in Hff. congruence. }
      split; [by apply bool_decide_eq_false|].
      apply bool_decide_eq_true. rewrite <- elem_of_dom. set_solver.
  - apply not_elem_of_dom in Hv. split.
    + apply bool_decide_eq_false. set_solver.
    + apply bool_decide_eq_false. rewrite <- elem_of_dom. set_solver.
Qed.

(** X15. In every such state [GetFinalized] lists, for each id of
    [finalized] once, the vertex stored under it, and every listed vertex
    is flagged [Finalized]. *)
Theorem GetFinalized_spec p pos ops s' :
  run oracle (NewAvalanche NewDAG p, pos) ops = Some s' →
  ID <$> GetFinalized s'.1 = elements (finalized s'.1) ∧
  length (GetFinalized s'.1) = size (finalized s'.1) ∧
  ∀ v, v ∈ GetFinalized s'.1 ↔
       ∃ id, vertices (dag s'.1) !! id = Some v ∧ Finalized v = true.
Proof.
  intros Hrun.
  destruct (reachable_engine p pos ops s' Hrun)
    as ((_ & _ & Hfin) & Hfl & _ & Hff & ((Hids & _) & _) & _).
  assert (ID <$> GetFinalized s'.1 = elements (finalized s'.1)) as Hlist.
  { apply omap_lookup_ids; [done|]. intros k Hk%elem_of_elements. set_solver. }
  split_and!; [done| |].
  - rewrite <- (length_fmap ID), Hlist. done.
  - intros v. unfold GetFinalized. rewrite list_elem_of_omap. split.
    + intros (id & Hid%elem_of_elements & Hv). exists id. split; [done|].
      specialize (Hff id Hid). simpl in Hff. unfold flags in Hff.
      rewrite lookup_fmap, Hv in Hff. by simplify_eq/=.
    + intros (id & Hv & Hflag). exists id. split; [|done].
      apply elem_of_elements, (Hfl id true); [|done]. unfold flags.
      by rewrite lookup_fmap, Hv, <- Hflag.
Qed.

(** X16. The DAG of every state the engine reaches is acyclic and
    satisfies the invariants of the store: the engine only links a new
    vertex below stored ones, so the edges accepted by [AddEdge] never
    close a cycle there. *)
Theorem engine_dag_acyclic p pos ops s' :
  run oracle (NewAvalanche NewDAG p, pos) ops = Some s' →
  acyclic (dag s'.1) ∧ store_inv (dag s'.1).
Proof.
  intros Hrun.
  by destruct (reachable_engine p pos ops s' Hrun) as (_ & _ & _ & _ & ? & ?).
Qed.

(** While the DAG holds fewer vertices than K the sampler returns no id,
    so a vertex is skipped. *)
Lemma processVertex_below_K a pos id :
  Z.of_nat (size (vertices (dag a))) < K (params a) →
  processVertex oracle a pos id = Some (a, pos).
Proof.
  intros Hfew. unfold processVertex. case_decide; [done|].
  unfold getSamples. rewrite length_GetVertices.
  by rewrite decide_True by done.
Qed.

(** X30. An engine whose DAG holds fewer vertices than K makes no
    progress: every [processVertex] and every consensus round leaves it
    exactly as it was and draws no random number, so that nothing is
    finalized before K vertices have been accepted. *)
Theorem below_K_rounds_do_nothing a pos ops :
  Z.of_nat (size (vertices (dag a))) < K (params a) →
  Forall (λ o, ∀ id data parentIDs, o ≠ OpAddVertex id data parentIDs) ops →
  run oracle (a, pos) ops = Some (a, pos).
Proof.
  intros Hfew. induction 1 as [|o ops Ho _ IH]; [done|].
  assert (∀ ids, process_all oracle a pos ids = Some (a, pos)) as Hall.
  { induction ids as [|id ids IHids]; [done|].
    simpl. by rewrite processVertex_below_K. }
  simpl. destruct o as [id data parentIDs|id|]; simpl.
  - by destruct (Ho id data parentIDs).
  - by rewrite processVertex_below_K.
  - unfold consensusRound. by rewrite Hall.
Qed.

End engine_facts.

(** ** The theorems on the engines of the scenarios *)

Import Scenario.

(** In the engine [two], where [a] is the parent of [b], a vertex [c] is
    submitted with the parents [b] then [a]. *)
Lemma AddVertex_succeeds_iff_two :
  (∃ v, (AddVertex two "c" "C"%string ["b"%string; "a"%string]).2 = inl v) ↔
  vertices (dag two) !! "c" = None ∧
  admissible (dag two) "c" ∅ ["b"%string; "a"%string].
Proof.
  apply (AddVertex_succeeds_iff two "c" "C"%string ["b"%string; "a"%string]).
  by_computation.
Defined.

(** The order of the parents decides: [b] then [a] is rejected as a cycle,
    [a] then [b] is accepted, and a parent listed twice is rejected. *)
Lemma AddVertex_parent_order :
  (AddVertex two "c" "C"%string ["b"%string; "a"%string]).2
    = inr ErrWouldCreateCycle ∧
  (AddVertex two "c" "C"%string ["a"%string; "b"%string]).2
    = inl (mkVertex "c" "C"%string {["a"; "b"]} ∅ false 0 false) ∧
  (AddVertex two "c" "C"%string ["a"%string; "a"%string]).2
    = inr ErrWouldCreateCycle.
Proof.
  split_and!.
  - vm_compute. reflexivity.
  - vm_compute. reflexivity.
  - vm_compute. reflexivity.
Qed.

(** [c] is submitted below [a] in the engine [two]. *)
Lemma AddVertex_success_state_two :
  mkVertex "c" "C"%string (list_to_set ["a"%string]) ∅ false 0 false
  = mkVertex "c" "C"%string (list_to_set ["a"%string]) ∅ false 0 false ∧
  vertices (dag (AddVertex two "c" "C"%string ["a"%string]).1) !! "c"
  = Some (mkVertex "c" "C"%string (list_to_set ["a"%string]) ∅ false 0 false) ∧
  (∀ k, k ≠ "c" →
        vertices (dag (AddVertex two "c" "C"%string ["a"%string]).1) !! k
        = (if decide (k ∈ ["a"%string])
           then with_Children (λ c, {["c"]} ∪ c) else λ w, w)
            <$> vertices (dag two) !! k) ∧
  (∀ pid, pid ∈ ["a"%string] → pid ∈ dom (vertices (dag two))) ∧
  roots (dag (AddVertex two "c" "C"%string ["a"%string]).1)
    = roots (dag two) ∧
  pending (AddVertex two "c" "C"%string ["a"%string]).1
    = <["c" := 0]> (pending two) ∧
  finalized (AddVertex two "c" "C"%string ["a"%string]).1 = finalized two.
Proof.
  apply (AddVertex_success_state two "c" "C"%string ["a"%string]).
  - by_computation.
  - vm_compute. reflexivity.
Defined.

(** [a] is submitted to a new engine, then submitted again. *)
Lemma AddVertex_again_new :
  AddVertex (AddVertex two_new "a" "A"%string []).1 "a" "other"%string
            ["zz"%string]
  = ((AddVertex two_new "a" "A"%string []).1, inr ErrVertexAlreadyExists).
Proof.
  eapply (AddVertex_again two_new "a" "A"%string []).
  vm_compute. reflexivity.
Defined.

(** In the engine [two] the sample [b] is asked about its parent [a]. *)
Lemma checkPreference_spec_two :
  match vertices (dag two) !! "b", vertices (dag two) !! "a" with
  | Some sv, Some tv =>
      (Finalized tv = true ∨ "b" = "a" ∨
       ancestor (dag two) "a" "b" ∨ Preferred sv = true →
       checkPreference zeros two 0 "b" "a" = (true, 0%nat)) ∧
      (¬ (Finalized tv = true ∨ "b" = "a" ∨
          ancestor (dag two) "a" "b" ∨ Preferred sv = true) →
       checkPreference zeros two 0 "b" "a"
       = (bool_decide (zeros 0%nat mod 100 < 70), 1%nat))
  | _, _ => checkPreference zeros two 0 "b" "a" = (false, 0%nat)
  end.
Proof. apply (checkPreference_spec zeros two 0 "b" "a"). by_computation. Defined.

(** The parent [a] asked about its child [b] draws a number; a missing
    sample answers [false]. *)
Lemma checkPreference_two_cases :
  checkPreference zeros two 0 "b" "a" = (true, 0%nat) ∧
  checkPreference zeros two 0 "a" "b" = (true, 1%nat) ∧
  checkPreference (λ _, 70) two 0 "a" "b" = (false, 1%nat) ∧
  checkPreference zeros two 0 "zz" "a" = (false, 0%nat).
Proof. vm_compute. done. Qed.

Lemma unreachable_quorum_never_finalizes_starved :
  finalized starved_end.1 = finalized starved ∧
  ∀ id, flags (dag starved_end.1) !! id = Some true →
        flags (dag starved) !! id = Some true.
Proof.
  apply (unreachable_quorum_never_finalizes zeros starved 0 starved_rounds).
  - vm_compute. reflexivity.
  - vm_compute. reflexivity.
Defined.

Lemma consensusRound_frame_two :
  finalized two ⊆ finalized two_round.1 ∧
  dom (pending two_round.1) ∪ finalized two_round.1
    = dom (pending two) ∪ finalized two ∧
  (∀ k, skeleton <$> vertices (dag two_round.1) !! k
        = skeleton <$> vertices (dag two) !! k) ∧
  roots (dag two_round.1) = roots (dag two).
Proof.
  apply (consensusRound_frame zeros two 0 two_round.1 two_round.2).
  vm_compute. reflexivity.
Defined.

Lemma queries_agree_history :
  match GetVertex (dag history_end.1) "a" with
  | inl v => IsFinalized history_end.1 "a" = Finalized v ∧
             IsPending history_end.1 "a" = negb (Finalized v)
  | inr _ => IsFinalized history_end.1 "a" = false ∧
             IsPending history_end.1 "a" = false
  end.
Proof.
  apply (queries_agree zeros two_params 0 history history_end "a").
  vm_compute. reflexivity.
Defined.

(** At the end of the history [a] is finalized and [b] is pending. *)
Lemma history_end_state :
  IsFinalized history_end.1 "a" = true ∧ IsPending history_end.1 "a" = false ∧
  IsFinalized history_end.1 "b" = false ∧ IsPending history_end.1 "b" = true.
Proof. vm_compute. done. Qed.

Lemma GetFinalized_spec_history :
  ID <$> GetFinalized history_end.1 = elements (finalized history_end.1) ∧
  length (GetFinalized history_end.1) = size (finalized history_end.1) ∧
  ∀ v, v ∈ GetFinalized history_end.1 ↔
       ∃ id, vertices (dag history_end.1) !! id = Some v ∧ Finalized v = true.
Proof.
  apply (GetFinalized_spec zeros two_params 0 history history_end).
  vm_compute. reflexivity.
Defined.

Lemma engine_dag_acyclic_history :
  acyclic (dag history_end.1) ∧ store_inv (dag history_end.1).
Proof.
  apply (engine_dag_acyclic zeros two_params 0 history history_end).
  vm_compute. reflexivity.
Defined.

(** The engine that [runSimulation] of [main.go] is left with by
    [RunRandomVertices(100, 5)], under the default parameters (K = 10):
    two vertices, and rounds that do nothing. *)
Lemma below_K_rounds_do_nothing_main :
  run zeros (sim_end, 0%nat)
      [OpConsensusRound; OpProcessVertex "vertex-0"; OpConsensusRound]
  = Some (sim_end, 0%nat).
Proof.
  apply (below_K_rounds_do_nothing zeros sim_end 0
           [OpConsensusRound; OpProcessVertex "vertex-0"; OpConsensusRound]).
  - vm_compute. reflexivity.
  - repeat constructor; done.
Defined.

(** That engine: the call returns it with the two vertices it stored; they
    are pending, none is finalized. *)
Lemma runSimulation_engine :
  Simulation.RunRandomVertices sim_new 100 5
  = Some (sim_end, ["vertex-0"; "vertex-1"]%string) ∧
  dom (pending sim_end) = {[ "vertex-0"; "vertex-1" ]} ∧
  finalized sim_end = ∅ ∧
  length (GetFinalized sim_end) = 0%nat.
Proof.
  split_and!.
  - vm_compute. reflexivity.
  - apply (@bool_decide_unpack _ (gset_eq_dec _ _)). vm_compute. exact I.
  - apply (@bool_decide_unpack _ (gset_eq_dec _ _)). vm_compute. exact I.
  - vm_compute. reflexivity.
Qed.

End ConsensusExtra.

(** * The vertex generator of the simulation service *)
Module SimulationExtra.

Import Dag Consensus Simulation DagSpec ConsensusSpec DagExtra ConsensusExtra.

Implicit Types (a : Avalanche string) (i j count maxParents : Z).

#[local] Coercion Z.of_nat : nat >-> Z.

Lemma vertex_id_inj i j : vertex_id i = vertex_id j → i = j.
Proof.
  unfold vertex_id. intros H. apply (inj _) in H. by apply (inj _) in H.
Qed.

(** The inner loop, for every fuel that covers the iterations left. *)
Lemma parents_loop_spec fuel i maxParents j parents :
  (Z.to_nat (i - j + 1) ≤ fuel)%nat →
  parents_loop fuel i maxParents j parents
  = parents ++ ((λ j', vertex_id (i - j')) <$>
                seqZ j (Z.min maxParents i - j + 1)).
Proof.
  revert j parents.
  induction fuel as [|fuel IH]; intros j parents Hfuel; simpl.
  - rewrite seqZ_nil by lia. by rewrite app_nil_r.
  - destruct (bool_decide (j ≤ maxParents)) eqn:H1;
      [destruct (bool_decide (i - j >= 0)) eqn:H2|]; simpl.
    + apply bool_decide_eq_true in H1, H2.
      rewrite IH by lia. rewrite (seqZ_cons j) by lia. simpl.
      rewrite <- app_assoc. simpl. do 2 f_equal.
      change (list_fmap Z string ?f ?l) with (f <$> l). f_equal. f_equal; lia.
    + apply bool_decide_eq_false in H2.
      rewrite seqZ_nil by lia. by rewrite app_nil_r.
    + apply bool_decide_eq_false in H1.
      rewrite seqZ_nil by lia. by rewrite app_nil_r.
Qed.

Lemma parents_for_closed i maxParents :
  parents_for i maxParents
  = (λ j, vertex_id (i - j)) <$> seqZ 1 (Z.min maxParents i).
Proof.
  unfold parents_for. case_bool_decide.
  - rewrite parents_loop_spec by lia. simpl. do 2 f_equal. lia.
  - by rewrite seqZ_nil by lia.
Qed.

Lemma parents_for_short i maxParents :
  maxParents ≤ 1 ∨ i ≤ 1 →
  parents_for i maxParents
  = if decide (0 < i ∧ 1 ≤ maxParents) then [vertex_id (i - 1)] else [].
Proof.
  intros Hshort. rewrite parents_for_closed. case_decide.
  - by replace (Z.min maxParents i) with 1 by lia.
  - by rewrite seqZ_nil by lia.
Qed.


Lemma vertex_id_generated i (n : nat) :
  vertex_id i ∈ vertex_id <$> seqZ 0 n ↔ 0 ≤ i < n.
Proof.
  rewrite list_elem_of_fmap. split.
  - intros (j & ->%vertex_id_inj & Hj). apply elem_of_seqZ in Hj. lia.
  - intros Hi. exists i. split; [done|]. apply elem_of_seqZ. lia.
Qed.

(** The state after the first [n] iterations, when no iteration lists more
    than one parent. *)
Lemma chain_steps a maxParents (n : nat) :
  wf (dag a) →
  (∀ i, 0 ≤ i < n → vertices (dag a) !! vertex_id i = None) →
  maxParents ≤ 1 ∨ n ≤ 2 →
  ∃ a', foldl (add_generated maxParents) (a, []) (seqZ 0 n)
        = (a', vertex_id <$> seqZ 0 n) ∧
        wf (dag a') ∧
        dom (vertices (dag a'))
        = dom (vertices (dag a)) ∪ list_to_set (vertex_id <$> seqZ 0 n) ∧
        (∀ i, 0 ≤ i < n →
              ∃ v, vertices (dag a') !! vertex_id i = Some v ∧
                   Data v = transaction i ∧
                   Parents v = list_to_set (parents_for i maxParents)) ∧
        (∀ i, 0 ≤ i < n → pending a' !! vertex_id i = Some 0) ∧
        finalized a' = finalized a.
Proof.
  intros Hwf. induction n as [|n IH]; intros Hfresh Hshort.
  { exists a. simpl. split_and!; try done; [set_solver|lia|lia]. }
  destruct IH as (an & Hrun & Hwfn & Hdom & Hstored & Hpend & Hfin).
  { intros i Hi. apply Hfresh. lia. }
  { lia. }
  replace (Z.of_nat (S n)) with (n + 1) by lia.
  rewrite seqZ_app by lia.
  assert (seqZ (0 + n) 1 = [Z.of_nat n]) as ->.
  { unfold seqZ. simpl. f_equal. }
  rewrite foldl_app, Hrun, fmap_app. simpl.
  unfold add_generated at 1. simpl.
  assert (vertices (dag an) !! vertex_id n = None) as Hnew.
  { apply not_elem_of_dom. rewrite Hdom, elem_of_union, elem_of_list_to_set.
    rewrite vertex_id_generated, elem_of_dom, Hfresh by lia.
    intros [[? ?]|?]; [done|lia]. }
  assert (admissible (dag an) (vertex_id n) ∅ (parents_for n maxParents))
    as Hadm.
  { rewrite parents_for_short by lia. case_decide; simpl; [|done].
    split_and!; try done; [|intros ?%vertex_id_inj; lia].
    rewrite Hdom, elem_of_union, elem_of_list_to_set, vertex_id_generated.
    right. lia. }
  destruct (AddVertex_outcome an (vertex_id n) (transaction n)
              (parents_for n maxParents) Hwfn Hnew)
    as [(_ & d' & Hadd & Hl)|(Hno & _)]; [|done].
  pose proof (AddVertex_wf an (vertex_id n) (transaction n)
                (parents_for n maxParents) Hwfn) as Hwf'.
  rewrite Hadd in *. simpl in Hwf'.
  eexists. split; [done|]. simpl.
  pose proof Hl as (Hid & Hothers & _).
  split_and!; try done.
  - rewrite (linked_dom _ _ _ _ _ Hl), Hdom, list_to_set_app_L. set_solver.
  - intros i Hi. destruct (decide (i = n)) as [->|Hne].
    + rewrite Hid. eauto.
    + destruct (Hstored i) as (v & Hv & Hdata & Hparents); [lia|].
      rewrite Hothers, Hv by (intros ?%vertex_id_inj; lia). simpl.
      eexists. split; [done|]. destruct v. by case_decide.
  - intros i Hi. destruct (decide (i = n)) as [->|Hne].
    + by rewrite lookup_insert_eq.
    + rewrite lookup_insert_ne by (intros ?%vertex_id_inj; lia).
      apply Hpend. lia.
Qed.


(** X17. The parents that [RunRandomVertices] lists for the vertex number
    [i] are the ids of the [min(maxParents, i)] vertices generated just
    before it, the nearest first: none for the first vertex or for a
    [maxParents] below 1. *)
Theorem parents_for_spec i maxParents :
  parents_for i maxParents
  = (λ j, vertex_id (i - j)) <$> seqZ 1 (Z.min maxParents i).
Proof.
  unfold parents_for. case_bool_decide as Hi.
  - rewrite (parents_loop_spec (Z.to_nat i) i maxParents 1 []) by lia.
    simpl. do 2 f_equal. lia.
  - rewrite (seqZ_nil 1) by lia. done.
Qed.

(** X18. [RunRandomVertices] panics for a negative [count], on every
    engine.  For a [count] from 0 on, on an engine with a well-formed DAG
    that stores none of the ids to generate, the call with [maxParents] at
    most 1 (or with [count] at most 2) has every vertex accepted: it
    returns the [count] vertices in the order of generation, each one is
    stored with its transaction as data and is pending with counter 0, and
    with [maxParents] at least 1 each vertex but the first has the one
    before it as its only parent. *)
Theorem RunRandomVertices_chain a count maxParents :
  (count < 0 → RunRandomVertices a count maxParents = None) ∧
  (0 ≤ count →
   wf (dag a) →
   (∀ i, 0 ≤ i < count → vertices (dag a) !! vertex_id i = None) →
   maxParents ≤ 1 ∨ count ≤ 2 →
   ∃ a',
     RunRandomVertices a count maxParents
     = Some (a', vertex_id <$> seqZ 0 count) ∧
     dom (vertices (dag a'))
     = dom (vertices (dag a)) ∪ list_to_set (vertex_id <$> seqZ 0 count) ∧
     finalized a' = finalized a ∧
     ∀ i, 0 ≤ i < count →
          pending a' !! vertex_id i = Some 0 ∧
          ∃ v, vertices (dag a') !! vertex_id i = Some v ∧
               Data v = transaction i ∧
               Parents v = if decide (0 < i ∧ 1 ≤ maxParents)
                           then {[vertex_id (i - 1)]} else ∅).
Proof.
  unfold RunRandomVertices.
  split; [intros Hcount; by rewrite decide_True|].
  intros Hcount Hwf Hfresh Hshort. rewrite decide_False by lia.
  destruct (chain_steps a maxParents (Z.to_nat count) Hwf)
    as (a' & Hrun & _ & Hdom & Hstored & Hpend & Hfin).
  { intros i Hi. apply Hfresh. lia. }
  { lia. }
  rewrite Z2Nat.id in * by lia. rewrite Hrun. exists a'.
  split_and!; try done.
  intros i Hi. split; [apply Hpend; lia|].
  destruct (Hstored i) as (v & Hv & Hdata & Hparents); [lia|].
  exists v. split_and!; try done.
  rewrite Hparents, parents_for_short by lia.
  case_decide; simpl; [|done]. set_solver.
Qed.


Import Scenario.

(** No generated id is stored in the engine [two], which holds [a] and
    [b]. *)
Lemma two_stores_no_generated_id i :
  0 ≤ i → vertices (dag two) !! vertex_id i = None.
Proof.
  intros _. apply not_elem_of_dom.
  replace (dom (vertices (dag two))) with ({["a"; "b"]} : gset string)
    by (apply (bool_decide_unpack _); vm_compute; exact I).
  unfold vertex_id. set_solver.
Qed.

(** Four vertices with [maxParents = 1], on the engine [two]. *)
Lemma RunRandomVertices_chain_two :
  ∃ a',
    RunRandomVertices two 4 1 = Some (a', vertex_id <$> seqZ 0 4) ∧
    dom (vertices (dag a'))
    = dom (vertices (dag two)) ∪ list_to_set (vertex_id <$> seqZ 0 4) ∧
    finalized a' = finalized two ∧
    ∀ i, 0 ≤ i < 4 →
         pending a' !! vertex_id i = Some 0 ∧
         ∃ v, vertices (dag a') !! vertex_id i = Some v ∧
              Data v = transaction i ∧
              Parents v = if decide (0 < i ∧ 1 ≤ 1)
                          then {[vertex_id (i - 1)]} else ∅.
Proof.
  apply (proj2 (RunRandomVertices_chain two 4 1)).
  - lia.
  - apply (@bool_decide_unpack _ (wf_dec (dag two))). vm_compute. exact I.
  - intros i Hi. apply two_stores_no_generated_id. lia.
  - lia.
Defined.

(** A negative [count] on the same engine: the call panics. *)
Lemma RunRandomVertices_negative_two :
  RunRandomVertices two (-1) 1 = None ∧ RunRandomVertices two (-1) 5 = None.
Proof. vm_compute. done. Qed.


(** The two runs, evaluated: the ids returned and the errors of the
    vertices number 2 and 3. *)
Lemma RunRandomVertices_evaluated :
  snd <$> RunRandomVertices two 4 1
  = Some ["vertex-0"; "vertex-1"; "vertex-2"; "vertex-3"]%string ∧
  snd <$> RunRandomVertices two 5 3
  = Some ["vertex-0"; "vertex-1"]%string ∧
  parents_for 2 3 = ["vertex-1"; "vertex-0"]%string ∧
  (λ r, (AddVertex r.1 "vertex-2" "Transaction-2"%string
                   (parents_for 2 3)).2) <$> RunRandomVertices two 2 3
  = Some (inr ErrWouldCreateCycle) ∧
  (λ r, (AddVertex r.1 "vertex-3" "Transaction-3"%string
                   (parents_for 3 3)).2) <$> RunRandomVertices two 2 3
  = Some (inr ErrVertexNotFound).
Proof. vm_compute. done. Qed.

End SimulationExtra.

(** * Starting and stopping the consensus service *)
Module ServiceExtra.

Import Service.

Implicit Types (r : Runtime) (s : ConsensusService) (c : nat).

(** Closing a channel stops the loops that listen to it, and no other. *)
Lemma live_close r c :
  live (mkRuntime (made r) ({[c]} ∪ closed r) (loops r))
  = filter (λ x, x ≠ c) (live r).
Proof.
  unfold live. simpl. induction (loops r) as [|x l IH]; [done|].
  rewrite !filter_cons. destruct (decide (x ∉ closed r)) as [Hx|Hx].
  - destruct (decide (x = c)) as [->|Hne].
    + rewrite decide_False by set_solver. rewrite filter_cons.
      by rewrite decide_False by naive_solver.
    + rewrite decide_True by set_solver. rewrite filter_cons.
      rewrite decide_True by done. by rewrite IH.
  - rewrite decide_False by set_solver. done.
Qed.

Lemma filter_Forall_id {A} (P : A → Prop) `{!∀ x, Decision (P x)} (l : list A) :
  Forall P l → filter P l = l.
Proof.
  induction 1 as [|x l Hx _ IH]; [done|].
  by rewrite filter_cons_True, IH.
Qed.

(** What the service keeps true of its runtime, relative to the runtime
    [r] it was created in. *)
Lemma lifecycle_step r s o :
  runtime_ok r →
  (runtime_ok (runtime s) ∧ (made r < made (runtime s))%nat ∧
   (isRunning s = true →
    (made r < stopChan s)%nat ∧ stopChan s ∉ closed (runtime s)) ∧
   live (runtime s) = (if isRunning s then [stopChan s] else []) ++ live r) →
  ∃ s', exec s o = Some s' ∧
        runtime_ok (runtime s') ∧ (made r < made (runtime s'))%nat ∧
        (isRunning s' = true →
         (made r < stopChan s')%nat ∧ stopChan s' ∉ closed (runtime s')) ∧
        live (runtime s')
        = (if isRunning s' then [stopChan s'] else []) ++ live r.
Proof.
  intros [Hrc Hrl] ([Hc Hl] & Hmade & Hrun & Hlive).
  destruct o; simpl.
  - unfold StartConsensus. destruct (isRunning s) eqn:Hr; simpl.
    { eexists. split; [done|]. rewrite Hr. by split_and!. }
    eexists. split; [done|]. simpl. split_and!.
    + split; simpl.
      * intros c Hin. specialize (Hc c Hin). simpl in Hc. lia.
      * constructor; [lia|]. eapply Forall_impl; [done|]. simpl. lia.
    + lia.
    + intros _. split; [lia|]. intros Hin. specialize (Hc _ Hin).
      simpl in Hc. lia.
    + unfold live in *. simpl. rewrite filter_cons.
      rewrite decide_True.
      * by rewrite Hlive.
      * intros Hin. specialize (Hc _ Hin). simpl in Hc. lia.
  - unfold StopConsensus. destruct (isRunning s) eqn:Hr; simpl.
    2:{ eexists. split; [done|]. rewrite Hr. by split_and!. }
    destruct (Hrun eq_refl) as [Hnew Hopen]. unfold close_chan.
    rewrite decide_False by done. simpl.
    eexists. split; [done|]. simpl. split_and!.
    + split; simpl.
      * intros c [->%elem_of_singleton|Hin]%elem_of_union; [|by apply Hc].
        assert (stopChan s ∈ live (runtime s)) as Hin.
        { rewrite Hlive. set_solver. }
        apply list_elem_of_filter in Hin as [_ Hin].
        by apply (proj1 (Forall_forall _ _) Hl).
      * done.
    + done.
    + done.
    + rewrite live_close, Hlive. simpl.
      rewrite filter_cons_False by naive_solver.
      apply filter_Forall_id, Forall_forall. intros c Hin ->.
      apply list_elem_of_filter in Hin as [_ Hin].
      pose proof (proj1 (Forall_forall _ _) Hrl _ Hin). simpl in *. lia.
Qed.

(** The invariant along a sequence of calls. *)
Lemma lifecycle_run r ops :
  runtime_ok r →
  ∀ s,
    (runtime_ok (runtime s) ∧ (made r < made (runtime s))%nat ∧
     (isRunning s = true →
      (made r < stopChan s)%nat ∧ stopChan s ∉ closed (runtime s)) ∧
     live (runtime s) = (if isRunning s then [stopChan s] else []) ++ live r) →
    ∃ s', run s ops = Some s' ∧
          live (runtime s')
          = (if isRunning s' then [stopChan s'] else []) ++ live r.
Proof.
  intros Hr. induction ops as [|o ops IH]; intros s Hs; simpl.
  { exists s. by destruct Hs as (_ & _ & _ & ?). }
  destruct (lifecycle_step r s o Hr Hs) as (s1 & -> & Hs1).
  by apply IH.
Qed.


(** X21. [StartConsensus] and [StopConsensus] keep at most one consensus
    loop running.  From a new service, along every sequence of the two
    calls: [close] is never called on a closed channel (no call panics),
    and the loops started by the service that have not been told to stop
    are the one listening to [stopChan] while [isRunning] is set, and none
    otherwise. *)
Theorem at_most_one_consensus_loop r ops :
  runtime_ok r →
  ∃ s, run (NewConsensusService r) ops = Some s ∧
       live (runtime s) = (if isRunning s then [stopChan s] else []) ++ live r.
Proof.
  intros Hr. apply lifecycle_run; [done|]. pose proof Hr as [Hc Hl].
  unfold NewConsensusService. simpl. split_and!; [|lia|done|done].
  split; simpl.
  - intros c Hin. specialize (Hc c Hin). simpl in Hc. lia.
  - eapply Forall_impl; [done|]. simpl. lia.
Qed.

Import Scenario.

(** A service created in the runtime [busy]: stop, start, start, stop,
    start. *)
Lemma at_most_one_consensus_loop_calls :
  ∃ s, run (NewConsensusService busy) calls = Some s ∧
       live (runtime s)
       = (if isRunning s then [stopChan s] else []) ++ live busy.
Proof.
  apply (at_most_one_consensus_loop busy calls).
  apply (bool_decide_unpack _). vm_compute. exact I.
Defined.

(** The same calls, evaluated: the first stop and the second start are
    refused, and the loops that run at the end are the one of the last
    start, on channel 3, and the one that ran before, on channel 0. *)
Lemma consensus_calls_evaluated :
  StopConsensus (NewConsensusService busy)
  = Some (NewConsensusService busy, Some ErrNotRunning) ∧
  (StartConsensus (StartConsensus (NewConsensusService busy)).1).2
  = Some ErrAlreadyRunning ∧
  (live ∘ runtime <$> run (NewConsensusService busy) calls)
  = Some [3%nat; 0%nat].
Proof. vm_compute. done. Qed.

End ServiceExtra.

(** * The simulated network *)
Module NetworkExtra.

Import Network.

Section network_facts.

Context {Payload : Type}.

Implicit Types (h : list (Node Payload)) (s : Simulator Payload)
  (n m peer : nat) (id pid : string) (M P : gmap string nat)
  (node : Node Payload).

(** The two properties, read node by node. *)
Lemma sim_ok_alt s :
  sim_ok s ↔
  ∀ id n, Nodes s !! id = Some n →
          ∃ node, heap s !! n = Some node ∧ ID node = id ∧
                  map_Forall (λ pid p,
                    pid ≠ id ∧ pid ∈ dom (Nodes s) ∧
                    ID <$> heap s !! p = Some pid) (Peers node).
Proof.
  unfold sim_ok, map_Forall. split; intros H id n Hn; specialize (H id n Hn).
  - destruct (heap s !! n) as [node|]; [|done]. eauto.
  - by destruct H as (node & -> & ?).
Qed.

Lemma full_mesh_alt s :
  full_mesh s ↔
  ∀ id n, Nodes s !! id = Some n →
          ∃ node, heap s !! n = Some node ∧
                  Peers node = delete id (Nodes s).
Proof.
  unfold full_mesh, map_Forall. split; intros H id n Hn;
    specialize (H id n Hn).
  - destruct (heap s !! n) as [node|]; [|done]. eauto.
  - by destruct H as (node & -> & ?).
Qed.

(** ** Single calls on the heap *)

Lemma AddPeer_other h n peer m : m ≠ n → AddPeer h n peer !! m = h !! m.
Proof.
  intros Hne. unfold AddPeer.
  destruct (h !! n) as [node|]; [|done].
  destruct (h !! peer) as [p|]; [|done].
  case_decide; [|done]. by rewrite list_lookup_alter_ne by done.
Qed.

Lemma AddPeer_self h n peer node p :
  h !! n = Some node → h !! peer = Some p →
  AddPeer h n peer !! n
  = Some (if decide (ID node ≠ ID p)
          then with_Peers (<[ID p := peer]>) node else node).
Proof.
  intros Hn Hp. unfold AddPeer. rewrite Hn, Hp.
  case_decide; [|done]. by rewrite list_lookup_alter_eq, Hn.
Qed.

Lemma AddPeer_ID h n peer m : ID <$> AddPeer h n peer !! m = ID <$> h !! m.
Proof.
  destruct (decide (m = n)) as [->|Hne]; [|by rewrite AddPeer_other by done].
  unfold AddPeer.
  destruct (h !! n) as [node|] eqn:Hn; [|by rewrite Hn].
  destruct (h !! peer) as [p|]; [|by rewrite Hn].
  case_decide; [|by rewrite Hn]. by rewrite list_lookup_alter_eq, Hn.
Qed.

(** The peers gained in the loop of [connect_node]. *)
Lemma gained_lookup id (l : list (string * nat)) P k :
  NoDup l.*1 →
  foldl (λ P' '(pid, peer), if decide (pid ≠ id) then <[pid := peer]> P'
                            else P') P l !! k
  = (delete id (list_to_map l : gmap string nat) ∪ P) !! k.
Proof.
  revert P. induction l as [|[pid peer] l IH]; intros P Hnd; simpl.
  { by rewrite delete_empty, (left_id_L ∅ (∪)). }
  apply NoDup_cons in Hnd as [Hfresh Hnd]. rewrite IH by done.
  apply not_elem_of_list_to_map_1 in Hfresh. simpl in Hfresh.
  rewrite !lookup_union.
  destruct (decide (k = id)) as [->|Hk].
  - rewrite !lookup_delete_eq, !(left_id_L None _).
    case_decide; [|done]. by rewrite lookup_insert_ne.
  - rewrite !lookup_delete_ne by done.
    destruct (decide (k = pid)) as [->|Hkp].
    + rewrite Hfresh, lookup_insert_eq, (left_id_L None _).
      rewrite decide_True by done. rewrite lookup_insert_eq.
      by destruct (P !! pid).
    + rewrite lookup_insert_ne by done.
      case_decide; [|done]. by rewrite lookup_insert_ne.
Qed.

Lemma gained id (l : list (string * nat)) P :
  NoDup l.*1 →
  foldl (λ P' '(pid, peer), if decide (pid ≠ id) then <[pid := peer]> P'
                            else P') P l
  = delete id (list_to_map l : gmap string nat) ∪ P.
Proof. intros Hnd. apply map_eq. intros k. by apply gained_lookup. Qed.

Lemma connect_node_cons pid peer (l : list (string * nat)) h n :
  connect_node ((pid, peer) :: l) h n
  = connect_node l (if decide (ID <$> h !! n ≠ ID <$> h !! peer)
                    then AddPeer h n peer else h) n.
Proof. done. Qed.

(** The loop of [ConnectNodes] over the peers, for one node. *)
Lemma connect_node_lookup (l : list (string * nat)) h n node :
  h !! n = Some node →
  (∀ pid peer, (pid, peer) ∈ l → ID <$> h !! peer = Some pid) →
  ∀ m, connect_node l h n !! m
       = if decide (m = n)
         then Some (with_Peers
                      (λ P, foldl (λ P' '(pid, peer),
                                     if decide (pid ≠ ID node)
                                     then <[pid := peer]> P' else P') P l)
                      node)
         else h !! m.
Proof.
  revert h node. induction l as [|[pid peer] l IH]; intros h node Hn Hl m.
  { simpl. case_decide as Hm; [|done]. subst m. rewrite Hn. by destruct node. }
  rewrite connect_node_cons.
  assert (ID <$> h !! peer = Some pid) as Hpeer by (apply Hl; left).
  destruct (h !! peer) as [p|] eqn:Hp; [|done]. simpl in Hpeer.
  injection Hpeer as Hpid. rewrite Hn. simpl.
  destruct (decide (pid ≠ ID node)) as [Hne|Heq].
  - rewrite decide_True by (rewrite Hpid; congruence).
    pose proof (AddPeer_self h n peer node p Hn Hp) as Hself.
    rewrite decide_True in Hself by (rewrite Hpid; congruence).
    rewrite (IH _ _ Hself).
    2:{ intros pid' peer' Hin. rewrite AddPeer_ID. apply Hl. by right. }
    case_decide as Hm; [|by rewrite AddPeer_other].
    by rewrite Hpid.
  - assert (pid = ID node) as Hpn.
    { destruct (decide (pid = ID node)); [done|by destruct Heq]. }
    rewrite decide_False by (intros Hx; apply Hx; congruence).
    rewrite (IH h node Hn); [done|].
    intros pid' peer' Hin. apply Hl. by right.
Qed.

Lemma connect_node_ID (l : list (string * nat)) h n m :
  (∀ pid peer, (pid, peer) ∈ l → ID <$> h !! peer = Some pid) →
  ID <$> connect_node l h n !! m = ID <$> h !! m.
Proof.
  revert h. induction l as [|[pid peer] l IH]; intros h Hl; [done|].
  rewrite connect_node_cons.
  case_decide.
  - rewrite IH; [by rewrite AddPeer_ID|].
    intros pid' peer' Hin. rewrite AddPeer_ID. apply Hl. by right.
  - apply IH. intros ???. apply Hl. by right.
Qed.

(** The loop of [ConnectNodes] over the nodes. *)
Lemma connect_all_lookup (L l : list (string * nat)) h :
  NoDup L.*1 →
  (∀ id n, (id, n) ∈ L → ID <$> h !! n = Some id) →
  l ⊆ L → NoDup l.*2 →
  ∀ m, foldl (λ h' '(_, node), connect_node L h' node) h l !! m
       = (if decide (m ∈ l.*2)
          then λ node, with_Peers
                         (λ P, delete (ID node) (list_to_map L) ∪ P) node
          else λ node, node) <$> h !! m.
Proof.
  intros HL. revert h.
  induction l as [|[id1 n1] l IH]; intros h Hh Hsub Hnd m.
  { simpl. by destruct (h !! m). }
  rewrite fmap_cons in *. cbn [foldl snd].
  apply NoDup_cons in Hnd as [Hn1 Hnd].
  assert (ID <$> h !! n1 = Some id1) as Hid1 by (apply Hh, Hsub; left).
  destruct (h !! n1) as [node1|] eqn:Hnode1; [|done]. simpl in Hid1.
  injection Hid1 as Hid1.
  pose proof (connect_node_lookup L h n1 node1 Hnode1 Hh) as Hstep.
  rewrite IH; [| |set_solver|done].
  2:{ intros id n Hin. rewrite connect_node_ID by done. by apply Hh. }
  rewrite Hstep. destruct (decide (m = n1)) as [->|Hne].
  - rewrite decide_False by done. rewrite decide_True by set_solver.
    rewrite Hnode1. unfold with_Peers. simpl. rewrite gained by done.
    by rewrite Hid1.
  - destruct (decide (m ∈ l.*2)).
    + by rewrite decide_True by set_solver.
    + by rewrite decide_False by set_solver.
Qed.

(** ** [ConnectNodes] *)

Lemma named_addresses s :
  (∀ id n, Nodes s !! id = Some n → ID <$> heap s !! n = Some id) →
  NoDup (map_to_list (Nodes s)).*2.
Proof.
  intros Hnamed. apply NoDup_fmap_2_strong; [|apply NoDup_map_to_list].
  intros [id1 n1] [id2 n2] H1%elem_of_map_to_list H2%elem_of_map_to_list.
  simpl. intros ->. apply Hnamed in H1, H2. congruence.
Qed.

Lemma pointed s m :
  m ∈ (map_to_list (Nodes s)).*2 ↔ ∃ id, Nodes s !! id = Some m.
Proof.
  rewrite list_elem_of_fmap. split.
  - intros ([id n] & -> & Hin%elem_of_map_to_list). eauto.
  - intros (id & Hid). exists (id, m). by rewrite elem_of_map_to_list.
Qed.

Lemma ConnectNodes_lookup s :
  (∀ id n, Nodes s !! id = Some n → ID <$> heap s !! n = Some id) →
  ∀ m, heap (ConnectNodes s) !! m
       = (if decide (m ∈ (map_img (Nodes s) : gset nat))
          then λ node, with_Peers (λ P, delete (ID node) (Nodes s) ∪ P) node
          else λ node, node) <$> heap s !! m.
Proof.
  intros Hnamed m. unfold ConnectNodes. simpl.
  rewrite (connect_all_lookup (map_to_list (Nodes s))).
  - rewrite list_to_map_to_list.
    destruct (decide (m ∈ (map_to_list (Nodes s)).*2)) as [Hin|Hin];
      rewrite pointed, <- (elem_of_map_img (SA:=gset nat)) in Hin.
    + by rewrite decide_True.
    + by rewrite decide_False.
  - apply NoDup_fst_map_to_list.
  - intros id n Hin%elem_of_map_to_list. by apply Hnamed.
  - done.
  - by apply named_addresses.
Qed.

Lemma sim_ok_named s :
  sim_ok s → ∀ id n, Nodes s !! id = Some n → ID <$> heap s !! n = Some id.
Proof.
  rewrite sim_ok_alt. intros Hok id n Hn.
  by destruct (Hok id n Hn) as (node & -> & <- & _).
Qed.

Lemma ConnectNodes_node s id n :
  sim_ok s → Nodes s !! id = Some n →
  ∃ node, heap s !! n = Some node ∧ ID node = id ∧
          heap (ConnectNodes s) !! n
          = Some (mkNode id (Avalanche node) (delete id (Nodes s))).
Proof.
  intros Hok Hn.
  destruct (proj1 (sim_ok_alt s) Hok id n Hn) as (node & Hnode & Hid & Hpeers).
  exists node. split_and!; [done..|].
  rewrite (ConnectNodes_lookup s (sim_ok_named s Hok)), Hnode.
  rewrite decide_True by (rewrite elem_of_map_img; eauto).
  simpl. unfold with_Peers. rewrite Hid.
  do 2 f_equal. apply map_eq. intros k. rewrite lookup_union.
  destruct (delete id (Nodes s) !! k) as [p|] eqn:Hk.
  { by destruct (Peers node !! k). }
  rewrite (left_id_L None _).
  destruct (Peers node !! k) as [p|] eqn:Hp; [|done].
  destruct (Hpeers k p Hp) as (Hne & Hin & _).
  rewrite lookup_delete_ne in Hk by done.
  apply elem_of_dom in Hin as [? Hin]. congruence.
Qed.

Lemma ConnectNodes_ID s m :
  sim_ok s → ID <$> heap (ConnectNodes s) !! m = ID <$> heap s !! m.
Proof.
  intros Hok. rewrite (ConnectNodes_lookup s (sim_ok_named s Hok)).
  destruct (heap s !! m); [|done]. simpl. by case_decide.
Qed.

Lemma full_mesh_ConnectNodes s : sim_ok s → full_mesh (ConnectNodes s).
Proof.
  intros Hok. apply full_mesh_alt. intros id n Hn.
  change (Nodes (ConnectNodes s)) with (Nodes s) in *.
  destruct (ConnectNodes_node s id n Hok Hn) as (node & _ & _ & ->). eauto.
Qed.

Lemma sim_ok_ConnectNodes s : sim_ok s → sim_ok (ConnectNodes s).
Proof.
  intros Hok. apply sim_ok_alt. intros id n Hn.
  change (Nodes (ConnectNodes s)) with (Nodes s) in *.
  destruct (ConnectNodes_node s id n Hok Hn) as (node & _ & _ & ->).
  eexists. split_and!; [done..|]. cbn [Peers].
  intros pid p Hp. apply lookup_delete_Some in Hp as [Hne Hp].
  split_and!; [done|by apply elem_of_dom_2 in Hp|].
  rewrite ConnectNodes_ID by done. by apply (sim_ok_named s Hok).
Qed.

(** ** [DisconnectNode] *)

Lemma disconnect_lookup (l : list (string * nat)) h id m :
  foldl (λ h' '(_, node), RemovePeer h' node id) h l !! m
  = (if decide (m ∈ l.*2) then with_Peers (delete id) else λ node, node)
      <$> h !! m.
Proof.
  revert h. induction l as [|[id1 n1] l IH]; intros h.
  { simpl. by destruct (h !! m). }
  rewrite fmap_cons. cbn [foldl snd]. rewrite IH. unfold RemovePeer.
  destruct (decide (m = n1)) as [->|Hne].
  - rewrite list_lookup_alter_eq. rewrite (decide_True _ _ (list_elem_of_here _ _)).
    destruct (h !! n1) as [node|]; [|done]. simpl.
    case_decide; [|done]. unfold with_Peers. simpl.
    by rewrite delete_delete_eq.
  - rewrite list_lookup_alter_ne by done.
    destruct (decide (m ∈ l.*2)) as [Hin|Hin].
    + by rewrite decide_True by (by right).
    + rewrite decide_False; [done|].
      by intros [?|?]%elem_of_cons.
Qed.

Lemma DisconnectNode_node s id id' n :
  Nodes (DisconnectNode s id) !! id' = Some n →
  id' ≠ id ∧ Nodes s !! id' = Some n ∧
  heap (DisconnectNode s id) !! n = with_Peers (delete id) <$> heap s !! n.
Proof.
  unfold DisconnectNode. simpl. intros [Hne Hn]%lookup_delete_Some.
  split_and!; [done..|]. rewrite disconnect_lookup.
  rewrite decide_True; [done|]. apply pointed. eauto.
Qed.

Lemma DisconnectNode_ID s id m :
  ID <$> heap (DisconnectNode s id) !! m = ID <$> heap s !! m.
Proof.
  unfold DisconnectNode. simpl. rewrite disconnect_lookup.
  destruct (heap s !! m); [|done]. simpl. by case_decide.
Qed.

Lemma sim_ok_DisconnectNode s id : sim_ok s → sim_ok (DisconnectNode s id).
Proof.
  rewrite !sim_ok_alt. intros Hok id' n Hn.
  destruct (DisconnectNode_node s id id' n Hn) as (Hne & Hn' & Hheap).
  destruct (Hok id' n Hn') as (node & Hnode & Hid & Hpeers).
  rewrite Hheap, Hnode. eexists. split_and!; [done..|].
  unfold with_Peers. cbn [Peers].
  intros pid p [Hpid Hp]%lookup_delete_Some.
  destruct (Hpeers pid p Hp) as (Hself & Hin & Hp').
  split_and!; [done| |by rewrite DisconnectNode_ID].
  unfold DisconnectNode. cbn [Nodes]. rewrite dom_delete_L.
  apply elem_of_difference. split; [done|]. by apply not_elem_of_singleton.
Qed.

Lemma full_mesh_DisconnectNode s id :
  full_mesh s → full_mesh (DisconnectNode s id).
Proof.
  rewrite !full_mesh_alt. intros Hmesh id' n Hn.
  destruct (DisconnectNode_node s id id' n Hn) as (Hne & Hn' & Hheap).
  destruct (Hmesh id' n Hn') as (node & Hnode & Hpeers).
  rewrite Hheap, Hnode. simpl. eexists. split; [done|]. simpl.
  rewrite Hpeers. apply delete_delete.
Qed.

(** ** [AddNode] *)

Lemma AddNode_heap s id params :
  heap (AddNode s id params).1
  = heap s ++ [mkNode id (Consensus.NewAvalanche Dag.NewDAG params) ∅] ∧
  Nodes (AddNode s id params).1 = <[id := length (heap s)]> (Nodes s) ∧
  (AddNode s id params).2 = length (heap s).
Proof. done. Qed.

Lemma sim_ok_AddNode s id params : sim_ok s → sim_ok (AddNode s id params).1.
Proof.
  rewrite !sim_ok_alt. intros Hok id' n Hn.
  destruct (AddNode_heap s id params) as (Hheap & Hnodes & _).
  rewrite Hheap, Hnodes in *.
  apply lookup_insert_Some in Hn as [[<- <-]|[Hne Hn]].
  - eexists. rewrite lookup_app_r, Nat.sub_diag by done.
    split_and!; [done..|]. apply map_Forall_empty.
  - destruct (Hok id' n Hn) as (node & Hnode & Hid & Hpeers).
    exists node. rewrite lookup_app_l by (by eapply lookup_lt_Some).
    split_and!; [done..|]. intros pid p Hp.
    destruct (Hpeers pid p Hp) as (Hself & Hin & Hp').
    split_and!; [done|set_solver|].
    destruct (heap s !! p) as [pn|] eqn:Hpn; [|done].
    by rewrite lookup_app_l, Hpn by (by eapply lookup_lt_Some).
Qed.

Lemma sim_ok_NewSimulator : sim_ok (NewSimulator : Simulator Payload).
Proof. apply map_Forall_empty. Qed.

(** ** The nodes created by [RunSimulation] *)

Lemma node_id_inj (i j : Z) : node_id i = node_id j → i = j.
Proof.
  unfold node_id. intros H. apply (inj _) in H. by apply (inj _) in H.
Qed.

Lemma create_nodes_spec s (k : nat) :
  sim_ok s →
  sim_ok (create_nodes s (Z.of_nat k)) ∧
  dom (Nodes (create_nodes s (Z.of_nat k)))
  = dom (Nodes s) ∪ list_to_set (node_id <$> seqZ 0 (Z.of_nat k)) ∧
  ∀ i, 0 ≤ i < Z.of_nat k →
       ∃ m, Nodes (create_nodes s (Z.of_nat k)) !! node_id i = Some m ∧
            heap (create_nodes s (Z.of_nat k)) !! m
            = Some (mkNode (node_id i)
                      (Consensus.NewAvalanche Dag.NewDAG
                         Consensus.DefaultParams) ∅).
Proof.
  intros Hok. induction k as [|k (IHok & IHdom & IHnew)].
  { split_and!; [done|set_solver|lia]. }
  unfold create_nodes in *.
  replace (Z.of_nat (S k)) with (Z.of_nat k + 1) by lia.
  rewrite seqZ_app by lia.
  assert (seqZ (0 + Z.of_nat k) 1 = [Z.of_nat k]) as -> by done.
  rewrite foldl_app. cbn [foldl].
  set (sk := foldl (λ s' i, (AddNode s' (node_id i)
                               Consensus.DefaultParams).1) s
                   (seqZ 0 (Z.of_nat k))) in *.
  destruct (AddNode_heap sk (node_id (Z.of_nat k)) Consensus.DefaultParams)
    as (Hheap & Hnodes & _).
  split_and!.
  - by apply sim_ok_AddNode.
  - rewrite Hnodes, dom_insert_L, IHdom, fmap_app, list_to_set_app_L.
    set_solver.
  - intros i Hi. rewrite Hnodes, Hheap.
    destruct (decide (i = Z.of_nat k)) as [->|Hne].
    + rewrite lookup_insert_eq. eexists. split; [done|].
      by rewrite lookup_app_r, Nat.sub_diag by done.
    + rewrite lookup_insert_ne by (intros ?%node_id_inj; lia).
      destruct (IHnew i) as (m & Hm & Hnode); [lia|].
      exists m. split; [done|].
      by rewrite lookup_app_l by (by eapply lookup_lt_Some).
Qed.

(** X22. Every simulator built from [NewSimulator] by [AddNode],
    [ConnectNodes] and [DisconnectNode] keeps its topology sound: every
    node of [Nodes] is stored under its own ID, and the peers of a node
    never include the node itself, are stored under their own IDs, and are
    IDs of nodes of [Nodes]. *)
Theorem sim_ok_reachable (ops : list op) :
  sim_ok (foldl exec (NewSimulator : Simulator Payload) ops).
Proof.
  assert (∀ s, sim_ok s → sim_ok (foldl exec s ops)) as H;
    [|apply H, sim_ok_NewSimulator].
  induction ops as [|o ops IH]; intros s Hs; [done|].
  simpl. apply IH. destruct o; simpl.
  - by apply sim_ok_AddNode.
  - by apply sim_ok_ConnectNodes.
  - by apply sim_ok_DisconnectNode.
Qed.

(** X23. [ConnectNodes] on a simulator with a sound topology gives a full
    mesh: the peers of every node of [Nodes] become exactly the other
    nodes of [Nodes], each under its ID and with the pointer that [Nodes]
    holds, whatever its peers were; the ID and the engine of the node, the
    nodes outside [Nodes] and the map [Nodes] are as they were; and a
    second [ConnectNodes] changes nothing. *)
Theorem ConnectNodes_full_mesh s :
  sim_ok s →
  Nodes (ConnectNodes s) = Nodes s ∧
  full_mesh (ConnectNodes s) ∧
  (∀ id n, Nodes s !! id = Some n →
           ∃ node, heap s !! n = Some node ∧
                   heap (ConnectNodes s) !! n
                   = Some (mkNode id (Avalanche node) (delete id (Nodes s)))) ∧
  (∀ m, m ∉ (map_img (Nodes s) : gset nat) →
        heap (ConnectNodes s) !! m = heap s !! m) ∧
  ConnectNodes (ConnectNodes s) = ConnectNodes s.
Proof.
  intros Hok. pose proof (sim_ok_named s Hok) as Hnamed.
  split_and!.
  - done.
  - by apply full_mesh_ConnectNodes.
  - intros id n Hn.
    destruct (ConnectNodes_node s id n Hok Hn) as (node & ? & _ & ?). eauto.
  - intros m Hm. rewrite (ConnectNodes_lookup s Hnamed).
    rewrite decide_False by done. by destruct (heap s !! m).
  - pose proof (sim_ok_ConnectNodes s Hok) as Hok'.
    pose proof (ConnectNodes_lookup _ (sim_ok_named _ Hok')) as Hagain.
    destruct (ConnectNodes (ConnectNodes s)) as [M2 h2] eqn:H2.
    destruct (ConnectNodes s) as [M1 h1] eqn:H1.
    assert (M2 = M1) as -> by (unfold ConnectNodes in H2; by simplify_eq).
    f_equal. apply list_eq. intros m. simpl in Hagain.
    assert (h2 = heap (ConnectNodes (mkSimulator M1 h1))) as ->
      by (by rewrite H2).
    rewrite Hagain. case_decide as Hm; [|by destruct (h1 !! m)].
    apply elem_of_map_img in Hm as (id & Hid).
    assert (M1 = Nodes s) as HM by (unfold ConnectNodes in H1; by simplify_eq).
    rewrite HM in Hid.
    destruct (ConnectNodes_node s id m Hok Hid) as (node & _ & _ & Hnode).
    rewrite H1 in Hnode. simpl in Hnode. rewrite Hnode. simpl.
    unfold with_Peers. simpl. by rewrite HM, (idemp_L (∪)).
Qed.

(** X24. [DisconnectNode] takes the id out of [Nodes] and out of the peers
    of every node that [Nodes] held, and changes nothing else; it keeps a
    sound topology sound and a full mesh a full mesh. *)
Theorem DisconnectNode_spec s id :
  Nodes (DisconnectNode s id) = delete id (Nodes s) ∧
  (∀ m, heap (DisconnectNode s id) !! m
        = (if decide (m ∈ (map_img (Nodes s) : gset nat))
           then with_Peers (delete id) else λ node, node) <$> heap s !! m) ∧
  (sim_ok s → sim_ok (DisconnectNode s id)) ∧
  (full_mesh s → full_mesh (DisconnectNode s id)).
Proof.
  split_and!.
  - done.
  - intros m. unfold DisconnectNode. simpl. rewrite disconnect_lookup.
    destruct (decide (m ∈ (map_to_list (Nodes s)).*2)) as [Hin|Hin];
      rewrite pointed, <- (elem_of_map_img (SA:=gset nat)) in Hin.
    + by rewrite decide_True.
    + by rewrite decide_False.
  - apply sim_ok_DisconnectNode.
  - apply full_mesh_DisconnectNode.
Qed.

(** X25. The first two steps of [RunSimulation], run on a simulator with a
    sound topology: the nodes [node-0] .. [node-(numNodes-1)] are in
    [Nodes], each with a new engine over a new DAG with the default
    parameters, and the simulator is a full mesh, so that every node has
    one peer less than there are nodes.  Started from a simulator without
    nodes there are [numNodes] nodes. *)
Theorem RunSimulation_full_mesh s numNodes :
  sim_ok s →
  dom (Nodes (create_and_connect s numNodes))
  = dom (Nodes s) ∪ list_to_set (node_id <$> seqZ 0 numNodes) ∧
  full_mesh (create_and_connect s numNodes) ∧
  (∀ i, 0 ≤ i < numNodes →
        ∃ m, Nodes (create_and_connect s numNodes) !! node_id i = Some m ∧
             heap (create_and_connect s numNodes) !! m
             = Some (mkNode (node_id i)
                       (Consensus.NewAvalanche Dag.NewDAG
                          Consensus.DefaultParams)
                       (delete (node_id i)
                          (Nodes (create_and_connect s numNodes))))) ∧
  (∀ id m node, Nodes (create_and_connect s numNodes) !! id = Some m →
                heap (create_and_connect s numNodes) !! m = Some node →
                S (size (Peers node))
                = size (Nodes (create_and_connect s numNodes))) ∧
  (Nodes s = ∅ →
   size (Nodes (create_and_connect s numNodes)) = Z.to_nat numNodes).
Proof.
  intros Hok. unfold create_and_connect.
  assert (seqZ 0 numNodes = seqZ 0 (Z.of_nat (Z.to_nat numNodes)) ∧
          create_nodes s numNodes
          = create_nodes s (Z.of_nat (Z.to_nat numNodes))) as (Hseq & ->).
  { destruct (decide (0 ≤ numNodes)) as [Hpos|Hneg].
    - by rewrite Z2Nat.id by done.
    - unfold create_nodes. by rewrite !seqZ_nil by lia. }
  rewrite Hseq. set (k := Z.to_nat numNodes) in *.
  destruct (create_nodes_spec s k Hok) as (Hok' & Hdom & Hnew).
  pose proof (full_mesh_ConnectNodes _ Hok') as Hmesh.
  set (s1 := create_nodes s (Z.of_nat k)) in *.
  change (Nodes (ConnectNodes s1)) with (Nodes s1).
  split_and!; [done..| | |].
  - intros i Hi. destruct (Hnew i) as (m & Hm & Hnode); [lia|].
    exists m. split; [done|].
    destruct (ConnectNodes_node s1 _ m Hok' Hm) as (node & Hnode' & _ & ->).
    by simplify_eq.
  - intros id m node Hm Hnode.
    destruct (proj1 (full_mesh_alt _) Hmesh id m Hm) as (node' & Hn' & Hp).
    assert (node' = node) as -> by congruence.
    rewrite Hp. change (Nodes (ConnectNodes s1)) with (Nodes s1).
    rewrite map_size_delete, Hm. simpl.
    assert (size (Nodes s1) ≠ 0%nat); [|lia].
    intros Hz%map_size_empty_inv. by rewrite Hz in Hm.
  - intros Hempty. rewrite <- size_dom, Hdom, Hempty, dom_empty_L.
    rewrite (left_id_L ∅ (∪)), size_list_to_set.
    + rewrite length_fmap, length_seqZ. lia.
    + apply NoDup_fmap_2_strong; [|apply NoDup_seqZ].
      intros i j _ _. apply node_id_inj.
Qed.

(** X26. [AddNode] allocates a node that no pointer reached before, with
    the given ID, a new engine and no peers, and stores it in [Nodes]
    under the ID; the nodes in the heap and the other entries of [Nodes]
    are as they were.  So a simulator that holds a node under another ID
    is not a full mesh after [AddNode], and a peer entry for an ID that
    was in use still points to the node that was replaced. *)
Theorem AddNode_isolated s id params :
  sim_ok s →
  heap s !! (AddNode s id params).2 = None ∧
  Nodes (AddNode s id params).1 !! id = Some (AddNode s id params).2 ∧
  heap (AddNode s id params).1 !! (AddNode s id params).2
  = Some (mkNode id (Consensus.NewAvalanche Dag.NewDAG params) ∅) ∧
  (∀ m node, heap s !! m = Some node →
             heap (AddNode s id params).1 !! m = Some node) ∧
  (∀ id', id' ≠ id →
          Nodes (AddNode s id params).1 !! id' = Nodes s !! id') ∧
  (∀ old, Nodes s !! id = Some old → old ≠ (AddNode s id params).2) ∧
  ((∃ id', id' ≠ id ∧ id' ∈ dom (Nodes s)) →
   ¬ full_mesh (AddNode s id params).1).
Proof.
  intros Hok.
  destruct (AddNode_heap s id params) as (Hheap & Hnodes & Hptr).
  rewrite Hheap, Hnodes, Hptr. split_and!.
  - by apply lookup_ge_None_2.
  - by rewrite lookup_insert_eq.
  - by rewrite lookup_app_r, Nat.sub_diag by done.
  - intros m node Hm. by rewrite lookup_app_l by (by eapply lookup_lt_Some).
  - intros id' Hne. by rewrite lookup_insert_ne.
  - intros old Hold ->.
    destruct (proj1 (sim_ok_alt s) Hok id _ Hold) as (node & Hnode & _).
    apply lookup_lt_Some in Hnode. lia.
  - intros (id' & Hne & [n' Hn']%elem_of_dom) Hmesh.
    rewrite full_mesh_alt in Hmesh.
    destruct (Hmesh id (length (heap s))) as (node & Hnode & Hpeers).
    { by rewrite Hnodes, lookup_insert_eq. }
    rewrite Hheap, lookup_app_r, Nat.sub_diag in Hnode by done.
    simpl in Hnode. simplify_eq. simpl in Hpeers.
    apply (f_equal (λ M, M !! id')) in Hpeers.
    rewrite lookup_empty, lookup_delete_ne, lookup_insert_ne, Hn'
      in Hpeers by done.
    done.
Qed.

End network_facts.

Import Scenario.

(** [ConnectNodes] on [net_stale], where the peers of [y] and [z] still
    point to the node [x] that was replaced. *)
Lemma ConnectNodes_full_mesh_stale :
  Nodes (ConnectNodes net_stale) = Nodes net_stale ∧
  full_mesh (ConnectNodes net_stale) ∧
  (∀ id n, Nodes net_stale !! id = Some n →
           ∃ node, heap net_stale !! n = Some node ∧
                   heap (ConnectNodes net_stale) !! n
                   = Some (mkNode id (Avalanche node)
                             (delete id (Nodes net_stale)))) ∧
  (∀ m, m ∉ (map_img (Nodes net_stale) : gset nat) →
        heap (ConnectNodes net_stale) !! m = heap net_stale !! m) ∧
  ConnectNodes (ConnectNodes net_stale) = ConnectNodes net_stale.
Proof.
  apply (ConnectNodes_full_mesh net_stale).
  apply (@bool_decide_unpack _ (sim_ok_dec net_stale)). vm_compute. exact I.
Defined.

(** Four nodes created on a new simulator. *)
Lemma RunSimulation_full_mesh_four :
  dom (Nodes (create_and_connect (NewSimulator : Simulator string) 4))
  = dom (Nodes (NewSimulator : Simulator string))
    ∪ list_to_set (node_id <$> seqZ 0 4) ∧
  full_mesh (create_and_connect (NewSimulator : Simulator string) 4) ∧
  (∀ i, 0 ≤ i < 4 →
        ∃ m, Nodes (create_and_connect (NewSimulator : Simulator string) 4)
               !! node_id i = Some m ∧
             heap (create_and_connect (NewSimulator : Simulator string) 4)
               !! m
             = Some (mkNode (node_id i)
                       (Consensus.NewAvalanche Dag.NewDAG
                          Consensus.DefaultParams)
                       (delete (node_id i)
                          (Nodes (create_and_connect
                                    (NewSimulator : Simulator string) 4))))) ∧
  (∀ id m node,
     Nodes (create_and_connect (NewSimulator : Simulator string) 4) !! id
     = Some m →
     heap (create_and_connect (NewSimulator : Simulator string) 4) !! m
     = Some node →
     S (size (Peers node))
     = size (Nodes (create_and_connect (NewSimulator : Simulator string) 4))) ∧
  (Nodes (NewSimulator : Simulator string) = ∅ →
   size (Nodes (create_and_connect (NewSimulator : Simulator string) 4))
   = Z.to_nat 4).
Proof.
  apply (RunSimulation_full_mesh (NewSimulator : Simulator string) 4).
  apply (@bool_decide_unpack _ (sim_ok_dec NewSimulator)).
  vm_compute. exact I.
Defined.

(** The node [x] added again to the full mesh [net_mesh]. *)
Lemma AddNode_isolated_mesh :
  heap net_mesh !! (AddNode net_mesh "x" two_params).2 = None ∧
  Nodes (AddNode net_mesh "x" two_params).1 !! "x"
  = Some (AddNode net_mesh "x" two_params).2 ∧
  heap (AddNode net_mesh "x" two_params).1
    !! (AddNode net_mesh "x" two_params).2
  = Some (mkNode "x" (Consensus.NewAvalanche Dag.NewDAG two_params) ∅) ∧
  (∀ m node, heap net_mesh !! m = Some node →
             heap (AddNode net_mesh "x" two_params).1 !! m = Some node) ∧
  (∀ id', id' ≠ "x" →
          Nodes (AddNode net_mesh "x" two_params).1 !! id'
          = Nodes net_mesh !! id') ∧
  (∀ old, Nodes net_mesh !! "x" = Some old →
          old ≠ (AddNode net_mesh "x" two_params).2) ∧
  ((∃ id', id' ≠ "x" ∧ id' ∈ dom (Nodes net_mesh)) →
   ¬ full_mesh (AddNode net_mesh "x" two_params).1).
Proof.
  apply (AddNode_isolated net_mesh "x" two_params).
  apply (@bool_decide_unpack _ (sim_ok_dec net_mesh)). vm_compute. exact I.
Defined.

(** The three simulators, evaluated.  In [net_mesh] the node [y] has the
    peers [x] and [z]; in [net_stale] the entry [x] of [Nodes] is the new
    node 3 while the peer [x] of [y] is still the node 0; [ConnectNodes]
    makes it the node 3; [DisconnectNode] of [z] leaves [y] with the peer
    [x] only. *)
Lemma simulators_evaluated :
  Peers <$> heap net_mesh !! 1%nat
  = Some ({[ "x" := 0%nat; "z" := 2%nat ]} : gmap string nat) ∧
  Nodes net_stale !! "x" = Some 3%nat ∧
  Peers <$> heap net_stale !! 1%nat
  = Some ({[ "x" := 0%nat; "z" := 2%nat ]} : gmap string nat) ∧
  ¬ full_mesh net_stale ∧
  Peers <$> heap (ConnectNodes net_stale) !! 1%nat
  = Some ({[ "x" := 3%nat; "z" := 2%nat ]} : gmap string nat) ∧
  Peers <$> heap (DisconnectNode net_mesh "z") !! 1%nat
  = Some ({[ "x" := 0%nat ]} : gmap string nat).
Proof.
  split_and!; try (vm_compute; reflexivity).
  apply (bool_decide_unpack _). vm_compute. exact I.
Qed.

End NetworkExtra.

(** * Proposals and their delivery to the peers *)
Module ReplicationExtra.

Import Dag Consensus DagSpec ConsensusSpec ConsensusExtra.
Import Network NetworkExtra.

Section replication_facts.

Context {Payload : Type}.

Implicit Types (h : list (Node Payload)) (s : Simulator Payload)
  (n m : nat) (id pid : string) (node : Node Payload)
  (a : Consensus.Avalanche Payload).

Lemma ReceiveVertex_lookup h n id data parentIDs node :
  h !! n = Some node →
  ReceiveVertex h n id data parentIDs !! n
  = Some (mkNode (ID node)
            (AddVertex (Avalanche node) id data parentIDs).1 (Peers node)).
Proof.
  intros Hn. unfold ReceiveVertex. by rewrite list_lookup_alter_eq, Hn.
Qed.

Lemma ReceiveVertex_other h n id data parentIDs m :
  m ≠ n → ReceiveVertex h n id data parentIDs !! m = h !! m.
Proof.
  intros Hne. unfold ReceiveVertex. by rewrite list_lookup_alter_ne.
Qed.

(** A call of [AddVertex] that fails leaves the engine as it was. *)
Lemma AddVertex_failure a id data parentIDs err :
  wf (dag a) → (AddVertex a id data parentIDs).2 = inr err →
  (AddVertex a id data parentIDs).1 = a.
Proof.
  intros Hwf Herr.
  destruct (vertices (dag a) !! id) as [v0|] eqn:Hid.
  { by rewrite AddVertex_duplicate by eauto. }
  destruct (AddVertex_outcome a id data parentIDs Hwf Hid)
    as [(_ & d' & Hadd & _)|(_ & e & Hadd)]; rewrite Hadd in *; [done|done].
Qed.

Lemma insert_node_same h n node :
  h !! n = Some node →
  <[n := mkNode (ID node) (Avalanche node) (Peers node)]> h = h.
Proof. intros Hn. apply list_insert_id. by destruct node. Qed.

(** X27. [ProposeVertex] by a node of a full mesh whose engine has a
    well-formed DAG.  When the engine rejects the vertex nothing is sent
    and the whole network is as it was.  When it accepts, the proposer's
    engine is the one [AddVertex] leaves and one call of [ReceiveVertex] is
    started for every other node of [Nodes], with the same id, data and
    parents, and none for the proposer itself. *)
Theorem ProposeVertex_spec s id n node vid data parentIDs :
  sim_ok s → full_mesh s →
  Nodes s !! id = Some n → heap s !! n = Some node →
  wf (dag (Avalanche node)) →
  match (AddVertex (Avalanche node) vid data parentIDs).2 with
  | inr err =>
      ProposeVertex (heap s) n vid data parentIDs
      = Some (heap s, inr err, [])
  | inl v =>
      ∃ ds, ProposeVertex (heap s) n vid data parentIDs
            = Some (<[n := mkNode id
                             (AddVertex (Avalanche node) vid data
                                        parentIDs).1
                             (Peers node)]> (heap s),
                    inl v, ds) ∧
            receiver <$> ds ≡ₚ (map_to_list (delete id (Nodes s))).*2 ∧
            (n ∉ receiver <$> ds) ∧
            Forall (λ d, vertexID d = vid ∧ vertexData d = data ∧
                         vertexParents d = parentIDs) ds
  end.
Proof.
  intros Hok Hmesh Hn Hnode Hwf.
  destruct (proj1 (sim_ok_alt s) Hok id n Hn) as (node' & Hnode' & Hid & _).
  assert (node' = node) as -> by congruence.
  destruct (proj1 (full_mesh_alt s) Hmesh id n Hn) as (node' & Hnode'' & Hp).
  assert (node' = node) as -> by congruence.
  unfold ProposeVertex. rewrite Hnode.
  destruct (AddVertex (Avalanche node) vid data parentIDs) as [a' [v|err]]
    eqn:Hadd; simpl.
  - eexists. rewrite Hid. split; [done|]. rewrite Hp.
    rewrite <- list_fmap_compose. split_and!.
    + done.
    + intros ([id' n'] & Heq & Hin)%list_elem_of_fmap. simpl in Heq.
      subst n'. apply elem_of_map_to_list in Hin.
      apply lookup_delete_Some in Hin as [Hne Hin].
      pose proof (sim_ok_named s Hok _ _ Hin) as H1.
      pose proof (sim_ok_named s Hok _ _ Hn) as H2. congruence.
    + apply Forall_fmap, Forall_forall. by intros [??] _.
  - pose proof (AddVertex_failure (Avalanche node) vid data parentIDs err Hwf)
      as Hsame.
    rewrite Hadd in Hsame. simpl in Hsame. rewrite Hsame by done.
    by rewrite insert_node_same.
Qed.

(** X28. Deliveries do not commute.  On a node whose engine has a
    well-formed DAG and stores neither [p] nor [c]: when the child [c] of
    [p] is delivered before [p], the delivery of [c] is dropped
    ([ReceiveVertex] ignores the error) and the node ends with [p] only;
    delivered after [p], the child is stored below [p]. *)
Theorem ReceiveVertex_order h n node p c dp dc :
  h !! n = Some node → wf (dag (Avalanche node)) →
  vertices (dag (Avalanche node)) !! p = None →
  vertices (dag (Avalanche node)) !! c = None → p ≠ c →
  ReceiveVertex (ReceiveVertex h n c dc [p]) n p dp []
  = ReceiveVertex h n p dp [] ∧
  (∃ node', ReceiveVertex (ReceiveVertex h n c dc [p]) n p dp [] !! n
            = Some node' ∧
            vertices (dag (Avalanche node')) !! c = None ∧
            is_Some (vertices (dag (Avalanche node')) !! p)) ∧
  (∃ node' v, ReceiveVertex (ReceiveVertex h n p dp []) n c dc [p] !! n
              = Some node' ∧
              is_Some (vertices (dag (Avalanche node')) !! p) ∧
              vertices (dag (Avalanche node')) !! c = Some v ∧
              Parents v = {[p]}).
Proof.
  intros Hn Hwf Hp Hc Hne.
  set (a := Avalanche node) in *.
  (* the child first: rejected, its parent is missing *)
  destruct (AddVertex_outcome a c dc [p] Hwf Hc)
    as [(Hadm & _)|(_ & e & Hchild)].
  { simpl in Hadm. destruct Hadm as (Hin & _).
    apply elem_of_dom in Hin as [? Hin]. congruence. }
  assert (ReceiveVertex h n c dc [p] = h) as Hdrop.
  { apply list_eq. intros m.
    destruct (decide (m = n)) as [->|Hm]; [|by apply ReceiveVertex_other].
    rewrite (ReceiveVertex_lookup h n c dc [p] node Hn), Hn.
    fold a. rewrite Hchild. simpl. by destruct node. }
  (* the parent: accepted *)
  destruct (AddVertex_outcome a p dp [] Hwf Hp)
    as [(_ & d1 & Hparent & Hl1)|(Hno & _)]; [|by destruct Hno].
  pose proof (AddVertex_wf a p dp [] Hwf) as Hwf1.
  rewrite Hparent in Hwf1. simpl in Hwf1.
  pose proof Hl1 as (Hp1 & Hothers1 & _).
  assert (vertices d1 !! c = None) as Hc1.
  { rewrite Hothers1 by done. by rewrite Hc. }
  split_and!.
  - by rewrite Hdrop.
  - rewrite Hdrop, (ReceiveVertex_lookup h n p dp [] node Hn).
    fold a. rewrite Hparent. simpl. eexists. split; [done|]. simpl.
    split; [done|]. by rewrite Hp1.
  - pose proof (ReceiveVertex_lookup h n p dp [] node Hn) as Hn1.
    fold a in Hn1. rewrite Hparent in Hn1. simpl in Hn1.
    rewrite (ReceiveVertex_lookup _ n c dc [p] _ Hn1). simpl.
    set (a1 := mkAvalanche d1 (params a) (<[p := 0]> (pending a))
                 (finalized a)) in *.
    destruct (AddVertex_outcome a1 c dc [p] Hwf1 Hc1)
      as [(_ & d2 & Hchild2 & Hl2)|(Hno & _)].
    + rewrite Hchild2. simpl. pose proof Hl2 as (Hc2 & Hothers2 & _).
      eexists _, _. split; [done|]. simpl. split_and!.
      * rewrite Hothers2 by done. simpl. rewrite Hp1. by eexists.
      * done.
      * simpl. set_solver.
    + destruct Hno. simpl. split_and!; try done.
      apply elem_of_dom. rewrite Hp1. by eexists.
Qed.

End replication_facts.

Import Scenario.

(** The node [x] of the full mesh [net_mesh] proposes [a]. *)
Lemma ProposeVertex_spec_mesh :
  match (AddVertex (Avalanche node_x) "a" "A"%string []).2 with
  | inr err =>
      ProposeVertex (heap net_mesh) 0 "a" "A"%string []
      = Some (heap net_mesh, inr err, [])
  | inl v =>
      ∃ ds, ProposeVertex (heap net_mesh) 0 "a" "A"%string []
            = Some (<[0%nat := mkNode "x"
                                 (AddVertex (Avalanche node_x) "a"
                                            "A"%string []).1
                                 (Peers node_x)]> (heap net_mesh),
                    inl v, ds) ∧
            receiver <$> ds ≡ₚ (map_to_list (delete "x" (Nodes net_mesh))).*2 ∧
            (0%nat ∉ receiver <$> ds) ∧
            Forall (λ d, vertexID d = "a" ∧ vertexData d = "A"%string ∧
                         vertexParents d = []) ds
  end.
Proof.
  apply (ProposeVertex_spec net_mesh "x" 0 node_x "a" "A"%string []).
  - apply (@bool_decide_unpack _ (sim_ok_dec net_mesh)). vm_compute. exact I.
  - apply (@bool_decide_unpack _ (full_mesh_dec net_mesh)).
    vm_compute. exact I.
  - vm_compute. reflexivity.
  - vm_compute. reflexivity.
  - by_computation.
Defined.

(** The child [b] of [a] delivered to the node [y] of [net_mesh] before
    [a], and after it. *)
Lemma ReceiveVertex_order_mesh :
  ReceiveVertex (ReceiveVertex (heap net_mesh) 1 "b" "B"%string ["a"%string])
                1 "a" "A"%string []
  = ReceiveVertex (heap net_mesh) 1 "a" "A"%string [] ∧
  (∃ node', ReceiveVertex
              (ReceiveVertex (heap net_mesh) 1 "b" "B"%string ["a"%string])
              1 "a" "A"%string [] !! 1%nat
            = Some node' ∧
            vertices (dag (Avalanche node')) !! "b" = None ∧
            is_Some (vertices (dag (Avalanche node')) !! "a")) ∧
  (∃ node' v, ReceiveVertex
                (ReceiveVertex (heap net_mesh) 1 "a" "A"%string [])
                1 "b" "B"%string ["a"%string] !! 1%nat
              = Some node' ∧
              is_Some (vertices (dag (Avalanche node')) !! "a") ∧
              vertices (dag (Avalanche node')) !! "b" = Some v ∧
              Parents v = {["a"]}).
Proof.
  apply (ReceiveVertex_order (heap net_mesh) 1 node_y "a" "b"
           "A"%string "B"%string).
  - vm_compute. reflexivity.
  - by_computation.
  - vm_compute. reflexivity.
  - vm_compute. reflexivity.
  - by_computation.
Defined.

(** The node [x] proposes [a] and then [b]: each proposal starts a
    delivery to [y] and one to [z].  When the deliveries of [a] are made
    first, [y] stores both vertices; when those of [b] are made first, [y]
    stores [a] only, while the proposer stores both. *)
Lemma deliveries_evaluated :
  list_to_set (receiver <$> proposed_a.2) = ({[1%nat; 2%nat]} : gset nat) ∧
  list_to_set (receiver <$> proposed_b.2) = ({[1%nat; 2%nat]} : gset nat) ∧
  (dom ∘ vertices ∘ dag ∘ Avalanche <$> in_order !! 1%nat)
  = Some ({["a"; "b"]} : gset string) ∧
  (dom ∘ vertices ∘ dag ∘ Avalanche <$> out_of_order !! 1%nat)
  = Some ({["a"]} : gset string) ∧
  (dom ∘ vertices ∘ dag ∘ Avalanche <$> out_of_order !! 0%nat)
  = Some ({["a"; "b"]} : gset string).
Proof.
  split_and!; try (vm_compute; reflexivity);
    apply (bool_decide_unpack _); vm_compute; exact I.
Qed.

End ReplicationExtra.

(** * Starting and stopping the loops of the nodes *)
Module LoopsExtra.

Import Service Network ServiceExtra.

Section loops_facts.

Context {Payload : Type}.

Implicit Types (r : Runtime) (s : Simulator Payload) (c : nat)
  (stops : gmap string nat).

(** The loop of [StartAll], over any list of nodes with distinct ids: the
    channels made are the next ones of the runtime, in the order of the
    list. *)
Lemma StartAll_fold (l : list (string * nat)) r stops :
  NoDup l.*1 →
  foldl (λ '(r', stops') '(id, node),
           let '(r'', stop) := Start r' node in (r'', <[id := stop]> stops'))
        (r, stops) l
  = (mkRuntime (made r + length l) (closed r)
       (reverse (seq (made r) (length l)) ++ loops r),
     list_to_map (zip l.*1 (seq (made r) (length l))) ∪ stops).
Proof.
  revert r stops. induction l as [|[id n] l IH]; intros r stops Hnd.
  { simpl. rewrite Nat.add_0_r, (left_id_L ∅ (∪)). by destruct r. }
  rewrite fmap_cons in Hnd. apply NoDup_cons in Hnd as [Hid Hnd].
  cbn [foldl]. unfold Start at 2. cbn [fst snd].
  rewrite IH by done. cbn [made closed loops length seq fmap list_fmap zip
                            zip_with list_to_map foldr fst snd uncurry].
  f_equal.
  - f_equal; [lia|]. rewrite reverse_cons, <- app_assoc. done.
  - rewrite <- insert_union_l, <- insert_union_r; [done|].
    apply not_elem_of_list_to_map_1. rewrite fst_zip; [done|].
    rewrite length_seq, length_fmap. lia.
Qed.

Lemma StopAll_panicked (l : list (string * nat)) :
  foldl (λ acc '(_, stop),
           match acc with
           | None => None
           | Some rt => close_chan rt stop
           end) None l = None.
Proof. induction l as [|[??] l IH]; [done|]. by simpl. Qed.

(** The loop of [StopAll], over channels that are distinct and open. *)
Lemma StopAll_fold (l : list (string * nat)) r :
  NoDup l.*2 → (∀ c, c ∈ l.*2 → c ∉ closed r) →
  foldl (λ acc '(_, stop),
           match acc with
           | None => None
           | Some rt => close_chan rt stop
           end) (Some r) l
  = Some (mkRuntime (made r) (list_to_set l.*2 ∪ closed r) (loops r)).
Proof.
  revert r. induction l as [|[id c] l IH]; intros r Hnd Hopen.
  { simpl. rewrite (left_id_L ∅ (∪)). by destruct r. }
  rewrite fmap_cons in *. apply NoDup_cons in Hnd as [Hc Hnd].
  cbn [foldl snd]. unfold close_chan at 2.
  rewrite decide_False by (apply Hopen; left).
  rewrite IH; [|done|].
  - simpl. do 2 f_equal. set_solver.
  - simpl. intros c' Hin. specialize (Hopen c' ltac:(by right)). set_solver.
Qed.

Lemma live_all_closed (cs l : list nat) (C : gset nat) :
  (∀ c, c ∈ cs → c ∈ C) →
  filter (λ c, c ∉ C) (cs ++ l) = filter (λ c, c ∉ C) l.
Proof.
  intros Hin. rewrite filter_app.
  replace (filter (λ c, c ∉ C) cs) with ([] : list nat); [done|].
  symmetry. induction cs as [|c cs IH]; [done|].
  rewrite filter_cons_False by (intros Hc; apply Hc, Hin; left).
  apply IH. intros c' Hc'. apply Hin. by right.
Qed.

Lemma filter_ext_in {A} (P Q : A → Prop) `{!∀ x, Decision (P x)}
    `{!∀ x, Decision (Q x)} (l : list A) :
  (∀ x, x ∈ l → P x ↔ Q x) → filter P l = filter Q l.
Proof.
  induction l as [|x l IH]; intros Hl; [done|].
  rewrite !filter_cons. rewrite IH by (intros y Hy; apply Hl; by right).
  destruct (decide (P x)) as [HP|HP], (decide (Q x)) as [HQ|HQ]; try done.
  - destruct HQ. apply Hl; [left|done].
  - destruct HP. apply Hl; [left|done].
Qed.

(** X29. [StartAll] starts one consensus loop for every node of [Nodes],
    each on a channel of its own, and returns these channels under the
    ids of the nodes.  [StopAll] on the map returned closes them all
    without a panic and stops exactly the loops that [StartAll] started;
    a second [StopAll] on the same map panics as soon as the simulator
    holds a node, since its first channel is closed already. *)
Theorem StartAll_StopAll r s :
  runtime_ok r →
  dom (StartAll r s).2 = dom (Nodes s) ∧
  NoDup (map_to_list (StartAll r s).2).*2 ∧
  live (StartAll r s).1 ≡ₚ (map_to_list (StartAll r s).2).*2 ++ live r ∧
  ∃ r2, StopAll (StartAll r s).1 (StartAll r s).2 = Some r2 ∧
        live r2 = live r ∧
        (Nodes s ≠ ∅ → StopAll r2 (StartAll r s).2 = None).
Proof.
  intros [Hclosed Hloops]. unfold StartAll.
  pose proof (NoDup_fst_map_to_list (Nodes s)) as Hids.
  rewrite (StartAll_fold _ r ∅ Hids). cbn [fst snd].
  rewrite (right_id_L ∅ (∪)).
  set (ids := (map_to_list (Nodes s)).*1) in *.
  set (k := length (map_to_list (Nodes s))).
  set (cs := seq (made r) k).
  assert (length ids = length cs) as Hlen.
  { unfold ids, cs. by rewrite length_fmap, length_seq. }
  assert (NoDup (zip ids cs).*1) as Hzip by (by rewrite fst_zip by lia).
  pose proof (map_to_list_to_map (zip ids cs) Hzip) as Hperm.
  assert ((map_to_list (list_to_map (zip ids cs) : gmap string nat)).*2
          ≡ₚ cs) as Hchans.
  { rewrite Hperm. by rewrite snd_zip by lia. }
  assert (∀ c, c ∈ cs → (made r ≤ c)%nat) as Hnew.
  { intros c Hc. apply elem_of_seq in Hc. lia. }
  assert (∀ c, c ∈ cs → c ∉ closed r) as Hopen.
  { intros c Hc Hin. specialize (Hnew c Hc). specialize (Hclosed c Hin).
    simpl in Hclosed. lia. }
  assert (live (mkRuntime (made r + k) (closed r) (reverse cs ++ loops r))
          = reverse cs ++ live r) as Hlive.
  { unfold live. simpl. rewrite filter_app. f_equal.
    apply filter_Forall_id, Forall_forall. intros c Hc. apply Hopen.
    by apply elem_of_reverse. }
  split_and!.
  - rewrite dom_list_to_map_L, fst_zip by lia. unfold ids.
    apply set_eq. intros id. rewrite elem_of_list_to_set, elem_of_dom.
    rewrite list_elem_of_fmap. split.
    + intros ([id' n] & -> & Hin%elem_of_map_to_list). by eexists.
    + intros [n Hn]. exists (id, n). by rewrite elem_of_map_to_list.
  - rewrite Hchans. apply NoDup_seq.
  - rewrite Hlive, Hchans. by rewrite reverse_Permutation.
  - unfold StopAll. rewrite StopAll_fold.
    + eexists. split; [done|]. split.
      * unfold live. simpl.
        assert (list_to_set
                  (map_to_list
                     (list_to_map (zip ids cs) : gmap string nat)).*2
                = (list_to_set cs : gset nat)) as ->.
        { apply set_eq. intros c. rewrite !elem_of_list_to_set.
          by rewrite Hchans. }
        rewrite live_all_closed.
        2:{ intros c Hc. apply elem_of_reverse in Hc. set_solver. }
        apply filter_ext_in. intros c Hc.
        pose proof (proj1 (Forall_forall _ _) Hloops c Hc) as Hlt.
        simpl in Hlt. split; [set_solver|]. intros Hn Hin.
        apply elem_of_union in Hin as [Hin%elem_of_list_to_set|Hin]; [|done].
        specialize (Hnew c Hin). lia.
      * intros Hne.
        destruct (map_to_list (list_to_map (zip ids cs) : gmap string nat))
          as [|[id c] rest] eqn:Hl.
        { exfalso. apply map_to_list_empty_iff in Hl.
          assert (ids = []) as Hnil.
          { destruct ids as [|i ids']; [done|]. destruct cs; [done|].
            simpl in Hl. by apply insert_non_empty in Hl. }
          apply Hne, map_to_list_empty_iff. unfold ids in Hnil.
          by apply fmap_nil_inv in Hnil. }
        cbn [foldl]. unfold close_chan at 2. cbn [closed].
        rewrite decide_True by set_solver.
        apply StopAll_panicked.
    + rewrite Hchans. apply NoDup_seq.
    + intros c Hc. simpl. apply Hopen. by rewrite <- Hchans.
Qed.

End loops_facts.

Import Scenario.

(** The loops of the three nodes of [net_mesh], started in the runtime
    [busy]. *)
Lemma StartAll_StopAll_mesh :
  dom (StartAll busy net_mesh).2 = dom (Nodes net_mesh) ∧
  NoDup (map_to_list (StartAll busy net_mesh).2).*2 ∧
  live (StartAll busy net_mesh).1
  ≡ₚ (map_to_list (StartAll busy net_mesh).2).*2 ++ live busy ∧
  ∃ r2, StopAll (StartAll busy net_mesh).1 (StartAll busy net_mesh).2
        = Some r2 ∧
        live r2 = live busy ∧
        (Nodes net_mesh ≠ ∅ → StopAll r2 (StartAll busy net_mesh).2 = None).
Proof.
  apply (StartAll_StopAll busy net_mesh).
  apply (bool_decide_unpack _). vm_compute. exact I.
Defined.

(** Evaluated: the channels 1, 2 and 3 are handed out; after [StopAll] the
    loop on channel 0, which was running before, is the only one left. *)
Lemma StartAll_StopAll_evaluated :
  map_img (StartAll busy net_mesh).2 = ({[1%nat; 2%nat; 3%nat]} : gset nat) ∧
  (live <$> StopAll (StartAll busy net_mesh).1 (StartAll busy net_mesh).2)
  = Some [0%nat].
Proof.
  split; [|vm_compute; reflexivity].
  apply (bool_decide_unpack _). vm_compute. exact I.
Qed.

End LoopsExtra.
